(** * Connect Four server: board, match state machine, search engine, matchmaker

    A shallow embedding of the Go packages [game] (board, game, bot) and
    [matchmaker], with the properties of the natural-language specification
    stated and proved over it.

    Conventions of the embedding:
    - a Go [int] is a [Z] (no arithmetic of the modelled code leaves the
      64-bit range: indices are below 7 and scores below 2^31);
    - the array [cells [Rows][Columns]int] is a list of rows, each a list of
      cells, read with stdpp's lookup and written with its insert; the array
      type fixes the dimensions, which the predicate [wf_board] records;
    - a method with a pointer receiver takes the receiver's value and returns
      the new one (explicit state passing);
    - a Go run-time panic (index out of range, nil dereference) is [None] in
      the option monad;
    - [time.Now()] is a parameter of the operation that reads the clock, a
      [Z] counting nanoseconds;
    - the mutexes are not modelled: every method body is one atomic step. *)

From Stdlib Require Import ZArith List Bool Lia String Sorted.
From stdpp Require Import base option list gmap strings fin_maps.

Local Open Scope Z_scope.

(** ** Board (game/board.go) *)

Definition Rows : nat := 6.
Definition Columns : nat := 7.

Definition Empty : Z := 0.
Definition Player1 : Z := 1.
Definition Player2 : Z := 2.

(** [type Board struct { cells [Rows][Columns]int; mu sync.RWMutex }] *)
Abbreviation Board := (list (list Z)).

Definition wf_board (b : Board) : Prop :=
  length b = Rows ∧ Forall (λ r, length r = Columns) b.

(** [NewBoard]: the zero value of the array. *)
Definition NewBoard : Board := replicate Rows (replicate Columns Empty).

(** [b.cells[row][col]] for indices inside the array. *)
Definition cell (b : Board) (row col : nat) : Z :=
  default Empty (b !! row ≫= (.!! col)).

(** [b.cells[row][col] = v] *)
Definition set_cell (b : Board) (row col : nat) (v : Z) : Board :=
  alter (<[col := v]>) row b.

(** [Clone] copies the array cell by cell into a fresh board. *)
Definition Clone (b : Board) : Board := b.

(** The errors of the package: the three [errors.New] values of board.go and
    the two sentinel [GameError]s that [MakeMove] returns. *)
Inductive error : Set :=
| ErrInvalidColumn
| ErrInvalidPlayer
| ErrColumnFull
| ErrGameNotInProgress
| ErrNotYourTurn.

Definition Error (e : error) : string :=
  match e with
  | ErrInvalidColumn => "invalid column"
  | ErrInvalidPlayer => "invalid player"
  | ErrColumnFull => "column is full"
  | ErrGameNotInProgress => "game is not in progress"
  | ErrNotYourTurn => "not your turn"
  end%string.

(** Result of a Go function returning [(int, error)]. *)
Definition int_err : Set := (Z * option error)%type.

(** The loop [for row := Rows - 1; row >= 0; row-- { ... }] of [DropDisc]
    and [DropDiscUnsafe]; [n] is the number of rows still to visit, so the
    row visited is [n - 1]. *)
Fixpoint drop_loop (b : Board) (col : nat) (player : Z) (n : nat)
  : Board * int_err :=
  match n with
  | O => (b, (-1, Some ErrColumnFull))
  | S row =>
      if cell b row col =? Empty
      then (set_cell b row col player, (Z.of_nat row, None))
      else drop_loop b col player row
  end.

Definition DropDisc (b : Board) (column player : Z) : Board * int_err :=
  if (column <? 0) || (column >=? Z.of_nat Columns)
  then (b, (-1, Some ErrInvalidColumn))
  else if negb (player =? Player1) && negb (player =? Player2)
  then (b, (-1, Some ErrInvalidPlayer))
  else drop_loop b (Z.to_nat column) player Rows.

Definition DropDiscUnsafe (b : Board) (column player : Z) : Board * int_err :=
  if (column <? 0) || (column >=? Z.of_nat Columns)
  then (b, (-1, Some ErrInvalidColumn))
  else drop_loop b (Z.to_nat column) player Rows.

(** The loop [for row := 0; row < Rows; row++ { ... }] of [UndoMove];
    [n] is the number of rows still to visit. *)
Fixpoint undo_loop (b : Board) (col : nat) (row n : nat) : Board :=
  match n with
  | O => b
  | S n' =>
      if negb (cell b row col =? Empty)
      then set_cell b row col Empty
      else undo_loop b col (S row) n'
  end.

(** [UndoMove] has no range check: the first read [b.cells[0][column]] with
    [column] outside the array panics. *)
Definition UndoMove (b : Board) (column : Z) : option Board :=
  if (column <? 0) || (column >=? Z.of_nat Columns)
  then None
  else Some (undo_loop b (Z.to_nat column) 0 Rows).

(** The condition of each [if] in [checkWinUnsafe]: four cells all equal to
    [player]. *)
Definition four (player : Z) (c0 c1 c2 c3 : Z) : bool :=
  (c0 =? player) && (c1 =? player) && (c2 =? player) && (c3 =? player).

(** [checkWinUnsafe]: each pair of nested loops with [return true] inside is
    an [existsb] over the rows and columns it ranges over. *)
Definition checkWinUnsafe (b : Board) (player : Z) : bool :=
  (* horizontal *)
  existsb (λ row, existsb (λ col,
    four player (cell b row col) (cell b row (col + 1))
         (cell b row (col + 2)) (cell b row (col + 3)))
    (seq 0 (Columns - 4 + 1))) (seq 0 Rows)
  (* vertical *)
  || existsb (λ row, existsb (λ col,
    four player (cell b row col) (cell b (row + 1) col)
         (cell b (row + 2) col) (cell b (row + 3) col))
    (seq 0 Columns)) (seq 0 (Rows - 4 + 1))
  (* diagonal, down-right *)
  || existsb (λ row, existsb (λ col,
    four player (cell b row col) (cell b (row + 1) (col + 1))
         (cell b (row + 2) (col + 2)) (cell b (row + 3) (col + 3)))
    (seq 0 (Columns - 4 + 1))) (seq 0 (Rows - 4 + 1))
  (* diagonal, up-right *)
  || existsb (λ row, existsb (λ col,
    four player (cell b row col) (cell b (row - 1) (col + 1))
         (cell b (row - 2) (col + 2)) (cell b (row - 3) (col + 3)))
    (seq 0 (Columns - 4 + 1))) (seq 3 (Rows - 3)).

Definition CheckWin (b : Board) (player : Z) : bool := checkWinUnsafe b player.

(** [isFullUnsafe]: the loop returns false at the first empty top cell. *)
Definition isFullUnsafe (b : Board) : bool :=
  forallb (λ col, negb (cell b 0 col =? Empty)) (seq 0 Columns).

Definition IsFull (b : Board) : bool := isFullUnsafe b.

(** [getValidColumnsUnsafe]: the columns whose top cell is empty, in
    increasing order. *)
Definition getValidColumnsUnsafe (b : Board) : list Z :=
  map Z.of_nat (filter (λ col, cell b 0 col = Empty) (seq 0 Columns)).

Definition GetValidColumns (b : Board) : list Z := getValidColumnsUnsafe b.

(** The data-model invariant of a board: no empty cell below a disc. *)
Definition gravity (b : Board) : Prop :=
  ∀ row col : nat, (S row < Rows)%nat → (col < Columns)%nat →
    cell b row col ≠ Empty → cell b (S row) col ≠ Empty.

Definition gravityb (b : Board) : bool :=
  forallb (λ row, forallb (λ col,
    (cell b row col =? Empty) || negb (cell b (S row) col =? Empty))
    (seq 0 Columns)) (seq 0 (Rows - 1)).

(** Boolean well-formedness, for evaluation on concrete boards. *)
Definition wf_boardb (b : Board) : bool :=
  (length b =? Rows)%nat && forallb (λ r, (length r =? Columns)%nat) b.

(** ** Search engine (game/bot.go) *)

(** [type Bot struct { player, opponent, maxDepth int }].  The fields are
    unexported and [NewBot] is the only constructor, so [maxDepth] is never
    negative; it is a [nat] here and the recursion of [minimax] is on it. *)
Record Bot : Set := mkBot {
  player : Z;
  opponent : Z;
  maxDepth : nat
}.

Definition NewBot (p : Z) : Bot :=
  let opp := if p =? Player1 then Player2 else Player1 in
  {| player := p; opponent := opp; maxDepth := 5 |}.

Definition MinInt32 : Z := -2147483648.
Definition MaxInt32 : Z := 2147483647.

(** [scoreWindow]: the [switch] takes the first case that matches. *)
Definition count_cell (bot : Bot) (acc : Z * Z * Z) (c : Z) : Z * Z * Z :=
  let '(botCount, oppCount, emptyCount) := acc in
  if c =? player bot then (botCount + 1, oppCount, emptyCount)
  else if c =? opponent bot then (botCount, oppCount + 1, emptyCount)
  else if c =? Empty then (botCount, oppCount, emptyCount + 1)
  else acc.

Definition scoreWindow (bot : Bot) (window : list Z) : Z :=
  let '(botCount, oppCount, emptyCount) :=
    fold_left (count_cell bot) window (0, 0, 0) in
  if botCount =? 4 then 100
  else if (botCount =? 3) && (emptyCount =? 1) then 5
  else if (botCount =? 2) && (emptyCount =? 2) then 2
  else if (oppCount =? 3) && (emptyCount =? 1) then -4
  else 0.

(** Sum of [f row col] over a pair of nested loops. *)
Definition sum_over (rows cols : list nat) (f : nat → nat → Z) : Z :=
  fold_left (λ acc row, fold_left (λ acc col, acc + f row col) cols acc)
            rows 0.

Definition scoreAllWindows (bot : Bot) (b : Board) : Z :=
  let score := 0 in
  let score := score + sum_over (seq 0 Rows) (seq 0 (Columns - 4 + 1))
    (λ row col, scoreWindow bot
       [cell b row col; cell b row (col + 1);
        cell b row (col + 2); cell b row (col + 3)]) in
  let score := score + sum_over (seq 0 (Rows - 4 + 1)) (seq 0 Columns)
    (λ row col, scoreWindow bot
       [cell b row col; cell b (row + 1) col;
        cell b (row + 2) col; cell b (row + 3) col]) in
  let score := score + sum_over (seq 0 (Rows - 4 + 1)) (seq 0 (Columns - 4 + 1))
    (λ row col, scoreWindow bot
       [cell b row col; cell b (row + 1) (col + 1);
        cell b (row + 2) (col + 2); cell b (row + 3) (col + 3)]) in
  let score := score + sum_over (seq 3 (Rows - 3)) (seq 0 (Columns - 4 + 1))
    (λ row col, scoreWindow bot
       [cell b row col; cell b (row - 1) (col + 1);
        cell b (row - 2) (col + 2); cell b (row - 3) (col + 3)]) in
  score.

Definition evaluateBoard (bot : Bot) (b : Board) : Z :=
  let centerCol := (Columns / 2)%nat in
  let centerCount :=
    fold_left (λ n row, if cell b row centerCol =? player bot then n + 1 else n)
              (seq 0 Rows) 0 in
  centerCount * 3 + scoreAllWindows bot b.

(** The two loops of [minimax] over [validCols].  [rec alpha board] is the
    recursive call at [depth - 1]; the board is the one shared mutable
    object every call drops into and undoes on.  [break] leaves the loop
    with the score reached so far. *)
Fixpoint max_loop (rec : Z → Board → option (Board * Z)) (bot : Bot)
    (beta : Z) (cols : list Z) (board : Board) (maxScore alpha : Z)
  : option (Board * Z) :=
  match cols with
  | [] => Some (board, maxScore)
  | col :: rest =>
      let board := (DropDiscUnsafe board col (player bot)).1 in
      '(board, score) ← rec alpha board;
      board ← UndoMove board col;
      let maxScore := Z.max maxScore score in
      let alpha := Z.max alpha score in
      if beta <=? alpha then Some (board, maxScore)
      else max_loop rec bot beta rest board maxScore alpha
  end.

Fixpoint min_loop (rec : Z → Board → option (Board * Z)) (bot : Bot)
    (alpha : Z) (cols : list Z) (board : Board) (minScore beta : Z)
  : option (Board * Z) :=
  match cols with
  | [] => Some (board, minScore)
  | col :: rest =>
      let board := (DropDiscUnsafe board col (opponent bot)).1 in
      '(board, score) ← rec beta board;
      board ← UndoMove board col;
      let minScore := Z.min minScore score in
      let beta := Z.min beta score in
      if beta <=? alpha then Some (board, minScore)
      else min_loop rec bot alpha rest board minScore beta
  end.

(** [minimax]: returns the board as the call leaves it, and the score. *)
Fixpoint minimax (bot : Bot) (depth : nat) (alpha beta : Z)
    (isMaximizing : bool) (board : Board) : option (Board * Z) :=
  if checkWinUnsafe board (player bot)
  then Some (board, 10000 + Z.of_nat depth)
  else if checkWinUnsafe board (opponent bot)
  then Some (board, -10000 - Z.of_nat depth)
  else if isFullUnsafe board || (depth =? 0)%nat
  then Some (board, evaluateBoard bot board)
  else
    match depth with
    | O => Some (board, evaluateBoard bot board)
    | S depth' =>
          let validCols := getValidColumnsUnsafe board in
          if (length validCols =? 0)%nat then Some (board, 0)
          else if isMaximizing
          then max_loop (λ alpha board, minimax bot depth' alpha beta false board)
                        bot beta validCols board MinInt32 alpha
          else min_loop (λ beta board, minimax bot depth' alpha beta true board)
                        bot alpha validCols board MaxInt32 beta
    end.

(** The first two loops of [GetBestMove]: try every valid column for [who];
    the result is the board as the loop leaves it and the column returned
    from inside the loop, if any. *)
Fixpoint try_columns (b : Board) (who : Z) (cols : list Z)
  : option (Board * option Z) :=
  match cols with
  | [] => Some (b, None)
  | col :: rest =>
      let b := (DropDiscUnsafe b col who).1 in
      if checkWinUnsafe b who
      then b ← UndoMove b col; Some (b, Some col)
      else b ← UndoMove b col; try_columns b who rest
  end.

Definition columnOrder : list Z := [3; 2; 4; 1; 5; 0; 6].

(** [orderedCols]: a column of [columnOrder] is appended when the inner loop
    finds it among [validCols] (and then breaks). *)
Definition orderCols (validCols : list Z) : list Z :=
  filter (λ col, existsb (Z.eqb col) validCols = true) columnOrder.

(** The last loop of [GetBestMove]. *)
Fixpoint search_loop (bot : Bot) (b : Board) (cols : list Z)
    (bestScore bestCol : Z) : option Z :=
  match cols with
  | [] => Some bestCol
  | col :: rest =>
      let b := (DropDiscUnsafe b col (player bot)).1 in
      '(b, score) ← minimax bot (maxDepth bot - 1) MinInt32 MaxInt32 false b;
      b ← UndoMove b col;
      if score >? bestScore
      then search_loop bot b rest score col
      else search_loop bot b rest bestScore bestCol
  end.

(** [GetBestMove]; [validCols[0]] on an empty slice panics. *)
Definition GetBestMove (bot : Bot) (board : Board) : option Z :=
  let b := Clone board in
  let validCols := getValidColumnsUnsafe b in
  '(b, found) ← try_columns b (player bot) validCols;
  match found with
  | Some col => Some col
  | None =>
      '(b, found) ← try_columns b (opponent bot) validCols;
      match found with
      | Some col => Some col
      | None =>
          let bestScore := MinInt32 in
          bestCol ← head validCols;
          let orderedCols := orderCols validCols in
          search_loop bot b orderedCols bestScore bestCol
      end
  end.

(** ** Match state machine (game/game.go) *)

Inductive GameStatus : Set :=
| StatusWaiting
| StatusPlaying
| StatusFinished
| StatusDisconnect.

Inductive GameResult : Set :=
| ResultWinPlayer1
| ResultWinPlayer2
| ResultDraw
| ResultForfeit.

#[global] Instance GameStatus_eq_dec : EqDecision GameStatus.
Proof. solve_decision. Defined.

#[global] Instance GameResult_eq_dec : EqDecision GameResult.
Proof. solve_decision. Defined.

(** Instants ([time.Time]) and durations, in nanoseconds; the zero
    [time.Time{}] is instant 0. *)
Definition Time := Z.
Definition Second : Z := 1000000000.

Record Player : Set := mkPlayer {
  Username : string;
  PlayerNum : Z;
  IsBot : bool;
  IsConnected : bool
}.

Record Move : Set := mkMove {
  mPlayerNum : Z;
  mColumn : Z;
  mRow : Z;
  mTimestamp : Time
}.

(** [type Game struct].  The fields [Player1], [Player2], [Board] and [Bot]
    are [GPlayer1], [GPlayer2], [GBoard] and [GBot] here, their Go names
    being taken by the constants and types above.  The pointers [Player1],
    [Player2] and [Winner] are [option Player] with [None] for nil; [Winner]
    is assigned from [Player1] or [Player2] and holds the value that player
    has at the assignment (the code never writes through [Winner], and reads
    only [Winner.Username], which no method changes).  [Result] is [None]
    for the empty string.  The [Bot] pointer is [None] for nil. *)
Record Game : Set := mkGame {
  ID : string;
  GPlayer1 : option Player;
  GPlayer2 : option Player;
  GBoard : Board;
  CurrentTurn : Z;
  Status : GameStatus;
  Winner : option Player;
  Result : option GameResult;
  Moves : list Move;
  StartTime : Time;
  EndTime : Time;
  DisconnectTime : Time;
  DisconnectedPlayer : Z;
  GBot : option Bot
}.

(** Field updates, one per field the methods assign. *)
Definition set_Player1 (g : Game) (v : option Player) : Game :=
  mkGame (ID g) v (GPlayer2 g) (GBoard g) (CurrentTurn g) (Status g)
         (Winner g) (Result g) (Moves g) (StartTime g) (EndTime g)
         (DisconnectTime g) (DisconnectedPlayer g) (GBot g).
Definition set_Player2 (g : Game) (v : option Player) : Game :=
  mkGame (ID g) (GPlayer1 g) v (GBoard g) (CurrentTurn g) (Status g)
         (Winner g) (Result g) (Moves g) (StartTime g) (EndTime g)
         (DisconnectTime g) (DisconnectedPlayer g) (GBot g).
Definition set_Board (g : Game) (v : Board) : Game :=
  mkGame (ID g) (GPlayer1 g) (GPlayer2 g) v (CurrentTurn g) (Status g)
         (Winner g) (Result g) (Moves g) (StartTime g) (EndTime g)
         (DisconnectTime g) (DisconnectedPlayer g) (GBot g).
Definition set_CurrentTurn (g : Game) (v : Z) : Game :=
  mkGame (ID g) (GPlayer1 g) (GPlayer2 g) (GBoard g) v (Status g)
         (Winner g) (Result g) (Moves g) (StartTime g) (EndTime g)
         (DisconnectTime g) (DisconnectedPlayer g) (GBot g).
Definition set_Status (g : Game) (v : GameStatus) : Game :=
  mkGame (ID g) (GPlayer1 g) (GPlayer2 g) (GBoard g) (CurrentTurn g) v
         (Winner g) (Result g) (Moves g) (StartTime g) (EndTime g)
         (DisconnectTime g) (DisconnectedPlayer g) (GBot g).
Definition set_Winner (g : Game) (v : option Player) : Game :=
  mkGame (ID g) (GPlayer1 g) (GPlayer2 g) (GBoard g) (CurrentTurn g) (Status g)
         v (Result g) (Moves g) (StartTime g) (EndTime g)
         (DisconnectTime g) (DisconnectedPlayer g) (GBot g).
Definition set_Result (g : Game) (v : option GameResult) : Game :=
  mkGame (ID g) (GPlayer1 g) (GPlayer2 g) (GBoard g) (CurrentTurn g) (Status g)
         (Winner g) v (Moves g) (StartTime g) (EndTime g)
         (DisconnectTime g) (DisconnectedPlayer g) (GBot g).
Definition set_Moves (g : Game) (v : list Move) : Game :=
  mkGame (ID g) (GPlayer1 g) (GPlayer2 g) (GBoard g) (CurrentTurn g) (Status g)
         (Winner g) (Result g) v (StartTime g) (EndTime g)
         (DisconnectTime g) (DisconnectedPlayer g) (GBot g).
Definition set_EndTime (g : Game) (v : Time) : Game :=
  mkGame (ID g) (GPlayer1 g) (GPlayer2 g) (GBoard g) (CurrentTurn g) (Status g)
         (Winner g) (Result g) (Moves g) (StartTime g) v
         (DisconnectTime g) (DisconnectedPlayer g) (GBot g).
Definition set_DisconnectTime (g : Game) (v : Time) : Game :=
  mkGame (ID g) (GPlayer1 g) (GPlayer2 g) (GBoard g) (CurrentTurn g) (Status g)
         (Winner g) (Result g) (Moves g) (StartTime g) (EndTime g)
         v (DisconnectedPlayer g) (GBot g).
Definition set_DisconnectedPlayer (g : Game) (v : Z) : Game :=
  mkGame (ID g) (GPlayer1 g) (GPlayer2 g) (GBoard g) (CurrentTurn g) (Status g)
         (Winner g) (Result g) (Moves g) (StartTime g) (EndTime g)
         (DisconnectTime g) v (GBot g).
Definition set_Bot (g : Game) (v : option Bot) : Game :=
  mkGame (ID g) (GPlayer1 g) (GPlayer2 g) (GBoard g) (CurrentTurn g) (Status g)
         (Winner g) (Result g) (Moves g) (StartTime g) (EndTime g)
         (DisconnectTime g) (DisconnectedPlayer g) v.

Definition set_IsConnected (p : Player) (v : bool) : Player :=
  mkPlayer (Username p) (PlayerNum p) (IsBot p) v.

(** [NewGame]; [id] is the fresh [uuid.New().String()] and [now] the clock. *)
Definition NewGame (id : string) (now : Time) (player1Username : string) : Game :=
  {| ID := id;
     GPlayer1 := Some (mkPlayer player1Username Player1 false true);
     GPlayer2 := None;
     GBoard := NewBoard;
     CurrentTurn := Player1;
     Status := StatusWaiting;
     Winner := None;
     Result := None;
     Moves := [];
     StartTime := now;
     EndTime := 0;
     DisconnectTime := 0;
     DisconnectedPlayer := 0;
     GBot := None |}.

Definition AddPlayer2 (g : Game) (username : string) (isBot : bool) : Game :=
  let g := set_Player2 g (Some (mkPlayer username Player2 isBot true)) in
  let g := set_Status g StatusPlaying in
  if isBot then set_Bot g (Some (NewBot Player2)) else g.

(** [MakeMove]; [now] is the clock at the two [time.Now()] calls (the move's
    timestamp and the end time). *)
Definition MakeMove (g : Game) (playerNum column : Z) (now : Time)
  : Game * int_err :=
  if negb (bool_decide (Status g = StatusPlaying))
  then (g, (-1, Some ErrGameNotInProgress))
  else if negb (CurrentTurn g =? playerNum)
  then (g, (-1, Some ErrNotYourTurn))
  else
    let '(board, (row, err)) := DropDisc (GBoard g) column playerNum in
    let g := set_Board g board in
    match err with
    | Some e => (g, (-1, Some e))
    | None =>
        let g := set_Moves g (Moves g ++ [mkMove playerNum column row now]) in
        if CheckWin (GBoard g) playerNum then
          let g := set_Status g StatusFinished in
          let g := set_EndTime g now in
          let g :=
            if playerNum =? Player1
            then set_Result (set_Winner g (GPlayer1 g)) (Some ResultWinPlayer1)
            else set_Result (set_Winner g (GPlayer2 g)) (Some ResultWinPlayer2) in
          (g, (row, None))
        else if IsFull (GBoard g) then
          let g := set_Status g StatusFinished in
          let g := set_EndTime g now in
          let g := set_Result g (Some ResultDraw) in
          (g, (row, None))
        else
          let g :=
            if CurrentTurn g =? Player1
            then set_CurrentTurn g Player2
            else set_CurrentTurn g Player1 in
          (g, (row, None))
    end.

(** [PlayerDisconnected]; a nil [Player1] or [Player2] panics at the write
    of [IsConnected]. *)
Definition PlayerDisconnected (g : Game) (playerNum : Z) (now : Time)
  : option Game :=
  if negb (bool_decide (Status g = StatusPlaying)) then Some g
  else
    let g := set_DisconnectedPlayer g playerNum in
    let g := set_DisconnectTime g now in
    let g := set_Status g StatusDisconnect in
    if playerNum =? Player1
    then p ← GPlayer1 g; Some (set_Player1 g (Some (set_IsConnected p false)))
    else p ← GPlayer2 g; Some (set_Player2 g (Some (set_IsConnected p false))).

(** [PlayerReconnected]; [now - DisconnectTime g] is
    [time.Since(g.DisconnectTime)]. *)
Definition PlayerReconnected (g : Game) (playerNum : Z) (now : Time)
  : option (Game * bool) :=
  if negb (bool_decide (Status g = StatusDisconnect))
     || negb (DisconnectedPlayer g =? playerNum)
  then Some (g, false)
  else if now - DisconnectTime g >? 30 * Second
  then Some (g, false)
  else
    let g := set_Status g StatusPlaying in
    let g := set_DisconnectedPlayer g 0 in
    let g := set_DisconnectTime g 0 in
    if playerNum =? Player1
    then p ← GPlayer1 g;
         Some (set_Player1 g (Some (set_IsConnected p true)), true)
    else p ← GPlayer2 g;
         Some (set_Player2 g (Some (set_IsConnected p true)), true).

Definition Forfeit (g : Game) (loserPlayerNum : Z) (now : Time) : Game :=
  let g := set_Status g StatusFinished in
  let g := set_EndTime g now in
  let g := set_Result g (Some ResultForfeit) in
  if loserPlayerNum =? Player1
  then set_Winner g (GPlayer2 g)
  else set_Winner g (GPlayer1 g).

(** ** Matchmaker (matchmaker/matchmaker.go) *)

(** A channel made by [make(chan *game.Game, 1)] is known by its identity;
    what the code does with channels and goroutines is the list of effects
    an operation returns, in program order. *)
Definition chan := nat.

Record WaitingPlayer : Set := mkWaiting {
  WUsername : string;
  JoinedAt : Time;
  MatchChan : chan
}.

Inductive effect : Set :=
| Send (ch : chan) (g : Game)          (* ch <- g *)
| GoTimeout (w : WaitingPlayer)        (* go m.handleMatchmakingTimeout(w) *)
| GoOnGameStart (g : Game).            (* go m.onGameStart(g) *)

(** [type Matchmaker struct].  [activeGames] maps a game id to the game the
    registered pointer points to; [onGameStart] records whether the callback
    is set. *)
Record Matchmaker := mkMatchmaker {
  waitingQueue : list WaitingPlayer;
  activeGames : gmap string Game;
  playerGames : gmap string string;
  onGameStart : bool
}.

Definition NewMatchmaker : Matchmaker :=
  {| waitingQueue := []; activeGames := ∅; playerGames := ∅;
     onGameStart := false |}.

(** The lookup [m.playerGames[username]] followed by [m.activeGames[gameID]]
    that opens [JoinQueue] (and is the body of [GetGameByPlayer]). *)
Definition GetGameByPlayer (m : Matchmaker) (username : string) : option Game :=
  gameID ← playerGames m !! username; activeGames m !! gameID.

(** [JoinQueue]; [ch] is the channel the call makes, [id] the id of the game
    it may create and [now] the clock.  The result is the new matchmaker,
    the channel returned and the effects; the error returned is always nil. *)
Definition JoinQueue (m : Matchmaker) (username : string)
    (ch : chan) (id : string) (now : Time)
  : Matchmaker * chan * list effect :=
  match GetGameByPlayer m username with
  | Some g => (m, ch, [Send ch g])
  | None =>
      match waitingQueue m with
      | opponent :: rest =>
          let g := NewGame id now (WUsername opponent) in
          let g := AddPlayer2 g username false in
          let m' :=
            {| waitingQueue := rest;
               activeGames := <[ID g := g]> (activeGames m);
               playerGames :=
                 <[username := ID g]>
                   (<[WUsername opponent := ID g]> (playerGames m));
               onGameStart := onGameStart m |} in
          (m', ch,
           [Send (MatchChan opponent) g; Send ch g]
             ++ (if onGameStart m then [GoOnGameStart g] else []))
      | [] =>
          let waiting := mkWaiting username now ch in
          let m' :=
            {| waitingQueue := waitingQueue m ++ [waiting];
               activeGames := activeGames m;
               playerGames := playerGames m;
               onGameStart := onGameStart m |} in
          (m', MatchChan waiting, [GoTimeout waiting])
      end
  end.

(** A method called on a registered game through its pointer (by the hub or
    the message handler) changes the game the registry holds. *)
Definition with_game (m : Matchmaker) (gameID : string) (f : Game → Game)
  : Matchmaker :=
  {| waitingQueue := waitingQueue m;
     activeGames := alter f gameID (activeGames m);
     playerGames := playerGames m;
     onGameStart := onGameStart m |}.

(** ** Sequences of board operations *)

(** The three methods that write cells; a drop that returns an error is a
    step that leaves the board as it is, an undo that panics ends the run. *)
Inductive board_op : Set :=
| OpDropDisc (column player : Z)
| OpDropDiscUnsafe (column player : Z)
| OpUndoMove (column : Z).

Definition apply_op (b : Board) (op : board_op) : option Board :=
  match op with
  | OpDropDisc column p => Some (DropDisc b column p).1
  | OpDropDiscUnsafe column p => Some (DropDiscUnsafe b column p).1
  | OpUndoMove column => UndoMove b column
  end.

Fixpoint run_ops (b : Board) (ops : list board_op) : option Board :=
  match ops with
  | [] => Some b
  | op :: rest => b' ← apply_op b op; run_ops b' rest
  end.

(** ** Notions the properties are stated with *)

(** Column [col] accepts a disc and dropping [who]'s disc there makes
    [checkWinUnsafe] true for [who]. *)
Definition wins_at (b : Board) (who : Z) (col : Z) : Prop :=
  col ∈ getValidColumnsUnsafe b ∧
  checkWinUnsafe (DropDiscUnsafe b col who).1 who = true.

(** A column index inside the array. *)
Definition in_range (column : Z) : Prop := 0 ≤ column < Z.of_nat Columns.

(** The other side. *)
Definition other_side (side : Z) : Z :=
  if side =? Player1 then Player2 else Player1.

(** The player of a side in a game. *)
Definition player_of (g : Game) (side : Z) : option Player :=
  if side =? Player1 then GPlayer1 g else GPlayer2 g.

(** The games the server runs: the matchmaker creates a game with [NewGame]
    and at once adds the second player; from then on the hub and the message
    handler call the four methods below on it. *)
Inductive reachable : Game → Prop :=
| reach_start id now u1 u2 isBot :
    reachable (AddPlayer2 (NewGame id now u1) u2 isBot)
| reach_MakeMove g playerNum column now :
    reachable g → reachable (MakeMove g playerNum column now).1
| reach_PlayerDisconnected g playerNum now g' :
    reachable g → PlayerDisconnected g playerNum now = Some g' → reachable g'
| reach_PlayerReconnected g playerNum now g' r :
    reachable g → PlayerReconnected g playerNum now = Some (g', r) →
    reachable g'
| reach_Forfeit g loser now :
    reachable g → reachable (Forfeit g loser now).

(** What holds of every such game: both players are there, the board is a
    6 x 7 array obeying gravity, and until the game is finished no winner
    and no result are recorded. *)
Definition game_inv (g : Game) : Prop :=
  GPlayer1 g ≠ None ∧ GPlayer2 g ≠ None ∧
  wf_board (GBoard g) ∧ gravity (GBoard g) ∧
  (Status g ≠ StatusFinished → Winner g = None ∧ Result g = None).

(** The elapsed time since the disconnect is inside the reconnection window
    of the game for [side]. *)
Definition can_reconnect (g : Game) (side : Z) (now : Time) : Prop :=
  Status g = StatusDisconnect ∧ DisconnectedPlayer g = side ∧
  now - DisconnectTime g ≤ 30 * Second.

(** ** Concrete states used in the examples *)

(** A run of [MakeMove] calls, one per [(playerNum, column)], all at [now]. *)
Fixpoint play (g : Game) (moves : list (Z * Z)) (now : Time) : Game :=
  match moves with
  | [] => g
  | (playerNum, column) :: rest => play (MakeMove g playerNum column now).1 rest now
  end.

Definition alice_vs_bob : Game :=
  AddPlayer2 (NewGame "game-1" 0 "alice") "bob" false.

(** alice fills the bottom row of columns 0 to 3 while bob stacks column 6. *)
Definition alice_has_won : Game :=
  play alice_vs_bob
       [(1, 0); (2, 6); (1, 1); (2, 6); (1, 2); (2, 6); (1, 3)] 7.

(** A board on which side 2 wins at once in column 3 (bottom row), and a
    board on which side 1 threatens the same. *)
Definition board_two_wins : Board :=
  (play alice_vs_bob [(1, 0); (2, 4); (1, 0); (2, 5); (1, 0); (2, 6)] 1).(GBoard).

Definition board_one_threatens : Board :=
  (play alice_vs_bob [(1, 0); (2, 6); (1, 1); (2, 6); (1, 2)] 1).(GBoard).

(** A board with no empty cell. *)
Definition board_full : Board := replicate Rows (replicate Columns Player1).

(** alice's connection is lost ten seconds after the clock's origin. *)
Definition alice_disconnected : Game :=
  default alice_vs_bob (PlayerDisconnected alice_vs_bob Player1 (10 * Second)).

(** bob waits, alice joins and is paired with him in game-1; alice then
    forfeits; the game is finished and still registered, as it is for the
    five seconds before the hub calls [RemoveGame]. *)
Definition mm_bob_waiting : Matchmaker :=
  (JoinQueue NewMatchmaker "bob" 1%nat "unused" 0).1.1.

Definition mm_paired : Matchmaker :=
  (JoinQueue mm_bob_waiting "alice" 2%nat "game-1" 5).1.1.

Definition mm_finished : Matchmaker :=
  with_game mm_paired "game-1" (λ g, Forfeit g Player2 100).

Definition bob_vs_alice_forfeited : Game :=
  Forfeit (AddPlayer2 (NewGame "game-1" 5 "bob") "alice" false) Player2 100.

(** alice against the bot: she waits alone, the timer fires, and she plays
    column 3; the matchmaker holding that game. *)
Definition mm_alice_waiting : Matchmaker :=
  (JoinQueue NewMatchmaker "alice" 1%nat "unused" 0).1.1.

Definition alice_vs_bot : Game :=
  AddPlayer2 (NewGame "game-b" 10 "alice") "BOT" true.

Definition bot_to_move : Game := play alice_vs_bot [(1, 3)] 11.

(** ** Further operations of the packages *)

(** *** board.go *)

(** [IsColumnValid]; the cell is read only when the column is in range. *)
Definition IsColumnValid (b : Board) (column : Z) : bool :=
  (column >=? 0) && (column <? Z.of_nat Columns)
  && (cell b 0 (Z.to_nat column) =? Empty).

(** [GetCell]: an index outside the array panics. *)
Definition GetCell (b : Board) (row col : Z) : option Z :=
  if (row <? 0) || (row >=? Z.of_nat Rows)
     || (col <? 0) || (col >=? Z.of_nat Columns)
  then None
  else Some (cell b (Z.to_nat row) (Z.to_nat col)).

(** The number of discs in a column. *)
Definition column_discs (b : Board) (col : nat) : nat :=
  length (filter (λ row, cell b row col ≠ Empty) (seq 0 Rows)).

(** *** bot.go *)

(** [GetRandomValidMove]; [intn n] is the value [rand.Intn(n)] returns.  An
    index outside the slice panics. *)
Definition GetRandomValidMove (b : Board) (intn : Z → Z) : option Z :=
  let validCols := GetValidColumns b in
  if (length validCols =? 0)%nat then Some (-1)
  else
    let i := intn (Z.of_nat (length validCols)) in
    if i <? 0 then None else validCols !! Z.to_nat i.

(** *** game.go *)

(** [MakeBotMove]: the result is [(column, row, err)]; the search runs on
    the game's board whatever the status is. *)
Definition MakeBotMove (g : Game) (now : Time)
  : option (Game * (Z * Z * option error)) :=
  match GBot g with
  | None => Some (g, (-1, -1, Some ErrNotYourTurn))
  | Some bot =>
      if negb (CurrentTurn g =? Player2)
      then Some (g, (-1, -1, Some ErrNotYourTurn))
      else
        column ← GetBestMove bot (GBoard g);
        let '(g, (row, err)) := MakeMove g Player2 column now in
        Some (g, (column, row, err))
  end.

(** [GetPlayerByUsername] *)
Definition GetPlayerByUsername (g : Game) (username : string) : Z :=
  if match GPlayer1 g with
     | Some p => bool_decide (Username p = username)
     | None => false
     end
  then Player1
  else if match GPlayer2 g with
          | Some p => bool_decide (Username p = username)
          | None => false
          end
  then Player2
  else 0.

(** [GetState]: the snapshot the hub serializes. *)
Record GameState : Set := mkGameState {
  sID : string;
  sPlayer1 : string;
  sPlayer2 : string;
  sIsVsBot : bool;
  sBoard : list (list Z);
  sCurrentTurn : Z;
  sStatus : GameStatus;
  sWinner : string;
  sResult : option GameResult;
  sLastMove : option (Z * Z);
  sMoveCount : Z
}.

Definition GetState (g : Game) : GameState :=
  {| sID := ID g;
     sPlayer1 := from_option Username "" (GPlayer1 g);
     sPlayer2 := from_option Username "" (GPlayer2 g);
     sIsVsBot := from_option IsBot false (GPlayer2 g);
     sBoard := GBoard g;
     sCurrentTurn := CurrentTurn g;
     sStatus := Status g;
     sWinner := from_option Username "" (Winner g);
     sResult := Result g;
     sLastMove := (λ m, (mColumn m, mRow m)) <$> last (Moves g);
     sMoveCount := Z.of_nat (length (Moves g)) |}.

(** *** matchmaker.go *)

#[global] Instance WaitingPlayer_eq_dec : EqDecision WaitingPlayer.
Proof. solve_decision. Defined.

(** The loop [for i, w := range m.waitingQueue] of [LeaveQueue] and of
    [handleMatchmakingTimeout]: the first entry satisfying the test is cut
    out of the queue with [append(queue[:i], queue[i+1:]...)]. *)
Fixpoint cut_first (test : WaitingPlayer → bool) (queue : list WaitingPlayer)
  : option (WaitingPlayer * list WaitingPlayer) :=
  match queue with
  | [] => None
  | w :: rest =>
      if test w then Some (w, rest)
      else '(found, rest') ← cut_first test rest; Some (found, w :: rest')
  end.

(** [handleMatchmakingTimeout] after the sleep.  The test [w == waiting]
    compares pointers; an entry is known by its channel, which is made
    fresh for it, so it is the equality of the entries here.  [id] is the id
    of the game created. *)
Definition handleMatchmakingTimeout (m : Matchmaker) (waiting : WaitingPlayer)
    (id : string) (now : Time) : Matchmaker * list effect :=
  match cut_first (λ w, bool_decide (w = waiting)) (waitingQueue m) with
  | Some (_, queue) =>
      let g := NewGame id now (WUsername waiting) in
      let g := AddPlayer2 g "BOT" true in
      let m' :=
        {| waitingQueue := queue;
           activeGames := <[ID g := g]> (activeGames m);
           playerGames := <[WUsername waiting := ID g]> (playerGames m);
           onGameStart := onGameStart m |} in
      (m', [Send (MatchChan waiting) g]
             ++ (if onGameStart m then [GoOnGameStart g] else []))
  | None => (m, [])
  end.

Definition GetGame (m : Matchmaker) (gameID : string) : option Game :=
  activeGames m !! gameID.

(** [RemoveGame]; a registered game with a nil [Player1] panics. *)
Definition RemoveGame (m : Matchmaker) (gameID : string) : option Matchmaker :=
  match activeGames m !! gameID with
  | None => Some m
  | Some g =>
      p1 ← GPlayer1 g;
      let names := delete (Username p1) (playerGames m) in
      let names :=
        match GPlayer2 g with
        | Some p2 => if negb (IsBot p2) then delete (Username p2) names
                     else names
        | None => names
        end in
      Some {| waitingQueue := waitingQueue m;
              activeGames := delete gameID (activeGames m);
              playerGames := names;
              onGameStart := onGameStart m |}
  end.

(** [LeaveQueue]: the new matchmaker and the channel closed, if any. *)
Definition LeaveQueue (m : Matchmaker) (username : string)
  : Matchmaker * option chan :=
  match cut_first (λ w, bool_decide (WUsername w = username)) (waitingQueue m) with
  | Some (w, queue) =>
      ({| waitingQueue := queue;
          activeGames := activeGames m;
          playerGames := playerGames m;
          onGameStart := onGameStart m |}, Some (MatchChan w))
  | None => (m, None)
  end.

Definition GetActiveGameCount (m : Matchmaker) : nat := size (activeGames m).
Definition GetWaitingCount (m : Matchmaker) : nat := length (waitingQueue m).

(** The states of the matchmaker: from [NewMatchmaker] (with or without the
    start callback) by its own operations and by the methods the hub calls
    on a registered game. *)
Inductive mm_reachable : Matchmaker → Prop :=
| mm_new cb :
    mm_reachable {| waitingQueue := []; activeGames := ∅; playerGames := ∅;
                    onGameStart := cb |}
| mm_JoinQueue m username ch id now :
    mm_reachable m → mm_reachable (JoinQueue m username ch id now).1.1
| mm_timeout m waiting id now :
    mm_reachable m → mm_reachable (handleMatchmakingTimeout m waiting id now).1
| mm_LeaveQueue m username :
    mm_reachable m → mm_reachable (LeaveQueue m username).1
| mm_RemoveGame m gameID m' :
    mm_reachable m → RemoveGame m gameID = Some m' → mm_reachable m'
| mm_with_game m gameID f :
    mm_reachable m → mm_reachable (with_game m gameID f).

(** *** hub.go: the disconnect protocol *)

(** Of [type Message struct] (handler.go) the fields a game-over message
    fills in. *)
Record Message : Set := mkMessage {
  msgType : string;
  msgWinner : string;
  msgReason : string
}.

Definition TypeGameOver : string := "gameOver".

(** What the hub does besides changing games, the matchmaker and its own
    registry: the calls of [handleGameEnd] and [notifyOpponentDisconnected]
    (with the deadline it computes), the goroutine started, the channel
    [LeaveQueue] closes, and the non-blocking send
    [select { case client.send <- data: default: }] of [broadcastToGame] on
    an open channel, which delivers the message or, when the buffer is
    full, drops it. *)
Inductive hub_effect : Set :=
| CloseChan (ch : chan)
| GameEnd (g : Game)
| NotifyOpponentDisconnected (g : Game) (disconnectedPlayerNum : Z)
    (deadline : Time)
| GoReconnectTimeout (gameID : string) (disconnectedPlayer : Z)
| Offer (send : chan) (msg : Message).

(** [handleDisconnect] for a client with the given name and game id; the
    game is the one registered under the id, and the methods called on it
    change the registered game.  The handler is taken as one step: no other
    goroutine touches the game between its calls. *)
Definition handleDisconnect (m : Matchmaker) (username gameID : string)
    (now : Time) : option (Matchmaker * list hub_effect) :=
  if bool_decide (gameID = ""%string) then
    let '(m, closed) := LeaveQueue m username in
    Some (m, from_option (λ ch, [CloseChan ch]) [] closed)
  else
    match GetGame m gameID with
    | None => Some (m, [])
    | Some g =>
        let playerNum := GetPlayerByUsername g username in
        if playerNum =? 0 then Some (m, [])
        else if from_option IsBot false (GPlayer2 g) && (playerNum =? Player1)
        then
          let g := Forfeit g Player1 now in
          Some (with_game m gameID (λ _, g), [GameEnd g])
        else
          g ← PlayerDisconnected g playerNum now;
          Some (with_game m gameID (λ _, g),
                [NotifyOpponentDisconnected g playerNum (now + 30 * Second);
                 GoReconnectTimeout gameID playerNum])
    end.

(** *** hub.go: the registry of clients and the broadcasts *)

(** [Client] is declared in client.go, which is not among the sources at
    hand; hub.go reads its fields [username], [gameID] and [send], closes
    [send] and sends on it.  A [*Client] is modelled by the two fields that
    are never written after the client is made, the name and the channel
    (one channel per client: the channel names the client); [gameID], which
    [RegisterToGame] writes through the pointer, is kept in the hub's
    state, per client, so that every holder of the pointer sees it. *)
Record Client : Set := mkClient {
  cUsername : string;
  cSend : chan
}.

(** [type Hub struct]: [clients], [gameClients] and the matchmaker.  With
    them go the two pieces of state the hub's code acts on through
    pointers: [hGameID], the field [gameID] of each client (the empty
    string until it is written), and [hClosed], the [send] channels that
    have been closed. *)
Record Hub := mkHub {
  hClients : gmap string Client;
  hGameClients : gmap string (gmap string Client);
  hGameID : gmap chan string;
  hClosed : gset chan;
  hMatchmaker : Matchmaker
}.

Definition NewHub (mm : Matchmaker) : Hub :=
  {| hClients := ∅; hGameClients := ∅; hGameID := ∅; hClosed := ∅;
     hMatchmaker := mm |}.

(** [client.gameID] *)
Definition gameID_of (h : Hub) (client : Client) : string :=
  default ""%string (hGameID h !! cSend client).

(** [Run], the case [client := <-h.register]. *)
Definition register (h : Hub) (client : Client) : Hub :=
  {| hClients := <[cUsername client := client]> (hClients h);
     hGameClients := hGameClients h; hGameID := hGameID h;
     hClosed := hClosed h; hMatchmaker := hMatchmaker h |}.

(** [Run], the case [client := <-h.unregister]: when a client is registered
    under the name, the entry is deleted and the channel of the client that
    leaves is closed (closing a closed channel panics); then
    [handleDisconnect].  The client's entry in [gameClients] is not
    touched. *)
Definition unregister (h : Hub) (client : Client) (now : Time)
  : option (Hub * list hub_effect) :=
  h ← (if bool_decide (is_Some (hClients h !! cUsername client)) then
         if bool_decide (cSend client ∈ hClosed h) then None
         else Some {| hClients := delete (cUsername client) (hClients h);
                      hGameClients := hGameClients h; hGameID := hGameID h;
                      hClosed := {[cSend client]} ∪ hClosed h;
                      hMatchmaker := hMatchmaker h |}
       else Some h);
  '(m, effects) ← handleDisconnect (hMatchmaker h) (cUsername client)
                     (gameID_of h client) now;
  Some ({| hClients := hClients h; hGameClients := hGameClients h;
           hGameID := hGameID h; hClosed := hClosed h; hMatchmaker := m |},
        effects).

(** [RegisterToGame]: the client takes the place of any client listed for
    the game under the same name. *)
Definition RegisterToGame (h : Hub) (gameID : string) (client : Client) : Hub :=
  {| hClients := hClients h;
     hGameClients :=
       <[gameID := <[cUsername client := client]>
                     (default ∅ (hGameClients h !! gameID))]> (hGameClients h);
     hGameID := <[cSend client := gameID]> (hGameID h);
     hClosed := hClosed h; hMatchmaker := hMatchmaker h |}.

(** [broadcastToGame]: a non-blocking send to every client listed for the
    game.  A send on a closed channel panics, in a [select] with a
    [default] too; what the clients visited before it have been offered
    depends on the order in which Go walks the map and is not recorded.
    With no closed channel in the list every client is offered the
    message (here in the order of the names). *)
Definition broadcastToGame (h : Hub) (gameID : string) (msg : Message)
  : option (list hub_effect) :=
  let clients := (map_to_list (default ∅ (hGameClients h !! gameID))).*2 in
  if bool_decide (Exists (λ client, cSend client ∈ hClosed h) clients)
  then None
  else Some ((λ client, Offer (cSend client) msg) <$> clients).

(** How a goroutine ends: it returns, or it panics; nothing in the server
    recovers a panic of the hub's goroutines, so a panic stops the
    process. *)
Inductive ending : Set := Returned | Panicked.

(** [handleReconnectTimeout] after the sleep, on the game the goroutine
    holds and the hub as it is then.  The result is the game, what the hub
    has done, and how the goroutine ends: reading [g.Winner.Username]
    through a nil [Winner] panics, and so does the broadcast when a client
    listed for the game has a closed channel; both come after [Forfeit]
    and [handleGameEnd]. *)
Definition handleReconnectTimeout (h : Hub) (g : Game)
    (disconnectedPlayer : Z) (now : Time)
  : Game * list hub_effect * ending :=
  let state := GetState g in
  if bool_decide (sStatus state = StatusDisconnect) then
    let g := Forfeit g disconnectedPlayer now in
    match Winner g with
    | None => (g, [GameEnd g], Panicked)
    | Some w =>
        match broadcastToGame h (ID g)
                (mkMessage TypeGameOver (Username w) "forfeit") with
        | None => (g, [GameEnd g], Panicked)
        | Some offers => (g, GameEnd g :: offers, Returned)
        end
    end
  else (g, [], Returned).

(** Player [p] has four discs in a line inside the board: from
    [(row, col)], three steps of one of right, down, down-right, up-right. *)
Definition directions : list (Z * Z) := [(0, 1); (1, 0); (1, 1); (-1, 1)].

Definition has_line (b : Board) (p : Z) : Prop :=
  ∃ row col dr dc : Z, (dr, dc) ∈ directions ∧
    ∀ k : Z, 0 ≤ k < 4 →
      0 ≤ row + k * dr < Z.of_nat Rows ∧ 0 ≤ col + k * dc < Z.of_nat Columns ∧
      cell b (Z.to_nat (row + k * dr)) (Z.to_nat (col + k * dc)) = p.

(** The matchmaker after alice's timer has fired. *)
Definition mm_bot : Matchmaker :=
  (handleMatchmakingTimeout mm_alice_waiting (mkWaiting "alice" 0 1%nat)
     "game-b" 10).1.

(** A game against the bot as the server plays it: after each move of
    side 1 that leaves the game playing, side 2 moves by [MakeBotMove]. *)
Fixpoint play_vs_bot (g : Game) (columns : list Z) (now : Time)
  : option Game :=
  match columns with
  | [] => Some g
  | column :: rest =>
      let g := (MakeMove g Player1 column now).1 in
      if bool_decide (Status g = StatusPlaying) then
        '(g, _) ← MakeBotMove g now; play_vs_bot g rest now
      else Some g
  end.

(** A game the bot loses: alice plays columns 3 3 3 2 2 5 2 5 0 5 6 4 4 4,
    the moves of side 2 are the bot's own, and alice's last disc completes
    row 1 from column 2 to column 5.  The matchmaker holds that game under
    the id of alice's bot game. *)
Definition alice_beats_bot : Game :=
  play alice_vs_bot
       [(1, 3); (2, 3); (1, 3); (2, 3); (1, 3); (2, 2); (1, 2); (2, 2);
        (1, 2); (2, 3); (1, 5); (2, 6); (1, 2); (2, 5); (1, 5); (2, 2);
        (1, 0); (2, 5); (1, 5); (2, 5); (1, 6); (2, 6); (1, 4); (2, 4);
        (1, 4); (2, 4); (1, 4)] 11.

Definition mm_alice_beat_bot : Matchmaker :=
  with_game mm_bot "game-b" (λ _, alice_beats_bot).

(** The hub with bob and alice connected and bound to their game. *)
Definition bob_client : Client := mkClient "bob" 11%nat.
Definition alice_client : Client := mkClient "alice" 12%nat.

Definition hub_paired : Hub :=
  RegisterToGame
    (RegisterToGame
       (register (register (NewHub mm_paired) bob_client) alice_client)
       "game-1" bob_client)
    "game-1" alice_client.

(** ** Invariants of a running game *)

(** The log and the board agree: every move logged sits on the board, at the
    row and column logged, with the disc of the side logged. *)
Definition log_on_board (g : Game) : Prop :=
  ∀ mv, mv ∈ Moves g →
    (mPlayerNum mv = Player1 ∨ mPlayerNum mv = Player2) ∧
    0 ≤ mRow mv < Z.of_nat Rows ∧ in_range (mColumn mv) ∧
    cell (GBoard g) (Z.to_nat (mRow mv)) (Z.to_nat (mColumn mv)) = mPlayerNum mv.

(** The sides alternate in the log, side 1 first. *)
Fixpoint alternates (first : Z) (moves : list Move) : Prop :=
  match moves with
  | [] => True
  | mv :: rest => mPlayerNum mv = first ∧ alternates (other_side first) rest
  end.

(** The side to move after a log. *)
Definition side_after (moves : list Move) : Z :=
  if Nat.even (length moves) then Player1 else Player2.

(** The board and the recorded outcome agree. *)
Definition outcome_ok (g : Game) : Prop :=
  (Status g ≠ StatusFinished →
     checkWinUnsafe (GBoard g) Player1 = false ∧
     checkWinUnsafe (GBoard g) Player2 = false ∧
     isFullUnsafe (GBoard g) = false ∧
     Winner g = None ∧ Result g = None) ∧
  (Result g = Some ResultWinPlayer1 →
     checkWinUnsafe (GBoard g) Player1 = true ∧
     checkWinUnsafe (GBoard g) Player2 = false ∧ Winner g = GPlayer1 g) ∧
  (Result g = Some ResultWinPlayer2 →
     checkWinUnsafe (GBoard g) Player2 = true ∧
     checkWinUnsafe (GBoard g) Player1 = false ∧ Winner g = GPlayer2 g) ∧
  (Result g = Some ResultDraw →
     isFullUnsafe (GBoard g) = true ∧
     checkWinUnsafe (GBoard g) Player1 = false ∧
     checkWinUnsafe (GBoard g) Player2 = false ∧ Winner g = None).

(** The connection bookkeeping: while playing nobody is marked disconnected
    and both players are connected; while disconnected the player not
    marked is connected. *)
Definition connected (o : option Player) : Prop :=
  ∃ p, o = Some p ∧ IsConnected p = true.

Definition connection_ok (g : Game) : Prop :=
  (Status g = StatusPlaying →
     DisconnectedPlayer g = 0 ∧ DisconnectTime g = 0 ∧
     connected (GPlayer1 g) ∧ connected (GPlayer2 g)) ∧
  (Status g = StatusDisconnect →
     connected (if DisconnectedPlayer g =? Player1
                then GPlayer2 g else GPlayer1 g)).

(** The two players are there and carry their side's number. *)
Definition players_ok (g : Game) : Prop :=
  (∃ p, GPlayer1 g = Some p ∧ PlayerNum p = Player1) ∧
  (∃ p, GPlayer2 g = Some p ∧ PlayerNum p = Player2).

(** All of it together. *)
Definition running_inv (g : Game) : Prop :=
  wf_board (GBoard g) ∧
  players_ok g ∧
  (CurrentTurn g = Player1 ∨ CurrentTurn g = Player2) ∧
  log_on_board g ∧
  alternates Player1 (Moves g) ∧
  (Status g ≠ StatusFinished → CurrentTurn g = side_after (Moves g)) ∧
  outcome_ok g ∧
  connection_ok g ∧
  Status g ≠ StatusWaiting.

(** * Properties *)

(** ** Cells of a board *)

Section cells.
Implicit Types (b : Board) (row col : nat) (v : Z).

Lemma wf_boardb_spec b : wf_boardb b = true ↔ wf_board b.
Proof.
  unfold wf_boardb, wf_board.
  rewrite andb_true_iff, Nat.eqb_eq, forallb_forall, Forall_forall.
  split; intros [Hl Hr]; split; auto; intros r Hin.
  - apply Nat.eqb_eq, Hr. by apply list_elem_of_In.
  - apply Nat.eqb_eq, Hr. by apply list_elem_of_In.
Qed.

Lemma wf_board_lookup b row :
  wf_board b → (row < Rows)%nat → ∃ r, b !! row = Some r ∧ length r = Columns.
Proof.
  intros [Hl Hr] Hrow.
  destruct (lookup_lt_is_Some_2 b row) as [r Hlk]; [lia|].
  exists r. split; [done|].
  rewrite Forall_lookup in Hr. by eapply Hr.
Qed.

Lemma wf_set_cell b row col v : wf_board b → wf_board (set_cell b row col v).
Proof.
  intros [Hl Hr]. unfold set_cell. split.
  - by rewrite length_alter.
  - rewrite Forall_lookup in Hr. apply Forall_lookup. intros i r Hi.
    destruct (decide (i = row)) as [->|Hne].
    + rewrite list_lookup_alter_eq in Hi.
      destruct (b !! row) as [r0|] eqn:E; simplify_eq/=.
      rewrite length_insert. by eapply Hr.
    + rewrite list_lookup_alter_ne in Hi by done. by eapply Hr.
Qed.

Lemma cell_set_cell_eq b row col v :
  wf_board b → (row < Rows)%nat → (col < Columns)%nat →
  cell (set_cell b row col v) row col = v.
Proof.
  intros Hwf Hrow Hcol.
  destruct (wf_board_lookup b row Hwf Hrow) as (r & Hlk & Hlen).
  unfold cell, set_cell. rewrite list_lookup_alter_eq, Hlk. simpl.
  rewrite list_lookup_insert_eq by lia. done.
Qed.

Lemma cell_set_cell_ne b row col v row' col' :
  (row, col) ≠ (row', col') →
  cell (set_cell b row col v) row' col' = cell b row' col'.
Proof.
  intros Hne. unfold cell, set_cell.
  destruct (decide (row = row')) as [->|Hr].
  - rewrite list_lookup_alter_eq. destruct (b !! row') as [r|]; [|done]. simpl.
    rewrite list_lookup_insert_ne; [done|]. congruence.
  - by rewrite list_lookup_alter_ne.
Qed.

Lemma set_cell_set_cell b row col v w :
  set_cell (set_cell b row col v) row col w = set_cell b row col w.
Proof.
  unfold set_cell. rewrite list_alter_alter_eq.
  apply list_alter_ext; [|done]. intros r _. simpl.
  apply list_insert_insert_eq.
Qed.

Lemma set_cell_id b row col :
  wf_board b → (row < Rows)%nat → (col < Columns)%nat →
  set_cell b row col (cell b row col) = b.
Proof.
  intros Hwf Hrow Hcol.
  destruct (wf_board_lookup b row Hwf Hrow) as (r & Hlk & Hlen).
  destruct (lookup_lt_is_Some_2 r col) as [x Hx]; [lia|].
  unfold cell, set_cell. rewrite Hlk. simpl. rewrite Hx. simpl.
  apply list_eq. intros i.
  destruct (decide (i = row)) as [->|Hne].
  - rewrite list_lookup_alter_eq, Hlk. simpl. by rewrite list_insert_id.
  - by rewrite list_lookup_alter_ne.
Qed.

Lemma wf_NewBoard : wf_board NewBoard.
Proof. by apply wf_boardb_spec. Qed.

Lemma cell_NewBoard row col : cell NewBoard row col = Empty.
Proof.
  do 6 (destruct row as [|row]; [do 7 (destruct col as [|col]; [done|]); done|]).
  done.
Qed.

Lemma gravityb_spec b : gravityb b = true ↔ gravity b.
Proof.
  unfold gravityb, gravity. rewrite forallb_forall. split.
  - intros H row col Hrow Hcol Hne.
    assert (Hin : In row (seq 0 (Rows - 1))) by (apply in_seq; unfold Rows in *; lia).
    specialize (H row Hin). rewrite forallb_forall in H.
    assert (Hic : In col (seq 0 Columns)) by (apply in_seq; lia).
    specialize (H col Hic). apply orb_true_iff in H as [H|H].
    + apply Z.eqb_eq in H. done.
    + apply negb_true_iff, Z.eqb_neq in H. done.
  - intros H row Hin. apply in_seq in Hin. apply forallb_forall.
    intros col Hic. apply in_seq in Hic.
    destruct (Z.eqb_spec (cell b row col) Empty) as [|Hne]; [done|]. simpl.
    apply negb_true_iff, Z.eqb_neq, H; unfold Rows in *; first [lia|done].
Qed.

End cells.

(** ** Dropping and undoing *)

Section drop_undo.
Implicit Types (b : Board) (row col : nat) (column p : Z).

Lemma drop_loop_spec b col p n :
  match drop_loop b col p n with
  | (b', (row, None)) =>
      ∃ r : nat, (r < n)%nat ∧ row = Z.of_nat r ∧ cell b r col = Empty ∧
        b' = set_cell b r col p ∧
        ∀ r' : nat, (r < r' < n)%nat → cell b r' col ≠ Empty
  | (b', (row, Some e)) =>
      b' = b ∧ row = -1 ∧ e = ErrColumnFull ∧
      ∀ r' : nat, (r' < n)%nat → cell b r' col ≠ Empty
  end.
Proof.
  induction n as [|n IH]; simpl.
  - repeat split; intros; lia.
  - destruct (Z.eqb_spec (cell b n col) Empty) as [He|Hne].
    + exists n. repeat split; auto; intros; lia.
    + destruct (drop_loop b col p n) as [b' [row [e|]]].
      * destruct IH as (-> & -> & -> & IH). repeat split; auto.
        intros r' Hr'. destruct (decide (r' = n)) as [->|]; [done|].
        apply IH. lia.
      * destruct IH as (r & Hr & -> & He & -> & IH). exists r.
        split; [lia|]. do 3 (split; [done|]).
        intros r' Hr'. destruct (decide (r' = n)) as [->|]; [done|].
        apply IH. lia.
Qed.

Lemma undo_loop_found b col row n r :
  (row ≤ r < row + n)%nat →
  (∀ r' : nat, (row ≤ r' < r)%nat → cell b r' col = Empty) →
  cell b r col ≠ Empty →
  undo_loop b col row n = set_cell b r col Empty.
Proof.
  revert row. induction n as [|n IH]; intros row Hr Habove Hne; [lia|].
  simpl. destruct (Z.eqb_spec (cell b row col) Empty) as [He|Hne']; simpl.
  - destruct (decide (row = r)) as [->|]; [done|].
    apply IH; [lia| |done]. intros r' Hr'. apply Habove. lia.
  - destruct (decide (row = r)) as [->|Hd]; [done|].
    exfalso. apply Hne', Habove. lia.
Qed.

Lemma undo_loop_none b col row n :
  (∀ r' : nat, (row ≤ r' < row + n)%nat → cell b r' col = Empty) →
  undo_loop b col row n = b.
Proof.
  revert row. induction n as [|n IH]; intros row Hall; [done|].
  simpl. rewrite (Hall row) by lia. simpl. apply IH.
  intros r' Hr'. apply Hall. lia.
Qed.

(** What [undo_loop] does, in all cases. *)
Lemma undo_loop_spec b col n :
  (∃ r : nat, (r < n)%nat ∧ cell b r col ≠ Empty ∧
     (∀ r' : nat, (r' < r)%nat → cell b r' col = Empty) ∧
     undo_loop b col 0 n = set_cell b r col Empty)
  ∨ ((∀ r' : nat, (r' < n)%nat → cell b r' col = Empty) ∧
     undo_loop b col 0 n = b).
Proof.
  induction n as [|n IH].
  - right. split; [intros; lia|done].
  - destruct IH as [(r & Hr & Hne & Hab & Heq)|[Hall Heq]].
    + left. exists r. repeat split; auto.
      apply undo_loop_found; [lia| |done]. intros; apply Hab; lia.
    + destruct (Z.eq_dec (cell b n col) Empty) as [He|Hne].
      * right. split.
        -- intros r' Hr'. destruct (decide (r' = n)) as [->|]; [done|].
           apply Hall. lia.
        -- apply undo_loop_none. intros r' Hr'.
           destruct (decide (r' = n)) as [->|]; [done|]. apply Hall. lia.
      * left. exists n. repeat split; auto.
        apply undo_loop_found; [lia| |done]. intros; apply Hall; lia.
Qed.

(** Under gravity, every cell above an empty cell is empty. *)
Lemma gravity_above b row row' col :
  gravity b → (row' ≤ row)%nat → (row < Rows)%nat → (col < Columns)%nat →
  cell b row col = Empty → cell b row' col = Empty.
Proof.
  intros Hg Hle Hrow Hcol He.
  induction Hle as [|row Hle IH]; [done|].
  apply IH; [lia|].
  destruct (Z.eq_dec (cell b row col) Empty) as [|Hne]; [done|].
  exfalso. by apply (Hg row col).
Qed.

Lemma column_range column :
  (column <? 0) || (column >=? Z.of_nat Columns) = false ↔
  0 ≤ column < Z.of_nat Columns.
Proof. rewrite orb_false_iff, Z.ltb_ge, Z.geb_leb, Z.leb_gt. lia. Qed.

Lemma column_to_nat column :
  0 ≤ column < Z.of_nat Columns → (Z.to_nat column < Columns)%nat.
Proof. lia. Qed.

(** On a well-formed board obeying gravity, undoing a successful drop of a
    disc gives back the board. *)
Lemma undo_drop_loop b col p b' (row : Z) :
  wf_board b → gravity b → p ≠ Empty → (col < Columns)%nat →
  drop_loop b col p Rows = (b', (row, None)) →
  undo_loop b' col 0 Rows = b.
Proof.
  intros Hwf Hg Hp Hcol Hdrop.
  pose proof (drop_loop_spec b col p Rows) as Hs. rewrite Hdrop in Hs.
  destruct Hs as (r & Hr & -> & He & -> & Hbelow).
  rewrite (undo_loop_found _ col 0 Rows r).
  - rewrite set_cell_set_cell. rewrite <- He. by apply set_cell_id.
  - lia.
  - intros r' Hr'. rewrite cell_set_cell_ne by (intros [=]; lia).
    apply (gravity_above b r r' col); auto; lia.
  - by rewrite cell_set_cell_eq.
Qed.

Lemma UndoMove_DropDiscUnsafe b column p b' (row : Z) :
  wf_board b → gravity b → p ≠ Empty →
  DropDiscUnsafe b column p = (b', (row, None)) →
  UndoMove b' column = Some b.
Proof.
  intros Hwf Hg Hp. unfold DropDiscUnsafe, UndoMove.
  destruct ((column <? 0) || (column >=? Z.of_nat Columns)) eqn:Hc; [done|].
  intros Hdrop. f_equal. apply column_range, column_to_nat in Hc.
  by eapply undo_drop_loop.
Qed.

Lemma DropDisc_unsafe b column p :
  p = Player1 ∨ p = Player2 → DropDisc b column p = DropDiscUnsafe b column p.
Proof.
  intros Hp. unfold DropDisc, DropDiscUnsafe.
  destruct ((column <? 0) || (column >=? Z.of_nat Columns)); [done|].
  destruct Hp as [-> | ->]; done.
Qed.

Lemma DropDisc_ok_player b column p b' (row : Z) :
  DropDisc b column p = (b', (row, None)) → p = Player1 ∨ p = Player2.
Proof.
  unfold DropDisc.
  destruct ((column <? 0) || (column >=? Z.of_nat Columns)); [done|].
  destruct (Z.eqb_spec p Player1) as [|H1]; [auto|].
  destruct (Z.eqb_spec p Player2) as [|H2]; [auto|]. done.
Qed.

(** Well-formedness is kept by both operations. *)
Lemma wf_drop_loop b col p n : wf_board b → wf_board (drop_loop b col p n).1.
Proof.
  intros Hwf. pose proof (drop_loop_spec b col p n) as Hs.
  destruct (drop_loop b col p n) as [b' [row [e|]]]; simpl.
  - by destruct Hs as (-> & _).
  - destruct Hs as (r & _ & _ & _ & -> & _). by apply wf_set_cell.
Qed.

Lemma wf_DropDiscUnsafe b column p :
  wf_board b → wf_board (DropDiscUnsafe b column p).1.
Proof.
  intros Hwf. unfold DropDiscUnsafe.
  destruct ((column <? 0) || (column >=? Z.of_nat Columns)); [done|].
  by apply wf_drop_loop.
Qed.

Lemma wf_DropDisc b column p : wf_board b → wf_board (DropDisc b column p).1.
Proof.
  intros Hwf. unfold DropDisc.
  destruct ((column <? 0) || (column >=? Z.of_nat Columns)); [done|].
  destruct (negb (p =? Player1) && negb (p =? Player2)); [done|].
  by apply wf_drop_loop.
Qed.

Lemma wf_UndoMove b column b' :
  wf_board b → UndoMove b column = Some b' → wf_board b'.
Proof.
  intros Hwf. unfold UndoMove.
  destruct ((column <? 0) || (column >=? Z.of_nat Columns)); [done|].
  intros Heq. apply (inj Some) in Heq. subst b'.
  destruct (undo_loop_spec b (Z.to_nat column) Rows)
    as [(r & _ & _ & _ & ->)|[_ ->]]; [by apply wf_set_cell|done].
Qed.

(** Gravity is kept by both operations. *)
Lemma gravity_drop_loop b col p :
  wf_board b → gravity b → (col < Columns)%nat →
  gravity (drop_loop b col p Rows).1.
Proof.
  intros Hwf Hg Hcol. pose proof (drop_loop_spec b col p Rows) as Hs.
  destruct (drop_loop b col p Rows) as [b' [row [e|]]]; simpl.
  - by destruct Hs as (-> & _).
  - destruct Hs as (r & Hr & _ & He & -> & Hbelow).
    destruct (Z.eq_dec p Empty) as [->|Hp].
    { rewrite <- He. rewrite set_cell_id; auto; lia. }
    intros row' col' Hrow' Hcol' Hne.
    destruct (decide ((r, col) = (S row', col'))) as [[= -> ->]|Hd1].
    { rewrite cell_set_cell_eq; auto. }
    rewrite cell_set_cell_ne by done.
    destruct (decide ((r, col) = (row', col'))) as [[= -> ->]|Hd2].
    { apply Hbelow. lia. }
    rewrite cell_set_cell_ne in Hne by done. by apply Hg.
Qed.

Lemma gravity_DropDiscUnsafe b column p :
  wf_board b → gravity b → gravity (DropDiscUnsafe b column p).1.
Proof.
  intros Hwf Hg. unfold DropDiscUnsafe.
  destruct ((column <? 0) || (column >=? Z.of_nat Columns)) eqn:Hc; [done|].
  apply column_range, column_to_nat in Hc. by apply gravity_drop_loop.
Qed.

Lemma gravity_DropDisc b column p :
  wf_board b → gravity b → gravity (DropDisc b column p).1.
Proof.
  intros Hwf Hg. unfold DropDisc.
  destruct ((column <? 0) || (column >=? Z.of_nat Columns)) eqn:Hc; [done|].
  destruct (negb (p =? Player1) && negb (p =? Player2)); [done|].
  apply column_range, column_to_nat in Hc. by apply gravity_drop_loop.
Qed.

Lemma gravity_UndoMove b column b' :
  wf_board b → gravity b → UndoMove b column = Some b' → gravity b'.
Proof.
  intros Hwf Hg. unfold UndoMove.
  destruct ((column <? 0) || (column >=? Z.of_nat Columns)) eqn:Hc; [done|].
  apply column_range, column_to_nat in Hc.
  intros Heq. apply (inj Some) in Heq. subst b'.
  destruct (undo_loop_spec b (Z.to_nat column) Rows)
    as [(r & Hr & Hne & Habove & ->)|[_ ->]]; [|done].
  intros row col Hrow Hcol Hocc.
  destruct (decide ((r, Z.to_nat column) = (row, col))) as [[= <- <-]|Hd1].
  { by rewrite cell_set_cell_eq in Hocc. }
  rewrite cell_set_cell_ne in Hocc by done.
  destruct (decide ((r, Z.to_nat column) = (S row, col))) as [[= -> <-]|Hd2].
  { exfalso. apply Hocc, Habove. lia. }
  rewrite cell_set_cell_ne by done. by apply Hg.
Qed.

Lemma gravity_NewBoard : gravity NewBoard.
Proof. intros row col _ _ H. by rewrite cell_NewBoard in H. Qed.

Lemma run_ops_inv b ops b' :
  wf_board b → gravity b → run_ops b ops = Some b' →
  wf_board b' ∧ gravity b'.
Proof.
  revert b. induction ops as [|op ops IH]; intros b Hwf Hg; simpl.
  - by intros [= <-].
  - destruct (apply_op b op) as [b1|] eqn:Hop; [|done]. simpl.
    apply IH.
    + destruct op as [column p|column p|column]; simpl in Hop.
      * apply (inj Some) in Hop. subst b1. by apply wf_DropDisc.
      * apply (inj Some) in Hop. subst b1. by apply wf_DropDiscUnsafe.
      * by eapply wf_UndoMove.
    + destruct op as [column p|column p|column]; simpl in Hop.
      * apply (inj Some) in Hop. subst b1. by apply gravity_DropDisc.
      * apply (inj Some) in Hop. subst b1. by apply gravity_DropDiscUnsafe.
      * by eapply gravity_UndoMove.
Qed.

End drop_undo.

(** ** The board claims *)

(** C5.  On every board (the 6 x 7 array, obeying the gravity invariant of
    the data model) and for every column and every side, if dropping a disc
    succeeds, whether through [DropDisc] or through [DropDiscUnsafe], then
    [UndoMove] on the same column runs without panic and gives back exactly
    the prior board. *)
Theorem C5_drop_then_undo_restores (b : Board) (column side : Z) :
  wf_board b → gravity b → side = Player1 ∨ side = Player2 →
  (∀ b' row, DropDisc b column side = (b', (row, None)) →
     UndoMove b' column = Some b) ∧
  (∀ b' row, DropDiscUnsafe b column side = (b', (row, None)) →
     UndoMove b' column = Some b).
Proof.
  intros Hwf Hg Hside.
  assert (Hne : side ≠ Empty) by (destruct Hside as [-> | ->]; done).
  split; intros b' row Hdrop.
  - rewrite DropDisc_unsafe in Hdrop by done.
    by eapply UndoMove_DropDiscUnsafe.
  - by eapply UndoMove_DropDiscUnsafe.
Qed.

(** C8.  Gravity holds on the empty board and on every board reached from it
    by any sequence of [DropDisc] and [UndoMove] calls (and of the engine's
    [DropDiscUnsafe]): on such a board every cell below an occupied cell of
    the same column is occupied; and each of [DropDisc] and [UndoMove] keeps
    gravity on a 6 x 7 board. *)
Theorem C8_gravity_invariant :
  gravity NewBoard ∧
  (∀ ops b, run_ops NewBoard ops = Some b →
     gravity b ∧
     ∀ row row' col : nat, (row < row' < Rows)%nat → (col < Columns)%nat →
       cell b row col ≠ Empty → cell b row' col ≠ Empty) ∧
  (∀ b column p, wf_board b → gravity b → gravity (DropDisc b column p).1) ∧
  (∀ b column b', wf_board b → gravity b → UndoMove b column = Some b' →
     gravity b').
Proof.
  split; [apply gravity_NewBoard|]. split; [|split].
  - intros ops b Hrun.
    destruct (run_ops_inv NewBoard ops b wf_NewBoard gravity_NewBoard Hrun)
      as [_ Hg].
    split; [done|]. intros row row' col Hrow Hcol Hocc He.
    apply Hocc. apply (gravity_above b row' row col); auto; lia.
  - intros. by apply gravity_DropDisc.
  - intros. by eapply gravity_UndoMove.
Qed.

(** C10.  For every board, every column and every player value other than
    [Player1] and [Player2], [DropDisc] returns an error and the board is
    unchanged. *)
Theorem C10_DropDisc_invalid_player (b : Board) (column p : Z) :
  p ≠ Player1 → p ≠ Player2 →
  DropDisc b column p =
    (b, (-1, Some (if (column <? 0) || (column >=? Z.of_nat Columns)
                   then ErrInvalidColumn else ErrInvalidPlayer))).
Proof.
  intros H1 H2. unfold DropDisc.
  destruct ((column <? 0) || (column >=? Z.of_nat Columns)); [done|].
  destruct (Z.eqb_spec p Player1) as [|_]; [done|].
  by destruct (Z.eqb_spec p Player2) as [|_].
Qed.

(** ** The search engine *)

Section bot.
Implicit Types (b board : Board) (bot : Bot) (col column who : Z)
  (cols : list Z).

Lemma valid_column_iff b column :
  column ∈ getValidColumnsUnsafe b ↔
  in_range column ∧ cell b 0 (Z.to_nat column) = Empty.
Proof.
  unfold getValidColumnsUnsafe, in_range. rewrite list_elem_of_fmap. split.
  - intros (n & -> & Hn). apply list_elem_of_filter in Hn as [He Hn].
    apply list_elem_of_In, in_seq in Hn. rewrite Nat2Z.id. split; [lia|done].
  - intros [Hr He]. exists (Z.to_nat column). split; [lia|].
    apply list_elem_of_filter. split; [done|].
    apply list_elem_of_In, in_seq. lia.
Qed.

Lemma valid_columns_in_range b :
  Forall in_range (getValidColumnsUnsafe b).
Proof. apply Forall_forall. intros c Hc. by apply valid_column_iff in Hc as [Hc _]. Qed.

Lemma isFull_no_valid_column b :
  isFullUnsafe b = true ↔ getValidColumnsUnsafe b = [].
Proof.
  unfold isFullUnsafe. rewrite forallb_forall. split.
  - intros H. destruct (getValidColumnsUnsafe b) as [|c l] eqn:E; [done|].
    assert (Hc : c ∈ getValidColumnsUnsafe b) by (rewrite E; left).
    apply valid_column_iff in Hc as [Hr He]. unfold in_range in Hr.
    specialize (H (Z.to_nat c)). rewrite He in H.
    discriminate H. apply in_seq. lia.
  - intros Hnil n Hn. apply in_seq in Hn.
    destruct (Z.eqb_spec (cell b 0 n) Empty) as [He|]; [|done].
    assert (Hc : Z.of_nat n ∈ getValidColumnsUnsafe b).
    { apply valid_column_iff. rewrite Nat2Z.id. unfold in_range. split; [lia|done]. }
    rewrite Hnil in Hc. by apply not_elem_of_nil in Hc.
Qed.

Lemma UndoMove_in_range b column :
  in_range column → is_Some (UndoMove b column).
Proof.
  intros Hr. unfold UndoMove. apply column_range in Hr. by rewrite Hr.
Qed.

(** The search never panics: every column it undoes is a valid column. *)
Lemma max_loop_total rec bot beta cols board maxScore alpha :
  (∀ a bd, is_Some (rec a bd)) → Forall in_range cols →
  is_Some (max_loop rec bot beta cols board maxScore alpha).
Proof.
  intros Hrec Hcols. revert board maxScore alpha.
  induction Hcols as [|col cols Hc _ IH]; intros board maxScore alpha; simpl.
  - done.
  - destruct (Hrec alpha (DropDiscUnsafe board col (player bot)).1)
      as [[bd score] ->]. simpl.
    destruct (UndoMove_in_range bd col Hc) as [bd' ->]. simpl.
    destruct (beta <=? Z.max alpha score); [done|apply IH].
Qed.

Lemma min_loop_total rec bot alpha cols board minScore beta :
  (∀ a bd, is_Some (rec a bd)) → Forall in_range cols →
  is_Some (min_loop rec bot alpha cols board minScore beta).
Proof.
  intros Hrec Hcols. revert board minScore beta.
  induction Hcols as [|col cols Hc _ IH]; intros board minScore beta; simpl.
  - done.
  - destruct (Hrec beta (DropDiscUnsafe board col (opponent bot)).1)
      as [[bd score] ->]. simpl.
    destruct (UndoMove_in_range bd col Hc) as [bd' ->]. simpl.
    destruct (Z.min beta score <=? alpha); [done|apply IH].
Qed.

Lemma minimax_total bot depth alpha beta isMaximizing board :
  is_Some (minimax bot depth alpha beta isMaximizing board).
Proof.
  revert alpha beta isMaximizing board.
  induction depth as [|depth IH]; intros alpha beta isMaximizing board; simpl.
  - destruct (checkWinUnsafe board (player bot)); [done|].
    destruct (checkWinUnsafe board (opponent bot)); [done|].
    by destruct (isFullUnsafe board).
  - destruct (checkWinUnsafe board (player bot)); [done|].
    destruct (checkWinUnsafe board (opponent bot)); [done|].
    destruct (isFullUnsafe board); [done|]. simpl.
    destruct (length (getValidColumnsUnsafe board) =? 0)%nat; [done|].
    destruct isMaximizing.
    + apply max_loop_total; [intros; apply IH|apply valid_columns_in_range].
    + apply min_loop_total; [intros; apply IH|apply valid_columns_in_range].
Qed.

(** A column returned from one of the first two loops is one of the columns
    tried. *)
Lemma try_columns_total b who cols :
  Forall in_range cols →
  ∃ b' found, try_columns b who cols = Some (b', found) ∧
              ∀ col, found = Some col → col ∈ cols.
Proof.
  intros Hcols. revert b.
  induction Hcols as [|c cols Hc _ IH]; intros b; simpl.
  - by exists b, None.
  - destruct (UndoMove_in_range (DropDiscUnsafe b c who).1 c Hc) as [b1 ->].
    destruct (checkWinUnsafe (DropDiscUnsafe b c who).1 who); simpl.
    + exists b1, (Some c). split; [done|]. intros col [= <-]. left.
    + destruct (IH b1) as (b' & found & -> & Hin).
      exists b', found. split; [done|]. intros col Hf. right. by apply Hin.
Qed.

Lemma search_loop_total bot b cols bestScore bestCol :
  Forall in_range cols →
  ∃ col, search_loop bot b cols bestScore bestCol = Some col ∧
         (col = bestCol ∨ col ∈ cols).
Proof.
  intros Hcols. revert b bestScore bestCol.
  induction Hcols as [|c cols Hc _ IH]; intros b bestScore bestCol; simpl.
  - exists bestCol. auto.
  - destruct (minimax_total bot (maxDepth bot - 1) MinInt32 MaxInt32 false
                (DropDiscUnsafe b c (player bot)).1) as [[b1 score] ->]. simpl.
    destruct (UndoMove_in_range b1 c Hc) as [b2 ->]. simpl.
    destruct (score >? bestScore).
    + destruct (IH b2 score c) as (col & -> & Hcol).
      exists col. split; [done|]. right.
      destruct Hcol as [->|Hin]; [left|by right].
    + destruct (IH b2 bestScore bestCol) as (col & -> & Hcol).
      exists col. split; [done|].
      destruct Hcol as [->|Hin]; [by left|right; by right].
Qed.

Lemma orderCols_valid cols col : col ∈ orderCols cols → col ∈ cols.
Proof.
  unfold orderCols. intros Hin. apply list_elem_of_filter in Hin as [Hex _].
  apply existsb_exists in Hex as (x & Hx & Heq).
  apply Z.eqb_eq in Heq. subst x. by apply list_elem_of_In.
Qed.

Lemma GetBestMove_valid bot b :
  getValidColumnsUnsafe b ≠ [] →
  ∃ col, GetBestMove bot b = Some col ∧ col ∈ getValidColumnsUnsafe b.
Proof.
  intros Hne. unfold GetBestMove, Clone.
  pose proof (valid_columns_in_range b) as Hr.
  destruct (try_columns_total b (player bot) _ Hr) as (b1 & f1 & -> & H1).
  simpl. destruct f1 as [c1|]; [exists c1; auto|].
  destruct (try_columns_total b1 (opponent bot) _ Hr) as (b2 & f2 & -> & H2).
  simpl. destruct f2 as [c2|]; [exists c2; auto|].
  destruct (getValidColumnsUnsafe b) as [|c0 rest] eqn:Ev; [done|]. simpl.
  assert (Hord : Forall in_range (orderCols (c0 :: rest))).
  { apply Forall_forall. intros c Hc. apply orderCols_valid in Hc.
    rewrite Forall_forall in Hr. by apply Hr. }
  destruct (search_loop_total bot b2 _ MinInt32 c0 Hord) as (col & -> & Hcol).
  exists col. split; [done|].
  destruct Hcol as [->|Hin]; [left|by apply orderCols_valid].
Qed.

Lemma GetBestMove_full bot b :
  getValidColumnsUnsafe b = [] → GetBestMove bot b = None.
Proof. intros Hnil. unfold GetBestMove, Clone. by rewrite Hnil. Qed.

(** Dropping into a valid column succeeds. *)
Lemma DropDiscUnsafe_valid b column who :
  column ∈ getValidColumnsUnsafe b →
  ∃ b' row, DropDiscUnsafe b column who = (b', (row, None)).
Proof.
  intros Hv. apply valid_column_iff in Hv as [Hr He].
  unfold DropDiscUnsafe. rewrite (proj2 (column_range column) Hr).
  pose proof (drop_loop_spec b (Z.to_nat column) who Rows) as Hs.
  destruct (drop_loop b (Z.to_nat column) who Rows) as [b' [row [e|]]].
  - destruct Hs as (_ & _ & _ & Hfull). exfalso.
    apply (Hfull 0%nat); [unfold Rows; lia|done].
  - by exists b', row.
Qed.

(** On a board obeying gravity, the speculative drop and undo of every
    iteration leave the board as it was, so the loop returns the first
    column whose drop wins. *)
Lemma try_columns_spec b who cols :
  wf_board b → gravity b → who ≠ Empty →
  (∀ col, col ∈ cols → col ∈ getValidColumnsUnsafe b) →
  ∃ found, try_columns b who cols = Some (b, found) ∧
    match found with
    | Some col =>
        col ∈ cols ∧ checkWinUnsafe (DropDiscUnsafe b col who).1 who = true
    | None =>
        ∀ col, col ∈ cols →
          checkWinUnsafe (DropDiscUnsafe b col who).1 who = false
    end.
Proof.
  intros Hwf Hg Hwho. induction cols as [|c cols IH]; intros Hv; simpl.
  - exists None. split; [done|]. intros col Hin. by apply not_elem_of_nil in Hin.
  - assert (Hc : c ∈ getValidColumnsUnsafe b) by (apply Hv; left).
    destruct (DropDiscUnsafe_valid b c who Hc) as (b1 & row & Hdrop).
    rewrite Hdrop. simpl.
    rewrite (UndoMove_DropDiscUnsafe b c who b1 row Hwf Hg Hwho Hdrop). simpl.
    destruct (checkWinUnsafe b1 who) eqn:Hwin.
    + exists (Some c). split; [done|]. split; [left|]. by rewrite Hdrop.
    + destruct IH as (found & -> & Hfound).
      { intros col Hin. apply Hv. by right. }
      exists found. split; [done|]. destruct found as [col|].
      * destruct Hfound as [Hin Hw]. split; [by right|done].
      * intros col Hin. apply elem_of_cons in Hin as [->|Hin].
        -- by rewrite Hdrop.
        -- by apply Hfound.
Qed.

End bot.

(** ** The search-engine claims *)

(** C6.  On every board (6 x 7, obeying gravity) and for every engine whose
    two sides are discs: if some column is immediately winning for the
    engine's side, [GetBestMove] returns a column that is immediately
    winning for it; and if no column is immediately winning for the engine
    but some column is immediately winning for the opponent, [GetBestMove]
    returns a column that is immediately winning for the opponent, that is,
    a blocking column. *)
Theorem C6_GetBestMove_wins_or_blocks (bot : Bot) (b : Board) :
  wf_board b → gravity b → player bot ≠ Empty → opponent bot ≠ Empty →
  ((∃ col, wins_at b (player bot) col) →
   ∃ col, GetBestMove bot b = Some col ∧ wins_at b (player bot) col) ∧
  ((∀ col, ¬ wins_at b (player bot) col) →
   (∃ col, wins_at b (opponent bot) col) →
   ∃ col, GetBestMove bot b = Some col ∧ wins_at b (opponent bot) col).
Proof.
  intros Hwf Hg Hp Ho. unfold GetBestMove, Clone.
  destruct (try_columns_spec b (player bot) (getValidColumnsUnsafe b)
              Hwf Hg Hp (λ _ H, H)) as (f1 & E1 & H1).
  destruct (try_columns_spec b (opponent bot) (getValidColumnsUnsafe b)
              Hwf Hg Ho (λ _ H, H)) as (f2 & E2 & H2).
  rewrite E1. simpl. split.
  - intros (c & Hv & Hw). destruct f1 as [c1|].
    + exists c1. split; [done|]. by destruct H1.
    + rewrite (H1 c Hv) in Hw. done.
  - intros Hnone (c & Hv & Hw). destruct f1 as [c1|].
    { exfalso. apply (Hnone c1). by destruct H1. }
    rewrite E2. simpl. destruct f2 as [c2|].
    + exists c2. split; [done|]. by destruct H2.
    + rewrite (H2 c Hv) in Hw. done.
Qed.

(** C9.  For every board with at least one column whose top cell is empty,
    [GetBestMove] returns (without panic) a member of [GetValidColumns],
    that is, a column inside the board whose top cell is empty; and on a
    board with no such column it panics, at the read of [validCols[0]]. *)
Theorem C9_GetBestMove_returns_valid_column (bot : Bot) (b : Board) :
  (isFullUnsafe b = false →
   ∃ col, GetBestMove bot b = Some col ∧ col ∈ GetValidColumns b ∧
          in_range col ∧ cell b 0 (Z.to_nat col) = Empty) ∧
  (isFullUnsafe b = true → GetBestMove bot b = None).
Proof.
  split.
  - intros Hfull.
    destruct (GetBestMove_valid bot b) as (col & Hcol & Hin).
    { intros Hnil. apply isFull_no_valid_column in Hnil. congruence. }
    exists col. split; [done|]. split; [done|]. by apply valid_column_iff.
  - intros Hfull. by apply GetBestMove_full, isFull_no_valid_column.
Qed.

(** ** The match state machine *)

Section game.
Implicit Types (g : Game) (side playerNum column : Z) (now : Time).

Lemma set_Board_id g : set_Board g (GBoard g) = g.
Proof. by destruct g. Qed.

Lemma MakeMove_not_playing g playerNum column now :
  Status g ≠ StatusPlaying →
  MakeMove g playerNum column now = (g, (-1, Some ErrGameNotInProgress)).
Proof.
  intros Hs. unfold MakeMove. by rewrite bool_decide_eq_false_2.
Qed.

Lemma MakeMove_not_your_turn g playerNum column now :
  Status g = StatusPlaying → CurrentTurn g ≠ playerNum →
  MakeMove g playerNum column now = (g, (-1, Some ErrNotYourTurn)).
Proof.
  intros Hs Ht. unfold MakeMove. rewrite bool_decide_eq_true_2 by done. simpl.
  by rewrite (proj2 (Z.eqb_neq _ _) Ht).
Qed.

(** Every case of [MakeMove], by the tests it makes. *)
Lemma MakeMove_cases g playerNum column now :
  Status g = StatusPlaying → CurrentTurn g = playerNum →
  let board := (DropDisc (GBoard g) column playerNum).1 in
  let row := (DropDisc (GBoard g) column playerNum).2.1 in
  let g1 := set_Moves (set_Board g board)
              (Moves g ++ [mkMove playerNum column row now]) in
  MakeMove g playerNum column now =
    match (DropDisc (GBoard g) column playerNum).2.2 with
    | Some e => (set_Board g board, (-1, Some e))
    | None =>
        if CheckWin board playerNum then
          (set_Result
             (set_Winner (set_EndTime (set_Status g1 StatusFinished) now)
                (player_of g playerNum))
             (Some (if playerNum =? Player1 then ResultWinPlayer1
                    else ResultWinPlayer2)),
           (row, None))
        else if IsFull board then
          (set_Result (set_EndTime (set_Status g1 StatusFinished) now)
             (Some ResultDraw), (row, None))
        else (set_CurrentTurn g1 (other_side playerNum), (row, None))
    end.
Proof.
  intros Hs <-. unfold MakeMove, player_of, other_side.
  rewrite bool_decide_eq_true_2 by done. simpl.
  rewrite Z.eqb_refl. simpl.
  destruct (DropDisc (GBoard g) column (CurrentTurn g)) as [board [row [e|]]];
    simpl; [done|].
  destruct (CheckWin board (CurrentTurn g)).
  - by destruct (CurrentTurn g =? Player1).
  - destruct (IsFull board); [done|]. by destruct (CurrentTurn g =? Player1).
Qed.

Lemma DropDisc_err_board (b : Board) column p row e b' :
  DropDisc b column p = (b', (row, Some e)) → b' = b.
Proof.
  unfold DropDisc.
  destruct ((column <? 0) || (column >=? Z.of_nat Columns)); [by intros [= <-]|].
  destruct (negb (p =? Player1) && negb (p =? Player2)); [by intros [= <-]|].
  intros Hd. pose proof (drop_loop_spec b (Z.to_nat column) p Rows) as Hsp.
  rewrite Hd in Hsp. by destruct Hsp as (-> & _).
Qed.

Local Ltac inv_split := split; [|split; [|split; [|split]]].

(** A rejected move of any kind (not playing, out of turn, invalid or full
    column, invalid side) leaves the match as it is. *)
Lemma MakeMove_error_unchanged g playerNum column now g' row e :
  MakeMove g playerNum column now = (g', (row, Some e)) → g' = g ∧ row = -1.
Proof.
  destruct (decide (Status g = StatusPlaying)) as [Hs|Hs];
    [|rewrite MakeMove_not_playing by done; by intros [= <- <-]].
  destruct (decide (CurrentTurn g = playerNum)) as [Ht|Ht];
    [|rewrite MakeMove_not_your_turn by done; by intros [= <- <-]].
  rewrite MakeMove_cases by done.
  destruct (DropDisc (GBoard g) column playerNum) as [board [r [e'|]]] eqn:Hd;
    simpl.
  - apply DropDisc_err_board in Hd as ->. rewrite set_Board_id.
    by intros [= <- <-].
  - destruct (CheckWin board playerNum); [done|]. by destruct (IsFull board).
Qed.

Lemma game_inv_start id now u1 u2 isBot :
  game_inv (AddPlayer2 (NewGame id now u1) u2 isBot).
Proof.
  destruct isBot; inv_split; simpl; try done;
    first [apply wf_NewBoard | apply gravity_NewBoard].
Qed.

Lemma game_inv_MakeMove g playerNum column now :
  game_inv g → game_inv (MakeMove g playerNum column now).1.
Proof.
  intros (H1 & H2 & Hwf & Hg & Hw).
  destruct (decide (Status g = StatusPlaying)) as [Hs|Hs];
    [|rewrite MakeMove_not_playing by done; by inv_split].
  destruct (decide (CurrentTurn g = playerNum)) as [Ht|Ht];
    [|rewrite MakeMove_not_your_turn by done; by inv_split].
  rewrite MakeMove_cases by done.
  pose proof (wf_DropDisc (GBoard g) column playerNum Hwf) as Hwf'.
  pose proof (gravity_DropDisc (GBoard g) column playerNum Hwf Hg) as Hg'.
  assert (Hn : Status g ≠ StatusFinished) by (rewrite Hs; done).
  destruct ((DropDisc (GBoard g) column playerNum).2.2); simpl.
  { inv_split; simpl; auto. }
  destruct (CheckWin _ _); simpl; [by inv_split|].
  destruct (IsFull _); simpl; [by inv_split|].
  inv_split; simpl; auto.
Qed.

Lemma game_inv_PlayerDisconnected g playerNum now g' :
  game_inv g → PlayerDisconnected g playerNum now = Some g' → game_inv g'.
Proof.
  intros (H1 & H2 & Hwf & Hg & Hw). unfold PlayerDisconnected.
  destruct (decide (Status g = StatusPlaying)) as [Hs|Hs].
  - rewrite bool_decide_eq_true_2 by done. simpl.
    assert (Hn : Status g ≠ StatusFinished) by (rewrite Hs; done).
    destruct (playerNum =? Player1); simpl.
    + destruct (GPlayer1 g); [|done]. simpl. intros [= <-].
      inv_split; simpl; auto.
    + destruct (GPlayer2 g); [|done]. simpl. intros [= <-].
      inv_split; simpl; auto.
  - rewrite bool_decide_eq_false_2 by done. simpl. intros [= <-].
    by inv_split.
Qed.

Lemma game_inv_PlayerReconnected g playerNum now g' r :
  game_inv g → PlayerReconnected g playerNum now = Some (g', r) → game_inv g'.
Proof.
  intros (H1 & H2 & Hwf & Hg & Hw). unfold PlayerReconnected.
  destruct (negb (bool_decide (Status g = StatusDisconnect))
            || negb (DisconnectedPlayer g =? playerNum)) eqn:Hc.
  { intros [= <- <-]. by inv_split. }
  apply orb_false_iff in Hc as [Hs _].
  apply negb_false_iff, bool_decide_eq_true_1 in Hs.
  assert (Hn : Status g ≠ StatusFinished) by (rewrite Hs; done).
  destruct (now - DisconnectTime g >? 30 * Second).
  { intros [= <- <-]. by inv_split. }
  destruct (playerNum =? Player1); simpl.
  - destruct (GPlayer1 g); [|done]. simpl. intros [= <- <-].
    inv_split; simpl; auto.
  - destruct (GPlayer2 g); [|done]. simpl. intros [= <- <-].
    inv_split; simpl; auto.
Qed.

Lemma game_inv_Forfeit g loser now : game_inv g → game_inv (Forfeit g loser now).
Proof.
  intros (H1 & H2 & Hwf & Hg & Hw). unfold Forfeit.
  destruct (loser =? Player1); by inv_split.
Qed.

(** The invariant holds of every game the server runs. *)
Lemma reachable_inv g : reachable g → game_inv g.
Proof.
  induction 1.
  - apply game_inv_start.
  - by apply game_inv_MakeMove.
  - by eapply game_inv_PlayerDisconnected.
  - by eapply game_inv_PlayerReconnected.
  - by apply game_inv_Forfeit.
Qed.

End game.

(** ** The match claims *)

(** [Forfeit] has no guard: in every status, [StatusFinished] included, it
    sets the status to finished, the result to forfeit and the winner to
    the player of the side opposite to the loser; and a second call with
    the same losing side leaves status, result and winner as the first call
    set them. *)
Lemma Forfeit_sets_outcome (g : Game) (loser : Z) (now now' : Time) :
  let g' := Forfeit g loser now in
  let g'' := Forfeit g' loser now' in
  Status g' = StatusFinished ∧
  Result g' = Some ResultForfeit ∧
  Winner g' = player_of g (other_side loser) ∧
  Status g'' = Status g' ∧ Result g'' = Result g' ∧ Winner g'' = Winner g'.
Proof.
  unfold Forfeit, player_of, other_side.
  destruct (loser =? Player1); simpl; by repeat split.
Qed.

(** On a game between humans that alice (side 1) has won with four in a
    row, a call of [Forfeit] for side 1 is no no-op: it replaces the result
    by forfeit and the winner by bob. *)
Lemma Forfeit_overwrites_finished_match :
  let g := alice_has_won in
  let g' := Forfeit g Player1 9 in
  Status g = StatusFinished ∧
  Result g = Some ResultWinPlayer1 ∧
  (Username <$> Winner g) = Some "alice"%string ∧
  Result g' = Some ResultForfeit ∧
  (Username <$> Winner g') = Some "bob"%string ∧
  ¬ (Status g' = Status g ∧ Result g' = Result g ∧ Winner g' = Winner g).
Proof.
  do 5 (split; [by vm_compute|]).
  intros (_ & Hr & _). vm_compute in Hr. discriminate Hr.
Qed.

(** The moves of side 2 in [alice_beats_bot] are the ones the bot makes. *)
Lemma alice_beats_bot_played :
  play_vs_bot alice_vs_bot [3; 3; 3; 2; 2; 5; 2; 5; 0; 5; 6; 4; 4; 4] 11
  = Some alice_beats_bot.
Proof. vm_compute. reflexivity. Qed.

(** C1, at the input where the code departs from it.  alice has beaten the
    bot with four in a row: the game is finished with result player1_win
    and winner alice, and it is still registered.  alice's connection ends
    and [handleDisconnect] calls [Forfeit] for side 1 on the finished game:
    the call is no no-op, the registered game now has result forfeit and
    winner BOT, and it is that record the end of the game is handled
    with. *)
Theorem C1_Forfeit_replaces_recorded_win :
  let g := alice_beats_bot in
  let g' := Forfeit g Player1 12 in
  play_vs_bot alice_vs_bot [3; 3; 3; 2; 2; 5; 2; 5; 0; 5; 6; 4; 4; 4] 11
  = Some g ∧
  Status g = StatusFinished ∧ Result g = Some ResultWinPlayer1 ∧
  (Username <$> Winner g) = Some "alice"%string ∧
  GetGame mm_alice_beat_bot "game-b" = Some g ∧
  (∃ m', handleDisconnect mm_alice_beat_bot "alice" "game-b" 12
         = Some (m', [GameEnd g']) ∧
         GetGame m' "game-b" = Some g') ∧
  Status g' = StatusFinished ∧ Result g' = Some ResultForfeit ∧
  (Username <$> Winner g') = Some "BOT"%string ∧
  ¬ (Result g' = Result g ∧ Winner g' = Winner g).
Proof.
  cbn zeta. split; [exact alice_beats_bot_played|].
  do 4 (split; [by vm_compute|]).
  split.
  { eexists. split; [vm_compute; reflexivity|by vm_compute]. }
  do 3 (split; [by vm_compute|]).
  intros [Hr _]. vm_compute in Hr. discriminate Hr.
Qed.

(** C2.  [MakeMove] succeeds only in a match that is playing and for the
    side holding the turn; in such a match, with no winner recorded, a
    successful [MakeMove] drops the disc, appends exactly one move, and
    then: if the new board has four in a row for the side, the match is
    finished and the winner is that side's player (the result names the
    side); otherwise, if the new board is full, the match is finished with
    result draw and no winner; otherwise the match goes on and the turn
    passes to the other side. *)
Theorem C2_MakeMove_success (g g' : Game) (side column row : Z) (now : Time) :
  Winner g = None →
  MakeMove g side column now = (g', (row, None)) →
  Status g = StatusPlaying ∧ CurrentTurn g = side ∧
  (side = Player1 ∨ side = Player2) ∧
  DropDisc (GBoard g) column side = (GBoard g', (row, None)) ∧
  Moves g' = Moves g ++ [mkMove side column row now] ∧
  if CheckWin (GBoard g') side then
    Status g' = StatusFinished ∧ Winner g' = player_of g side ∧
    Result g' = Some (if side =? Player1 then ResultWinPlayer1
                      else ResultWinPlayer2)
  else if IsFull (GBoard g') then
    Status g' = StatusFinished ∧ Result g' = Some ResultDraw ∧
    Winner g' = None
  else
    Status g' = StatusPlaying ∧ CurrentTurn g' = other_side side.
Proof.
  intros Hw.
  destruct (decide (Status g = StatusPlaying)) as [Hs|Hs];
    [|by rewrite MakeMove_not_playing].
  destruct (decide (CurrentTurn g = side)) as [Ht|Ht];
    [|by rewrite MakeMove_not_your_turn].
  rewrite MakeMove_cases by done.
  destruct (DropDisc (GBoard g) column side) as [board [r [e|]]] eqn:Hd;
    simpl; [done|].
  intros Hmove. do 2 (split; [done|]).
  split; [by eapply DropDisc_ok_player|]. revert Hmove.
  destruct (CheckWin board side) eqn:Hwin; [|destruct (IsFull board) eqn:Hf];
    intros [= <- <-]; simpl; rewrite ?Hwin, ?Hf; by repeat split.
Qed.

(** C3.  [MakeMove] in any status other than playing returns the
    not-in-progress error, and [MakeMove] in status playing by a side that
    does not hold the turn returns the not-your-turn error; in both cases
    the row returned is -1 and the match (board, move log, turn, status and
    every other field) is unchanged. *)
Theorem C3_MakeMove_rejected (g : Game) (playerNum column : Z) (now : Time) :
  (Status g ≠ StatusPlaying →
   MakeMove g playerNum column now = (g, (-1, Some ErrGameNotInProgress))) ∧
  (Status g = StatusPlaying → CurrentTurn g ≠ playerNum →
   MakeMove g playerNum column now = (g, (-1, Some ErrNotYourTurn))).
Proof.
  split; [apply MakeMove_not_playing|apply MakeMove_not_your_turn].
Qed.

(** C4.  [PlayerReconnected] returns true and restores status playing
    exactly when the match is disconnected, the disconnected player recorded
    is the given side and at most 30 seconds have passed since the
    disconnect; in every other case it returns false and the match is
    unchanged.  (The player of the side is there, as in every match the
    server runs: the write of [IsConnected] through a nil pointer would
    panic.) *)
Theorem C4_PlayerReconnected (g : Game) (side : Z) (now : Time) :
  (¬ can_reconnect g side now →
   PlayerReconnected g side now = Some (g, false)) ∧
  (∀ g', PlayerReconnected g side now = Some (g', true) →
         can_reconnect g side now ∧ Status g' = StatusPlaying) ∧
  (player_of g side ≠ None → can_reconnect g side now →
   ∃ g', PlayerReconnected g side now = Some (g', true) ∧
         Status g' = StatusPlaying ∧ DisconnectedPlayer g' = 0).
Proof.
  unfold can_reconnect, PlayerReconnected, player_of.
  destruct (decide (Status g = StatusDisconnect)) as [Hs|Hs];
    [rewrite (bool_decide_eq_true_2 _ Hs)
    |rewrite (bool_decide_eq_false_2 _ Hs)]; simpl.
  2: { split; [done|]. split; [by intros g' [=]|]. by intros _ (? & _). }
  destruct (Z.eqb_spec (DisconnectedPlayer g) side) as [Hp|Hp]; simpl.
  2: { split; [done|]. split; [by intros g' [=]|]. by intros _ (_ & ? & _). }
  destruct (Z.gtb_spec (now - DisconnectTime g) (30 * Second)) as [Ht|Ht].
  { split; [done|]. split; [by intros g' [=]|]. intros _ (_ & _ & ?). lia. }
  split; [|split].
  - intros Hn. exfalso. apply Hn. by repeat split.
  - intros g' Hg'. split; [by repeat split|].
    destruct (side =? Player1).
    + destruct (GPlayer1 g); [|done]. by injection Hg' as <-.
    + destruct (GPlayer2 g); [|done]. by injection Hg' as <-.
  - intros Hpl _. destruct (side =? Player1).
    + destruct (GPlayer1 g) as [p|]; [|done]. simpl. by eexists.
    + destruct (GPlayer2 g) as [p|]; [|done]. simpl. by eexists.
Qed.

(** ** The matchmaker *)

Section matchmaker.
Implicit Types (m : Matchmaker) (username id : string) (ch : chan)
  (now : Time) (g : Game).

(** A player whose name maps to a registered game gets that game, whatever
    its status. *)
Lemma JoinQueue_existing m username ch id now g :
  GetGameByPlayer m username = Some g →
  JoinQueue m username ch id now = (m, ch, [Send ch g]).
Proof. intros Hg. unfold JoinQueue. by rewrite Hg. Qed.

(** Otherwise, with a player waiting, the head of the queue is removed and
    one game pairing the two names is registered and sent to both. *)
Lemma JoinQueue_pairs m username ch id now opponent rest :
  GetGameByPlayer m username = None →
  waitingQueue m = opponent :: rest →
  let g := AddPlayer2 (NewGame id now (WUsername opponent)) username false in
  ∃ m' effects,
    JoinQueue m username ch id now =
      (m', ch, [Send (MatchChan opponent) g; Send ch g] ++ effects) ∧
    waitingQueue m' = rest ∧
    activeGames m' = <[id := g]> (activeGames m) ∧
    playerGames m' !! username = Some id ∧
    playerGames m' !! WUsername opponent = Some id ∧
    (Username <$> GPlayer1 g) = Some (WUsername opponent) ∧
    (Username <$> GPlayer2 g) = Some username ∧
    Status g = StatusPlaying.
Proof.
  intros Hnone Hq g. unfold JoinQueue. rewrite Hnone, Hq.
  eexists _, _. split; [reflexivity|]. simpl.
  repeat split.
  - by rewrite lookup_insert_eq.
  - destruct (decide (username = WUsername opponent)) as [->|Hne].
    + by rewrite lookup_insert_eq.
    + rewrite lookup_insert_ne by done. by rewrite lookup_insert_eq.
Qed.

(** With nobody waiting, the player is appended to the queue. *)
Lemma JoinQueue_waits m username ch id now :
  GetGameByPlayer m username = None →
  waitingQueue m = [] →
  ∃ m', JoinQueue m username ch id now =
          (m', ch, [GoTimeout (mkWaiting username now ch)]) ∧
        waitingQueue m' = [mkWaiting username now ch] ∧
        activeGames m' = activeGames m ∧ playerGames m' = playerGames m.
Proof.
  intros Hnone Hq. unfold JoinQueue. rewrite Hnone, Hq. by eexists.
Qed.

End matchmaker.

(** C7, at the input where the code departs from it.  bob and alice were
    paired in game-1 and alice has forfeited: the game is finished and still
    registered.  [JoinQueue] for alice then returns a channel holding that
    finished game and leaves the queue as it is. *)
Theorem C7_JoinQueue_returns_finished_match :
  GetGameByPlayer mm_finished "alice" = Some bob_vs_alice_forfeited ∧
  Status bob_vs_alice_forfeited = StatusFinished ∧
  JoinQueue mm_finished "alice" 3%nat "game-2" 200 =
    (mm_finished, 3%nat, [Send 3%nat bob_vs_alice_forfeited]).
Proof.
  assert (H : GetGameByPlayer mm_finished "alice" = Some bob_vs_alice_forfeited)
    by (vm_compute; reflexivity).
  split; [done|]. split; [done|]. by apply JoinQueue_existing.
Qed.

(** * The claims at concrete inputs *)

(** C2 at alice's first move in column 3: the disc lands in row 5, the move
    is logged and the turn passes to side 2. *)
Lemma C2_MakeMove_success_witness :
  let g' := (MakeMove alice_vs_bob 1 3 1).1 in
  Status alice_vs_bob = StatusPlaying ∧ CurrentTurn alice_vs_bob = 1 ∧
  Moves g' = [mkMove 1 3 5 1] ∧
  Status g' = StatusPlaying ∧ CurrentTurn g' = 2.
Proof.
  pose proof (C2_MakeMove_success alice_vs_bob (MakeMove alice_vs_bob 1 3 1).1
                1 3 5 1 eq_refl eq_refl)
    as (Hplaying & Hside & _ & _ & Hmoves & Hrest).
  vm_compute in Hrest. destruct Hrest as [Hstatus Hturn].
  split; [exact Hplaying|]. split; [exact Hside|].
  split; [exact Hmoves|]. split; [exact Hstatus|exact Hturn].
Defined.

(** C3 at a finished match and at a move out of turn. *)
Lemma C3_MakeMove_rejected_witness :
  MakeMove alice_has_won 2 0 8 =
    (alice_has_won, (-1, Some ErrGameNotInProgress)) ∧
  MakeMove alice_vs_bob 2 0 8 = (alice_vs_bob, (-1, Some ErrNotYourTurn)).
Proof.
  split.
  - apply (C3_MakeMove_rejected alice_has_won 2 0 8). vm_compute. discriminate.
  - apply (C3_MakeMove_rejected alice_vs_bob 2 0 8);
      [reflexivity | vm_compute; discriminate].
Defined.

(** C4 at 29 and at 31 seconds after the disconnect. *)
Lemma C4_PlayerReconnected_witness :
  (∃ g', PlayerReconnected alice_disconnected 1 (39 * Second) = Some (g', true)
         ∧ Status g' = StatusPlaying) ∧
  PlayerReconnected alice_disconnected 1 (41 * Second) =
    Some (alice_disconnected, false).
Proof.
  split.
  - destruct (C4_PlayerReconnected alice_disconnected 1 (39 * Second))
      as (_ & _ & Hyes).
    destruct Hyes as (g' & Hg' & Hs & _).
    + vm_compute. discriminate.
    + repeat split. vm_compute. discriminate.
    + exists g'. split; [exact Hg'|exact Hs].
  - apply (C4_PlayerReconnected alice_disconnected 1 (41 * Second)).
    intros (_ & _ & Hle). vm_compute in Hle. apply Hle. reflexivity.
Defined.

(** C5 at a drop of side 2 into column 3 of a board with six discs. *)
Lemma C5_drop_then_undo_restores_witness :
  wf_board board_two_wins ∧ gravity board_two_wins ∧
  UndoMove (DropDisc board_two_wins 3 2).1 3 = Some board_two_wins.
Proof.
  assert (Hwf : wf_board board_two_wins) by (apply wf_boardb_spec; reflexivity).
  assert (Hg : gravity board_two_wins) by (apply gravityb_spec; reflexivity).
  split; [exact Hwf|]. split; [exact Hg|].
  apply (proj1 (C5_drop_then_undo_restores board_two_wins 3 2 Hwf Hg
                  (or_intror eq_refl)) _ 5).
  reflexivity.
Defined.

(** C6 for the engine playing side 2: it takes its win in column 3 although
    side 1 threatens in column 0, and it blocks side 1 in column 3 when it
    has no win of its own. *)
Lemma C6_GetBestMove_wins_or_blocks_witness :
  (∃ col, GetBestMove (NewBot 2) board_two_wins = Some col ∧
          wins_at board_two_wins 2 col) ∧
  (∃ col, GetBestMove (NewBot 2) board_one_threatens = Some col ∧
          wins_at board_one_threatens 1 col).
Proof.
  assert (Hv : ∀ b : Board, isFullUnsafe b = false → cell b 0 3 = Empty →
                 3 ∈ getValidColumnsUnsafe b).
  { intros b _ He. apply valid_column_iff. split; [|exact He].
    unfold in_range, Columns. lia. }
  split.
  - apply (C6_GetBestMove_wins_or_blocks (NewBot 2) board_two_wins).
    + apply wf_boardb_spec. reflexivity.
    + apply gravityb_spec. reflexivity.
    + vm_compute. discriminate.
    + vm_compute. discriminate.
    + exists 3. split; [apply Hv; reflexivity | reflexivity].
  - apply (C6_GetBestMove_wins_or_blocks (NewBot 2) board_one_threatens).
    + apply wf_boardb_spec. reflexivity.
    + apply gravityb_spec. reflexivity.
    + vm_compute. discriminate.
    + vm_compute. discriminate.
    + intros col [Hin Hw].
      change (getValidColumnsUnsafe board_one_threatens)
        with [0; 1; 2; 3; 4; 5; 6] in Hin.
      repeat (apply elem_of_cons in Hin as [->|Hin];
              [vm_compute in Hw; discriminate Hw|]).
      apply not_elem_of_nil in Hin. exact Hin.
    + exists 3. split; [apply Hv; reflexivity | reflexivity].
Defined.

(** C8 at a run of two drops and an undo in column 3. *)
Lemma C8_gravity_invariant_witness :
  ∃ b, run_ops NewBoard [OpDropDisc 3 1; OpDropDisc 3 2; OpUndoMove 3] = Some b
       ∧ gravity b.
Proof.
  eexists. split; [reflexivity|].
  apply (proj1 (proj2 C8_gravity_invariant)
           [OpDropDisc 3 1; OpDropDisc 3 2; OpUndoMove 3]).
  reflexivity.
Defined.

(** C9 on the empty board and on a full board. *)
Lemma C9_GetBestMove_returns_valid_column_witness :
  (∃ col, GetBestMove (NewBot 2) NewBoard = Some col ∧
          col ∈ GetValidColumns NewBoard ∧
          in_range col ∧ cell NewBoard 0 (Z.to_nat col) = Empty) ∧
  GetBestMove (NewBot 2) board_full = None.
Proof.
  split.
  - apply (C9_GetBestMove_returns_valid_column (NewBot 2) NewBoard). reflexivity.
  - apply (C9_GetBestMove_returns_valid_column (NewBot 2) board_full). reflexivity.
Defined.

(** C10 at the player values 0 and 3. *)
Lemma C10_DropDisc_invalid_player_witness :
  DropDisc NewBoard 3 0 = (NewBoard, (-1, Some ErrInvalidPlayer)) ∧
  DropDisc NewBoard 9 3 = (NewBoard, (-1, Some ErrInvalidColumn)).
Proof.
  split.
  - apply (C10_DropDisc_invalid_player NewBoard 3 0); vm_compute; discriminate.
  - apply (C10_DropDisc_invalid_player NewBoard 9 3); vm_compute; discriminate.
Defined.

(** * Further properties of the board *)

Section board_more.
Implicit Types (b : Board) (col : nat) (column p : Z).

(** Counting the rows of a range that satisfy a test. *)
Lemma filter_seq_length_iff (P Q : nat → Prop)
    `{!∀ x, Decision (P x)} `{!∀ x, Decision (Q x)} (n : nat) :
  (∀ i : nat, (i < n)%nat → (P i ↔ Q i)) →
  length (filter P (seq 0 n)) = length (filter Q (seq 0 n)).
Proof.
  induction n as [|n IH]; intros Hiff; [done|].
  assert (Hn : P n ↔ Q n) by (apply Hiff; lia).
  assert (Hlt : ∀ i : nat, (i < n)%nat → (P i ↔ Q i))
    by (intros; apply Hiff; lia).
  rewrite seq_S, !filter_app, !length_app, (IH Hlt).
  f_equal. simpl. rewrite !filter_cons, !filter_nil.
  destruct (decide (P n)), (decide (Q n)); try done; exfalso; tauto.
Qed.

Lemma filter_seq_length_gain (P Q : nat → Prop)
    `{!∀ x, Decision (P x)} `{!∀ x, Decision (Q x)} (n r : nat) :
  (r < n)%nat → ¬ P r → Q r →
  (∀ i : nat, (i < n)%nat → i ≠ r → (P i ↔ Q i)) →
  length (filter Q (seq 0 n)) = S (length (filter P (seq 0 n))).
Proof.
  induction n as [|n IH]; intros Hr HP HQ Hiff; [lia|].
  rewrite seq_S, !filter_app, !length_app. simpl.
  rewrite !filter_cons, !filter_nil.
  destruct (decide (r = n)) as [->|Hne].
  - assert (Hlt : ∀ i : nat, (i < n)%nat → (Q i ↔ P i))
      by (intros; symmetry; apply Hiff; lia).
    rewrite (filter_seq_length_iff Q P n Hlt).
    rewrite decide_True, decide_False by done. simpl. lia.
  - assert (Hn : P n ↔ Q n) by (apply Hiff; lia).
    assert (Hlt : ∀ i : nat, (i < n)%nat → i ≠ r → (P i ↔ Q i))
      by (intros; apply Hiff; lia).
    rewrite (IH ltac:(lia) HP HQ Hlt).
    destruct (decide (P n)), (decide (Q n)); simpl; first [lia | exfalso; tauto].
Qed.

Lemma column_discs_le b col : (column_discs b col ≤ Rows)%nat.
Proof.
  unfold column_discs. etrans; [apply length_filter|]. by rewrite length_seq.
Qed.

Lemma column_discs_full b col :
  column_discs b col = Rows ↔ ∀ r : nat, (r < Rows)%nat → cell b r col ≠ Empty.
Proof.
  unfold column_discs. split.
  - intros Hlen r Hr Hempty.
    assert (Hin : r ∈ seq 0 Rows) by (apply list_elem_of_In, in_seq; lia).
    pose proof (length_filter_lt (λ row, cell b row col ≠ Empty) _ r Hin) as Hlt.
    rewrite length_seq in Hlt. specialize (Hlt ltac:(tauto)). lia.
  - intros Hall.
    assert (Hiff : ∀ i : nat, (i < Rows)%nat → (cell b i col ≠ Empty ↔ True))
      by (intros i Hi; split; [done|intros _; by apply Hall]).
    rewrite (filter_seq_length_iff _ (λ _, True) Rows Hiff).
    transitivity (length (seq 0 Rows)); [|by rewrite length_seq].
    generalize (seq 0 Rows). intros l.
    induction l as [|x l IH]; [done|].
    rewrite filter_cons_True by done. simpl. by rewrite IH.
Qed.

(** How a write of one cell changes the count. *)
Lemma column_discs_set_other b row col v col' :
  col ≠ col' → column_discs (set_cell b row col v) col' = column_discs b col'.
Proof.
  intros Hne. unfold column_discs. apply filter_seq_length_iff.
  intros i _. rewrite cell_set_cell_ne; [done|congruence].
Qed.

Lemma column_discs_set_disc b row col v :
  wf_board b → (row < Rows)%nat → (col < Columns)%nat →
  cell b row col = Empty → v ≠ Empty →
  column_discs (set_cell b row col v) col = S (column_discs b col).
Proof.
  intros Hwf Hrow Hcol He Hv. unfold column_discs.
  apply (filter_seq_length_gain _ _ Rows row); [done| | |].
  - by intros H.
  - by rewrite cell_set_cell_eq.
  - intros i _ Hi. rewrite cell_set_cell_ne; [done|congruence].
Qed.

Lemma column_discs_set_empty b row col :
  wf_board b → (row < Rows)%nat → (col < Columns)%nat →
  cell b row col ≠ Empty →
  column_discs b col = S (column_discs (set_cell b row col Empty) col).
Proof.
  intros Hwf Hrow Hcol Hne. unfold column_discs.
  apply (filter_seq_length_gain _ _ Rows row); [done| | |].
  - rewrite cell_set_cell_eq by done. by intros H.
  - done.
  - intros i _ Hi. rewrite cell_set_cell_ne; [done|congruence].
Qed.

(** [DropDisc] unfolded for a column in range and a valid side. *)
Lemma DropDisc_in_range b column p :
  in_range column → p = Player1 ∨ p = Player2 →
  DropDisc b column p = drop_loop b (Z.to_nat column) p Rows.
Proof.
  intros Hr Hp. unfold DropDisc. rewrite (proj2 (column_range column) Hr).
  by destruct Hp as [-> | ->].
Qed.

Lemma DropDisc_ok_in_range b column p b' (row : Z) :
  DropDisc b column p = (b', (row, None)) → in_range column.
Proof.
  unfold DropDisc.
  destruct ((column <? 0) || (column >=? Z.of_nat Columns)) eqn:Hc; [done|].
  intros _. by apply column_range.
Qed.

(** The shape of a successful [DropDisc]. *)
Lemma DropDisc_ok_shape b column p b' (row : Z) :
  DropDisc b column p = (b', (row, None)) →
  in_range column ∧ (p = Player1 ∨ p = Player2) ∧
  ∃ r : nat, (r < Rows)%nat ∧ row = Z.of_nat r ∧
    cell b r (Z.to_nat column) = Empty ∧
    b' = set_cell b r (Z.to_nat column) p ∧
    ∀ r' : nat, (r < r' < Rows)%nat → cell b r' (Z.to_nat column) ≠ Empty.
Proof.
  intros Hd. pose proof (DropDisc_ok_in_range _ _ _ _ _ Hd) as Hr.
  pose proof (DropDisc_ok_player _ _ _ _ _ Hd) as Hp.
  split; [done|]. split; [done|].
  rewrite DropDisc_in_range in Hd by done.
  pose proof (drop_loop_spec b (Z.to_nat column) p Rows) as Hs.
  by rewrite Hd in Hs.
Qed.

End board_more.

Section board_extras.
Implicit Types (b : Board) (column p : Z).

(** A successful [DropDisc] puts the disc in a cell of the column that was
    empty, leaves every other cell as it was, and the cells of the column
    below the disc are all occupied: the disc lands on the lowest empty
    cell. *)
Theorem DropDisc_lands_on_lowest_empty b column p b' (row : Z) :
  wf_board b → DropDisc b column p = (b', (row, None)) →
  in_range column ∧ 0 ≤ row < Z.of_nat Rows ∧
  cell b (Z.to_nat row) (Z.to_nat column) = Empty ∧
  cell b' (Z.to_nat row) (Z.to_nat column) = p ∧
  (∀ r c : nat, (r, c) ≠ (Z.to_nat row, Z.to_nat column) →
     cell b' r c = cell b r c) ∧
  (∀ r : nat, (Z.to_nat row < r < Rows)%nat →
     cell b r (Z.to_nat column) ≠ Empty).
Proof.
  intros Hwf Hd.
  destruct (DropDisc_ok_shape _ _ _ _ _ Hd)
    as (Hr & Hp & r & Hlt & -> & He & -> & Hbelow).
  rewrite Nat2Z.id. split; [done|]. split; [lia|]. split; [done|].
  split; [apply cell_set_cell_eq; auto; by apply column_to_nat|].
  split; [|done]. intros r' c' Hne. by apply cell_set_cell_ne.
Qed.

(** On a board obeying gravity, [IsColumnValid] tells exactly whether
    [DropDisc] of a valid side succeeds; and when it is false for a column
    in range, the error is the full-column one and the board is
    unchanged. *)
Theorem IsColumnValid_iff_DropDisc_succeeds b column p :
  wf_board b → gravity b → p = Player1 ∨ p = Player2 →
  (IsColumnValid b column = true ↔
   ∃ b' row, DropDisc b column p = (b', (row, None))) ∧
  (in_range column → IsColumnValid b column = false →
   DropDisc b column p = (b, (-1, Some ErrColumnFull))).
Proof.
  intros Hwf Hg Hp.
  assert (Hvalid : IsColumnValid b column = true ↔
                   in_range column ∧ cell b 0 (Z.to_nat column) = Empty).
  { unfold IsColumnValid, in_range.
    rewrite !andb_true_iff, Z.geb_le, Z.ltb_lt, Z.eqb_eq. tauto. }
  split; [split|].
  - intros Hv. apply Hvalid in Hv as [Hr He].
    rewrite DropDisc_in_range by done.
    pose proof (drop_loop_spec b (Z.to_nat column) p Rows) as Hs.
    destruct (drop_loop b (Z.to_nat column) p Rows) as [b' [row [e|]]];
      [|by eauto].
    destruct Hs as (_ & _ & _ & Hfull). exfalso.
    apply (Hfull 0%nat); [unfold Rows; lia|done].
  - intros (b' & row & Hd). apply Hvalid.
    destruct (DropDisc_ok_shape _ _ _ _ _ Hd)
      as (Hr & _ & r & Hlt & _ & He & _). split; [done|].
    apply (gravity_above b r 0 (Z.to_nat column)); auto; [lia|].
    by apply column_to_nat.
  - intros Hr Hv. rewrite DropDisc_in_range by done.
    pose proof (drop_loop_spec b (Z.to_nat column) p Rows) as Hs.
    destruct (drop_loop b (Z.to_nat column) p Rows) as [b' [row [e|]]].
    + by destruct Hs as (-> & -> & -> & _).
    + destruct Hs as (r & Hlt & _ & He & _). exfalso.
      assert (Htop : cell b 0 (Z.to_nat column) = Empty).
      { apply (gravity_above b r 0 (Z.to_nat column)); auto; [lia|].
        by apply column_to_nat. }
      assert (IsColumnValid b column = true) by (by apply Hvalid).
      congruence.
Qed.

(** A column holds at most [Rows] discs: [DropDisc] of a valid side into a
    column with [Rows] discs fails with the full-column error and changes
    nothing; into a column with fewer it succeeds, adds exactly one disc to
    that column and none to any other. *)
Theorem DropDisc_column_capacity b column p :
  wf_board b → in_range column → p = Player1 ∨ p = Player2 →
  (column_discs b (Z.to_nat column) ≤ Rows)%nat ∧
  (column_discs b (Z.to_nat column) = Rows →
   DropDisc b column p = (b, (-1, Some ErrColumnFull))) ∧
  ((column_discs b (Z.to_nat column) < Rows)%nat →
   ∃ b' row, DropDisc b column p = (b', (row, None)) ∧
     column_discs b' (Z.to_nat column) = S (column_discs b (Z.to_nat column)) ∧
     ∀ col' : nat, col' ≠ Z.to_nat column →
       column_discs b' col' = column_discs b col').
Proof.
  intros Hwf Hr Hp. split; [apply column_discs_le|].
  assert (Hne : p ≠ Empty) by (destruct Hp as [-> | ->]; done).
  rewrite DropDisc_in_range by done.
  pose proof (drop_loop_spec b (Z.to_nat column) p Rows) as Hs.
  destruct (drop_loop b (Z.to_nat column) p Rows) as [b' [row [e|]]].
  - destruct Hs as (-> & -> & -> & Hfull). split; [done|].
    apply column_discs_full in Hfull. lia.
  - destruct Hs as (r & Hlt & -> & He & -> & _). split.
    + intros Hfull. exfalso.
      by apply (proj1 (column_discs_full b (Z.to_nat column)) Hfull r).
    + intros _. eexists _, _. split; [done|]. split.
      * apply column_discs_set_disc; auto. by apply column_to_nat.
      * intros col' Hcol'. by apply column_discs_set_other.
Qed.

(** [UndoMove] panics exactly for a column outside the board; otherwise it
    takes one disc off the column if it holds any, none if it is empty, and
    leaves every other column as it was. *)
Theorem UndoMove_removes_one_disc b column :
  wf_board b →
  (¬ in_range column → UndoMove b column = None) ∧
  (in_range column →
   ∃ b', UndoMove b column = Some b' ∧
     column_discs b' (Z.to_nat column)
       = Nat.pred (column_discs b (Z.to_nat column)) ∧
     (column_discs b (Z.to_nat column) = 0%nat → b' = b) ∧
     ∀ r c : nat, c ≠ Z.to_nat column → cell b' r c = cell b r c).
Proof.
  intros Hwf. unfold UndoMove. split.
  - intros Hr.
    destruct ((column <? 0) || (column >=? Z.of_nat Columns)) eqn:Hc; [done|].
    by apply column_range in Hc.
  - intros Hr. rewrite (proj2 (column_range column) Hr). eexists. split; [done|].
    destruct (undo_loop_spec b (Z.to_nat column) Rows)
      as [(r & Hlt & Hne & Habove & ->)|[Hall ->]].
    + rewrite (column_discs_set_empty b r (Z.to_nat column)); auto;
        [|by apply column_to_nat].
      split; [done|]. split; [done|].
      intros r' c Hc. apply cell_set_cell_ne. congruence.
    + split; [|by split].
      assert (H0 : column_discs b (Z.to_nat column) = 0%nat); [|by rewrite H0].
      unfold column_discs.
      assert (Hiff : ∀ i : nat, (i < Rows)%nat →
                (cell b i (Z.to_nat column) ≠ Empty ↔ False))
        by (intros i Hi; split; [intros H; by apply H, Hall|done]).
      rewrite (filter_seq_length_iff _ (λ _, False) Rows Hiff).
      generalize (seq 0 Rows). intros l. induction l as [|x l IH]; [done|].
      rewrite filter_cons_False; [exact IH|tauto].
Qed.

(** On a board obeying gravity, dropping the disc that [UndoMove] has taken
    off a column puts it back where it was: the board is restored. *)
Theorem DropDisc_after_UndoMove_restores b column p (r : nat) b' :
  wf_board b → gravity b → p = Player1 ∨ p = Player2 →
  (r < Rows)%nat → cell b r (Z.to_nat column) = p →
  (∀ r' : nat, (r' < r)%nat → cell b r' (Z.to_nat column) = Empty) →
  UndoMove b column = Some b' →
  DropDisc b' column p = (b, (Z.of_nat r, None)).
Proof.
  intros Hwf Hg Hp Hlt Hcell Habove. unfold UndoMove.
  destruct ((column <? 0) || (column >=? Z.of_nat Columns)) eqn:Hc; [done|].
  apply column_range in Hc. pose proof (column_to_nat _ Hc) as Hcol.
  assert (Hne : p ≠ Empty) by (destruct Hp as [-> | ->]; done).
  intros Heq. apply (inj Some) in Heq. subst b'.
  rewrite (undo_loop_found b (Z.to_nat column) 0 Rows r);
    [|lia|intros; apply Habove; lia|by rewrite Hcell].
  rewrite DropDisc_in_range by done.
  set (b1 := set_cell b r (Z.to_nat column) Empty).
  pose proof (drop_loop_spec b1 (Z.to_nat column) p Rows) as Hs.
  assert (Hb1 : cell b1 r (Z.to_nat column) = Empty)
    by (by apply cell_set_cell_eq).
  assert (Hbelow : ∀ r' : nat, (r < r' < Rows)%nat →
            cell b1 r' (Z.to_nat column) ≠ Empty).
  { intros r' Hr'. unfold b1. rewrite cell_set_cell_ne by (intros [=]; lia).
    intros He. apply (gravity_above b r' r (Z.to_nat column)) in He; auto;
      [|lia..]. congruence. }
  destruct (drop_loop b1 (Z.to_nat column) p Rows) as [b2 [row [e|]]].
  - destruct Hs as (_ & _ & _ & Hfull). exfalso. by apply (Hfull r).
  - destruct Hs as (r0 & Hlt0 & -> & He0 & -> & Hbelow0).
    assert (r0 = r) as ->.
    { destruct (decide (r0 < r)%nat); [exfalso; apply (Hbelow0 r); [lia|done]|].
      destruct (decide (r < r0)%nat); [exfalso; by apply (Hbelow r0)|lia]. }
    unfold b1. rewrite set_cell_set_cell, <- Hcell. by rewrite set_cell_id.
Qed.

End board_extras.

Section board_wins.
Implicit Types (b : Board) (column p q : Z).

Lemma four_true p c0 c1 c2 c3 :
  four p c0 c1 c2 c3 = true ↔ c0 = p ∧ c1 = p ∧ c2 = p ∧ c3 = p.
Proof. unfold four. rewrite !andb_true_iff, !Z.eqb_eq. tauto. Qed.

Lemma existsb_seq2 (f : nat → nat → bool) (r0 nr c0 nc : nat) :
  existsb (λ row, existsb (f row) (seq c0 nc)) (seq r0 nr) = true ↔
  ∃ row col : nat, (r0 ≤ row < r0 + nr)%nat ∧ (c0 ≤ col < c0 + nc)%nat ∧
                   f row col = true.
Proof.
  rewrite existsb_exists. split.
  - intros (row & Hrow & Hex). apply existsb_exists in Hex as (col & Hcol & Hf).
    apply in_seq in Hrow, Hcol. eauto.
  - intros (row & col & Hrow & Hcol & Hf). exists row.
    split; [by apply in_seq|]. apply existsb_exists. exists col.
    split; [by apply in_seq|done].
Qed.

(** [checkWinUnsafe] looks only at which cells hold the side's disc. *)
Lemma checkWin_mono b b' p :
  (∀ r c : nat, cell b r c = p → cell b' r c = p) →
  checkWinUnsafe b p = true → checkWinUnsafe b' p = true.
Proof.
  intros Hsub. unfold checkWinUnsafe.
  rewrite !orb_true_iff, !existsb_seq2.
  setoid_rewrite four_true.
  intros [[[H|H]|H]|H]; [left; left; left|left; left; right|left; right|right];
    destruct H as (row & col & Hrow & Hcol & H0 & H1 & H2 & H3);
    exists row, col; auto 10.
Qed.

(** A drop leaves a cell as it was or fills an empty one. *)
Lemma drop_loop_cells b (col : nat) p (n : nat) (r c : nat) :
  wf_board b → (col < Columns)%nat → (n ≤ Rows)%nat →
  cell (drop_loop b col p n).1 r c = cell b r c ∨
  (cell b r c = Empty ∧ cell (drop_loop b col p n).1 r c = p).
Proof.
  intros Hwf Hcol Hn. pose proof (drop_loop_spec b col p n) as Hs.
  destruct (drop_loop b col p n) as [b' [row [e|]]]; simpl.
  - destruct Hs as (-> & _). by left.
  - destruct Hs as (r0 & Hlt & _ & He & -> & _).
    destruct (decide ((r0, col) = (r, c))) as [[= <- <-]|Hne].
    + right. split; [done|]. apply cell_set_cell_eq; auto. lia.
    + left. by apply cell_set_cell_ne.
Qed.

Lemma DropDisc_cells b column p (r c : nat) :
  wf_board b →
  cell (DropDisc b column p).1 r c = cell b r c ∨
  (cell b r c = Empty ∧ cell (DropDisc b column p).1 r c = p).
Proof.
  intros Hwf. unfold DropDisc.
  destruct ((column <? 0) || (column >=? Z.of_nat Columns)) eqn:Hc; [by left|].
  destruct (negb (p =? Player1) && negb (p =? Player2)); [by left|].
  apply drop_loop_cells; auto. by apply column_to_nat, column_range.
Qed.

Lemma DropDiscUnsafe_cells b column p (r c : nat) :
  wf_board b →
  cell (DropDiscUnsafe b column p).1 r c = cell b r c ∨
  (cell b r c = Empty ∧ cell (DropDiscUnsafe b column p).1 r c = p).
Proof.
  intros Hwf. unfold DropDiscUnsafe.
  destruct ((column <? 0) || (column >=? Z.of_nat Columns)) eqn:Hc; [by left|].
  apply drop_loop_cells; auto. by apply column_to_nat, column_range.
Qed.

(** A drop changes the win test of no side but the one dropped. *)
Lemma checkWin_DropDisc_other b column p q :
  wf_board b → q ≠ Empty → q ≠ p →
  checkWinUnsafe (DropDisc b column p).1 q = checkWinUnsafe b q.
Proof.
  intros Hwf Hq Hqp.
  destruct (checkWinUnsafe b q) eqn:Hb.
  - revert Hb. apply checkWin_mono. intros r c Hc.
    destruct (DropDisc_cells b column p r c Hwf) as [->|[He _]]; congruence.
  - destruct (checkWinUnsafe (DropDisc b column p).1 q) eqn:Hb'; [|done].
    rewrite <- Hb. symmetry. revert Hb'. apply checkWin_mono. intros r c Hc.
    destruct (DropDisc_cells b column p r c Hwf) as [<-|[_ Hp]]; congruence.
Qed.

End board_wins.

Section board_extras2.
Implicit Types (b : Board) (column p q : Z).

(** Discs are never overwritten, so four in a row, once there, stays under
    every later drop ([DropDisc] or [DropDiscUnsafe], of any side, into any
    column, successful or not). *)
Theorem win_survives_every_drop b column p q :
  wf_board b → q ≠ Empty → checkWinUnsafe b q = true →
  checkWinUnsafe (DropDisc b column p).1 q = true ∧
  checkWinUnsafe (DropDiscUnsafe b column p).1 q = true.
Proof.
  intros Hwf Hq Hwin. split; revert Hwin; apply checkWin_mono; intros r c Hc.
  - destruct (DropDisc_cells b column p r c Hwf) as [->|[He _]]; congruence.
  - destruct (DropDiscUnsafe_cells b column p r c Hwf) as [->|[He _]]; congruence.
Qed.

(** A drop of side [p] can complete a line only for [p]: for every other
    side the win test is the same before and after. *)
Theorem drop_wins_only_for_the_side_dropped b column p q :
  wf_board b → q ≠ Empty → q ≠ p →
  checkWinUnsafe (DropDisc b column p).1 q = checkWinUnsafe b q ∧
  checkWinUnsafe (DropDiscUnsafe b column p).1 q = checkWinUnsafe b q.
Proof.
  intros Hwf Hq Hqp. split; [by apply checkWin_DropDisc_other|].
  destruct (checkWinUnsafe b q) eqn:Hb.
  - revert Hb. apply checkWin_mono. intros r c Hc.
    destruct (DropDiscUnsafe_cells b column p r c Hwf) as [->|[He _]]; congruence.
  - destruct (checkWinUnsafe (DropDiscUnsafe b column p).1 q) eqn:Hb'; [|done].
    rewrite <- Hb. symmetry. revert Hb'. apply checkWin_mono. intros r c Hc.
    destruct (DropDiscUnsafe_cells b column p r c Hwf) as [<-|[_ Hp]]; congruence.
Qed.

End board_extras2.

Section board_extras3.
Implicit Types (b : Board) (column p : Z).

Lemma isFull_top b :
  isFullUnsafe b = true ↔ ∀ c : nat, (c < Columns)%nat → cell b 0 c ≠ Empty.
Proof.
  unfold isFullUnsafe. rewrite forallb_forall. split.
  - intros H c Hc. apply Z.eqb_neq, negb_true_iff, H, in_seq. lia.
  - intros H c Hc. apply in_seq in Hc. apply negb_true_iff, Z.eqb_neq, H. lia.
Qed.

Lemma sorted_filter_seq (P : nat → Prop) `{!∀ x, Decision (P x)} (a n : nat) :
  StronglySorted Z.lt (map Z.of_nat (filter P (seq a n))).
Proof.
  revert a. induction n as [|n IH]; intros a; simpl; [constructor|].
  rewrite filter_cons. destruct (decide (P a)); [|apply IH]. simpl.
  constructor; [apply IH|]. apply Forall_forall. intros x Hx.
  apply list_elem_of_fmap in Hx as (y & -> & Hy).
  apply list_elem_of_filter in Hy as [_ Hy].
  apply list_elem_of_In, in_seq in Hy. lia.
Qed.

(** [GetValidColumns] lists, in strictly increasing order, exactly the
    columns for which [IsColumnValid] holds; it is empty exactly when
    [IsFull] holds; and on a board obeying gravity [IsFull] holds exactly
    when no cell of the board is empty. *)
Theorem GetValidColumns_exact_and_IsFull b :
  StronglySorted Z.lt (GetValidColumns b) ∧
  (∀ column, column ∈ GetValidColumns b ↔ IsColumnValid b column = true) ∧
  (IsFull b = true ↔ GetValidColumns b = []) ∧
  (wf_board b → gravity b →
   (IsFull b = true ↔
    ∀ r c : nat, (r < Rows)%nat → (c < Columns)%nat → cell b r c ≠ Empty)).
Proof.
  split; [apply sorted_filter_seq|]. split; [|split].
  - intros column. unfold GetValidColumns. rewrite valid_column_iff.
    unfold IsColumnValid, in_range.
    rewrite !andb_true_iff, Z.geb_le, Z.ltb_lt, Z.eqb_eq. tauto.
  - apply isFull_no_valid_column.
  - intros Hwf Hg. unfold IsFull. rewrite isFull_top. split.
    + intros Htop r c Hr Hc He. apply (Htop c Hc).
      apply (gravity_above b r 0 c); auto. lia.
    + intros Hall c Hc. apply Hall; [unfold Rows; lia|done].
Qed.

(** [GetRandomValidMove] returns -1 exactly on a full board and otherwise,
    for any value [rand.Intn] may return, a valid column. *)
Theorem GetRandomValidMove_valid b (intn : Z → Z) :
  (∀ n, 0 < n → 0 ≤ intn n < n) →
  (IsFull b = true → GetRandomValidMove b intn = Some (-1)) ∧
  (IsFull b = false →
   ∃ column, GetRandomValidMove b intn = Some column ∧
             column ∈ GetValidColumns b).
Proof.
  intros Hintn. unfold GetRandomValidMove, IsFull. split.
  - intros Hfull. apply isFull_no_valid_column in Hfull.
    unfold GetValidColumns. by rewrite Hfull.
  - intros Hfull.
    destruct (GetValidColumns b) as [|c0 rest] eqn:Hv.
    { apply isFull_no_valid_column in Hv. unfold IsFull in *. congruence. }
    rewrite <- Hv.
    assert (Hlen : (0 < length (GetValidColumns b))%nat) by (rewrite Hv; simpl; lia).
    destruct (Nat.eqb_spec (length (GetValidColumns b)) 0) as [|_]; [lia|].
    specialize (Hintn (Z.of_nat (length (GetValidColumns b))) ltac:(lia)).
    destruct (Z.ltb_spec (intn (Z.of_nat (length (GetValidColumns b)))) 0);
      [lia|].
    destruct (lookup_lt_is_Some_2 (GetValidColumns b)
                (Z.to_nat (intn (Z.of_nat (length (GetValidColumns b))))))
      as [column Hcol]; [lia|].
    exists column. split; [done|]. by eapply list_elem_of_lookup_2.
Qed.

(** Index arithmetic along a line: the four cells at steps 0 to 3. *)
Local Ltac norm_still x :=
  try replace (Z.to_nat (x + 0 * 0)) with (Z.to_nat x) in * by lia;
  try replace (Z.to_nat (x + 1 * 0)) with (Z.to_nat x) in * by lia;
  try replace (Z.to_nat (x + 2 * 0)) with (Z.to_nat x) in * by lia;
  try replace (Z.to_nat (x + 3 * 0)) with (Z.to_nat x) in * by lia.

Local Ltac norm_forward x :=
  try replace (Z.to_nat (x + 0 * 1)) with (Z.to_nat x) in * by lia;
  try replace (Z.to_nat (x + 1 * 1)) with (Z.to_nat x + 1)%nat in * by lia;
  try replace (Z.to_nat (x + 2 * 1)) with (Z.to_nat x + 2)%nat in * by lia;
  try replace (Z.to_nat (x + 3 * 1)) with (Z.to_nat x + 3)%nat in * by lia.

Local Ltac norm_backward x :=
  try replace (Z.to_nat (x + 0 * -1)) with (Z.to_nat x) in * by lia;
  try replace (Z.to_nat (x + 1 * -1)) with (Z.to_nat x - 1)%nat in * by lia;
  try replace (Z.to_nat (x + 2 * -1)) with (Z.to_nat x - 2)%nat in * by lia;
  try replace (Z.to_nat (x + 3 * -1)) with (Z.to_nat x - 3)%nat in * by lia.

(** [checkWinUnsafe] is true exactly when the side has four cells in a line
    inside the board, horizontal, vertical or on either diagonal: the loop
    bounds miss no line and read no cell outside the board. *)
Theorem checkWin_iff_has_line b p :
  checkWinUnsafe b p = true ↔ has_line b p.
Proof.
  unfold checkWinUnsafe, has_line, directions.
  rewrite !orb_true_iff, !existsb_seq2. setoid_rewrite four_true.
  unfold Rows, Columns. split.
  - intros [[[H|H]|H]|H];
      destruct H as (row & col & Hrow & Hcol & H0 & H1 & H2 & H3).
    + exists (Z.of_nat row), (Z.of_nat col), 0, 1. split; [apply list_elem_of_In; simpl; auto|].
      intros k Hk. split; [lia|]. split; [lia|].
      assert (k = 0 ∨ k = 1 ∨ k = 2 ∨ k = 3) as [-> | [-> | [-> | ->]]] by lia.
      * by replace (Z.to_nat _) with row by lia;
          replace (Z.to_nat _) with col by lia.
      * by replace (Z.to_nat (Z.of_nat row + _)) with row by lia;
          replace (Z.to_nat _) with (col + 1)%nat by lia.
      * by replace (Z.to_nat (Z.of_nat row + _)) with row by lia;
          replace (Z.to_nat _) with (col + 2)%nat by lia.
      * by replace (Z.to_nat (Z.of_nat row + _)) with row by lia;
          replace (Z.to_nat _) with (col + 3)%nat by lia.
    + exists (Z.of_nat row), (Z.of_nat col), 1, 0. split; [apply list_elem_of_In; simpl; auto|].
      intros k Hk. split; [lia|]. split; [lia|].
      assert (k = 0 ∨ k = 1 ∨ k = 2 ∨ k = 3) as [-> | [-> | [-> | ->]]] by lia.
      * by replace (Z.to_nat (Z.of_nat col + _)) with col by lia;
          replace (Z.to_nat _) with row by lia.
      * by replace (Z.to_nat (Z.of_nat col + _)) with col by lia;
          replace (Z.to_nat _) with (row + 1)%nat by lia.
      * by replace (Z.to_nat (Z.of_nat col + _)) with col by lia;
          replace (Z.to_nat _) with (row + 2)%nat by lia.
      * by replace (Z.to_nat (Z.of_nat col + _)) with col by lia;
          replace (Z.to_nat _) with (row + 3)%nat by lia.
    + exists (Z.of_nat row), (Z.of_nat col), 1, 1. split; [apply list_elem_of_In; simpl; auto|].
      intros k Hk. split; [lia|]. split; [lia|].
      assert (k = 0 ∨ k = 1 ∨ k = 2 ∨ k = 3) as [-> | [-> | [-> | ->]]] by lia.
      * by replace (Z.to_nat (Z.of_nat row + _)) with row by lia;
          replace (Z.to_nat _) with col by lia.
      * by replace (Z.to_nat (Z.of_nat row + _)) with (row + 1)%nat by lia;
          replace (Z.to_nat _) with (col + 1)%nat by lia.
      * by replace (Z.to_nat (Z.of_nat row + _)) with (row + 2)%nat by lia;
          replace (Z.to_nat _) with (col + 2)%nat by lia.
      * by replace (Z.to_nat (Z.of_nat row + _)) with (row + 3)%nat by lia;
          replace (Z.to_nat _) with (col + 3)%nat by lia.
    + exists (Z.of_nat row), (Z.of_nat col), (-1), 1. split; [apply list_elem_of_In; simpl; auto|].
      intros k Hk. split; [lia|]. split; [lia|].
      assert (k = 0 ∨ k = 1 ∨ k = 2 ∨ k = 3) as [-> | [-> | [-> | ->]]] by lia.
      * by replace (Z.to_nat (Z.of_nat row + _)) with row by lia;
          replace (Z.to_nat _) with col by lia.
      * by replace (Z.to_nat (Z.of_nat row + _)) with (row - 1)%nat by lia;
          replace (Z.to_nat _) with (col + 1)%nat by lia.
      * by replace (Z.to_nat (Z.of_nat row + _)) with (row - 2)%nat by lia;
          replace (Z.to_nat _) with (col + 2)%nat by lia.
      * by replace (Z.to_nat (Z.of_nat row + _)) with (row - 3)%nat by lia;
          replace (Z.to_nat _) with (col + 3)%nat by lia.
  - intros (row & col & dr & dc & Hdir & Hline).
    destruct (Hline 0 ltac:(lia)) as (Hr0 & Hc0 & H0).
    destruct (Hline 1 ltac:(lia)) as (Hr1 & Hc1 & H1).
    destruct (Hline 2 ltac:(lia)) as (Hr2 & Hc2 & H2).
    destruct (Hline 3 ltac:(lia)) as (Hr3 & Hc3 & H3).
    apply list_elem_of_In in Hdir. simpl in Hdir.
    destruct Hdir as [Hd|[Hd|[Hd|[Hd|[]]]]]; injection Hd as <- <-.
    + left; left; left. exists (Z.to_nat row), (Z.to_nat col).
      split; [lia|]. split; [lia|]. norm_still row. norm_forward col. done.
    + left; left; right. exists (Z.to_nat row), (Z.to_nat col).
      split; [lia|]. split; [lia|]. norm_still col. norm_forward row. done.
    + left; right. exists (Z.to_nat row), (Z.to_nat col).
      split; [lia|]. split; [lia|]. norm_forward row. norm_forward col. done.
    + right. exists (Z.to_nat row), (Z.to_nat col).
      split; [lia|]. split; [lia|]. norm_backward row. norm_forward col. done.
Qed.

End board_extras3.

(** * Further properties of the search engine *)

Section bot_more.
Implicit Types (b board : Board) (bot : Bot) (cols : list Z).

Lemma scoreWindow_range bot window : -4 ≤ scoreWindow bot window ≤ 100.
Proof.
  unfold scoreWindow.
  destruct (fold_left (count_cell bot) window (0, 0, 0)) as [[n1 n2] n3].
  repeat match goal with |- context [if ?c then _ else _] => destruct c end;
    lia.
Qed.

Lemma fold_add_bounds (f : nat → Z) (lo hi : Z) (l : list nat) (acc : Z) :
  (∀ x, lo ≤ f x ≤ hi) →
  acc + Z.of_nat (length l) * lo ≤ fold_left (λ a x, a + f x) l acc
    ≤ acc + Z.of_nat (length l) * hi.
Proof.
  intros Hf. revert acc. induction l as [|x l IH]; intros acc; simpl; [lia|].
  specialize (IH (acc + f x)). specialize (Hf x). lia.
Qed.

Lemma sum_over_bounds (rows cols : list nat) (f : nat → nat → Z) (lo hi : Z) :
  (∀ r c, lo ≤ f r c ≤ hi) →
  Z.of_nat (length rows * length cols) * lo ≤ sum_over rows cols f
    ≤ Z.of_nat (length rows * length cols) * hi.
Proof.
  intros Hf. unfold sum_over.
  assert (Hgen : ∀ acc,
    acc + Z.of_nat (length rows * length cols) * lo
      ≤ fold_left (λ a row, fold_left (λ a col, a + f row col) cols a) rows acc
      ≤ acc + Z.of_nat (length rows * length cols) * hi).
  { induction rows as [|r rows IH]; intros acc; simpl; [lia|].
    pose proof (fold_add_bounds (f r) lo hi cols acc (Hf r)) as Hin.
    specialize (IH (fold_left (λ a col, a + f r col) cols acc)). lia. }
  specialize (Hgen 0). lia.
Qed.

Lemma center_count_bounds (t : nat → bool) (l : list nat) (acc : Z) :
  acc ≤ fold_left (λ n row, if t row then n + 1 else n) l acc
      ≤ acc + Z.of_nat (length l).
Proof.
  revert acc. induction l as [|x l IH]; intros acc; simpl; [lia|].
  destruct (t x); [specialize (IH (acc + 1))|specialize (IH acc)]; lia.
Qed.

Local Ltac bound_next_sum :=
  match goal with
  | |- context [sum_over ?r ?c ?f] =>
      let H := fresh "Hsum" in
      let x := fresh "s" in
      pose proof (sum_over_bounds r c f (-4) 100
                    (λ _ _, scoreWindow_range _ _)) as H;
      rewrite !length_seq in H;
      set (x := sum_over r c f) in *; clearbody x;
      unfold Rows, Columns in H; simpl in H
  end.

Lemma evaluateBoard_range bot b : -276 ≤ evaluateBoard bot b ≤ 6918.
Proof.
  unfold evaluateBoard, scoreAllWindows. cbv zeta.
  pose proof (center_count_bounds
    (λ row, cell b row (Columns / 2)%nat =? player bot) (seq 0 Rows) 0) as Hc.
  rewrite length_seq in Hc.
  set (cc := fold_left _ (seq 0 Rows) 0) in *. clearbody cc.
  unfold Rows in Hc. simpl in Hc.
  do 4 bound_next_sum. lia.
Qed.

End bot_more.

Section minimax_props.
Implicit Types (b board : Board) (bot : Bot) (cols : list Z).

(** The score a loop of [minimax] returns, when it has run at least once,
    lies where the scores of the recursive calls lie. *)
Lemma max_loop_bounds rec bot beta cols board maxScore alpha (lo hi : Z) bd s :
  (∀ a x bd' s', rec a x = Some (bd', s') → lo ≤ s' ≤ hi) →
  MinInt32 ≤ lo →
  maxScore = MinInt32 ∨ lo ≤ maxScore ≤ hi →
  max_loop rec bot beta cols board maxScore alpha = Some (bd, s) →
  (cols = [] ∧ s = maxScore) ∨ lo ≤ s ≤ hi.
Proof.
  intros Hrec Hlo. revert board maxScore alpha.
  induction cols as [|col cols IH]; intros board maxScore alpha Hms; simpl.
  - intros [= <- <-]. by left.
  - destruct (rec alpha (DropDiscUnsafe board col (player bot)).1)
      as [[bd1 score]|] eqn:Hr; [|done]. simpl.
    destruct (UndoMove bd1 col) as [bd2|]; [|done]. simpl.
    apply Hrec in Hr.
    assert (Hms' : lo ≤ Z.max maxScore score ≤ hi) by lia.
    destruct (beta <=? Z.max alpha score).
    + intros [= <- <-]. by right.
    + intros Hloop. right.
      apply IH in Hloop as [[_ ->]|Hin]; auto.
Qed.

Lemma min_loop_bounds rec bot alpha cols board minScore beta (lo hi : Z) bd s :
  (∀ a x bd' s', rec a x = Some (bd', s') → lo ≤ s' ≤ hi) →
  hi ≤ MaxInt32 →
  minScore = MaxInt32 ∨ lo ≤ minScore ≤ hi →
  min_loop rec bot alpha cols board minScore beta = Some (bd, s) →
  (cols = [] ∧ s = minScore) ∨ lo ≤ s ≤ hi.
Proof.
  intros Hrec Hhi. revert board minScore beta.
  induction cols as [|col cols IH]; intros board minScore beta Hms; simpl.
  - intros [= <- <-]. by left.
  - destruct (rec beta (DropDiscUnsafe board col (opponent bot)).1)
      as [[bd1 score]|] eqn:Hr; [|done]. simpl.
    destruct (UndoMove bd1 col) as [bd2|]; [|done]. simpl.
    apply Hrec in Hr.
    assert (Hms' : lo ≤ Z.min minScore score ≤ hi) by lia.
    destruct (Z.min beta score <=? alpha).
    + intros [= <- <-]. by right.
    + intros Hloop. right.
      apply IH in Hloop as [[_ ->]|Hin]; auto.
Qed.

Lemma minimax_bounds bot depth alpha beta isMaximizing board bd s :
  10000 + Z.of_nat depth ≤ MaxInt32 →
  minimax bot depth alpha beta isMaximizing board = Some (bd, s) →
  -10000 - Z.of_nat depth ≤ s ≤ 10000 + Z.of_nat depth.
Proof.
  revert alpha beta isMaximizing board bd s.
  induction depth as [|depth IH];
    intros alpha beta isMaximizing board bd s Hfit; simpl.
  - pose proof (evaluateBoard_range bot board).
    destruct (checkWinUnsafe board (player bot)); [intros [= <- <-]; lia|].
    destruct (checkWinUnsafe board (opponent bot)); [intros [= <- <-]; lia|].
    destruct (isFullUnsafe board); simpl; intros [= <- <-]; lia.
  - pose proof (evaluateBoard_range bot board).
    destruct (checkWinUnsafe board (player bot)); [intros [= <- <-]; lia|].
    destruct (checkWinUnsafe board (opponent bot)); [intros [= <- <-]; lia|].
    destruct (isFullUnsafe board); simpl; [intros [= <- <-]; lia|].
    destruct (Nat.eqb_spec (length (getValidColumnsUnsafe board)) 0)
      as [|Hlen]; [intros [= <- <-]; lia|].
    assert (Hfit' : 10000 + Z.of_nat depth ≤ MaxInt32) by lia.
    assert (Hrec : ∀ m a x bd' s',
              minimax bot depth a beta m x = Some (bd', s') →
              -10000 - Z.of_nat depth ≤ s' ≤ 10000 + Z.of_nat depth)
      by (intros; by eapply IH).
    assert (Hrec' : ∀ m (bt : Z) x bd' s',
              minimax bot depth alpha bt m x = Some (bd', s') →
              -10000 - Z.of_nat depth ≤ s' ≤ 10000 + Z.of_nat depth)
      by (intros; by eapply IH).
    destruct isMaximizing; intros Hloop.
    + apply (max_loop_bounds _ _ _ _ _ _ _
               (-10000 - Z.of_nat depth) (10000 + Z.of_nat depth)) in Hloop.
      * destruct Hloop as [[Hnil _]|Hin]; [by rewrite Hnil in Hlen|lia].
      * apply Hrec.
      * unfold MinInt32, MaxInt32 in *. lia.
      * by left.
    + apply (min_loop_bounds _ _ _ _ _ _ _
               (-10000 - Z.of_nat depth) (10000 + Z.of_nat depth)) in Hloop.
      * destruct Hloop as [[Hnil _]|Hin]; [by rewrite Hnil in Hlen|lia].
      * apply Hrec'.
      * unfold MinInt32, MaxInt32 in *. lia.
      * by left.
Qed.

(** On a board obeying gravity every loop of the search leaves the board as
    it found it. *)
Lemma max_loop_restores rec bot beta cols board maxScore alpha :
  wf_board board → gravity board → player bot ≠ Empty →
  (∀ a bd, wf_board bd → gravity bd → ∃ s, rec a bd = Some (bd, s)) →
  (∀ c, c ∈ cols → c ∈ getValidColumnsUnsafe board) →
  ∃ s, max_loop rec bot beta cols board maxScore alpha = Some (board, s).
Proof.
  intros Hwf Hg Hp Hrec. revert maxScore alpha.
  induction cols as [|col cols IH]; intros maxScore alpha Hv; simpl.
  - by eexists.
  - assert (Hc : col ∈ getValidColumnsUnsafe board) by (apply Hv; left).
    destruct (DropDiscUnsafe_valid board col (player bot) Hc)
      as (b1 & row & Hdrop).
    pose proof (wf_DropDiscUnsafe board col (player bot) Hwf) as Hwf1.
    pose proof (gravity_DropDiscUnsafe board col (player bot) Hwf Hg) as Hg1.
    rewrite Hdrop in *. simpl in *.
    destruct (Hrec alpha b1 Hwf1 Hg1) as [score ->]. simpl.
    rewrite (UndoMove_DropDiscUnsafe board col (player bot) b1 row Hwf Hg Hp Hdrop).
    simpl. destruct (beta <=? Z.max alpha score); [by eexists|].
    apply IH. intros c Hin. apply Hv. by right.
Qed.

Lemma min_loop_restores rec bot alpha cols board minScore beta :
  wf_board board → gravity board → opponent bot ≠ Empty →
  (∀ a bd, wf_board bd → gravity bd → ∃ s, rec a bd = Some (bd, s)) →
  (∀ c, c ∈ cols → c ∈ getValidColumnsUnsafe board) →
  ∃ s, min_loop rec bot alpha cols board minScore beta = Some (board, s).
Proof.
  intros Hwf Hg Hp Hrec. revert minScore beta.
  induction cols as [|col cols IH]; intros minScore beta Hv; simpl.
  - by eexists.
  - assert (Hc : col ∈ getValidColumnsUnsafe board) by (apply Hv; left).
    destruct (DropDiscUnsafe_valid board col (opponent bot) Hc)
      as (b1 & row & Hdrop).
    pose proof (wf_DropDiscUnsafe board col (opponent bot) Hwf) as Hwf1.
    pose proof (gravity_DropDiscUnsafe board col (opponent bot) Hwf Hg) as Hg1.
    rewrite Hdrop in *. simpl in *.
    destruct (Hrec beta b1 Hwf1 Hg1) as [score ->]. simpl.
    rewrite (UndoMove_DropDiscUnsafe board col (opponent bot) b1 row Hwf Hg Hp Hdrop).
    simpl. destruct (Z.min beta score <=? alpha); [by eexists|].
    apply IH. intros c Hin. apply Hv. by right.
Qed.

End minimax_props.

Section bot_extras.
Implicit Types (b board : Board) (bot : Bot).

(** The heuristic score of a position lies between -276 and 6918, so it is
    always strictly between the scores -10000 and 10000 that [minimax]
    gives to lost and won positions. *)
Theorem evaluateBoard_below_win_score bot b :
  -276 ≤ evaluateBoard bot b ≤ 6918 ∧
  -10000 < evaluateBoard bot b < 10000.
Proof. pose proof (evaluateBoard_range bot b). lia. Qed.

(** [minimax] returns (it does not panic), and its score is between
    [-10000 - depth] and [10000 + depth]: the sentinels [MinInt32] and
    [MaxInt32] that start its loops are never returned. *)
Theorem minimax_score_bounded bot (depth : nat) alpha beta isMaximizing board :
  10000 + Z.of_nat depth < MaxInt32 →
  ∃ bd s, minimax bot depth alpha beta isMaximizing board = Some (bd, s) ∧
          -10000 - Z.of_nat depth ≤ s ≤ 10000 + Z.of_nat depth ∧
          MinInt32 < s < MaxInt32.
Proof.
  intros Hfit.
  destruct (minimax_total bot depth alpha beta isMaximizing board)
    as [[bd s] Hm].
  exists bd, s. split; [done|].
  pose proof (minimax_bounds _ _ _ _ _ _ _ _ (Z.lt_le_incl _ _ Hfit) Hm).
  unfold MinInt32, MaxInt32 in *. lia.
Qed.

(** The search is speculative: on a board obeying gravity, [minimax] at any
    depth, with any window and for either side to move, hands the board
    back exactly as it received it. *)
Theorem minimax_leaves_board_unchanged bot (depth : nat) alpha beta
    isMaximizing board :
  wf_board board → gravity board →
  player bot ≠ Empty → opponent bot ≠ Empty →
  ∃ s, minimax bot depth alpha beta isMaximizing board = Some (board, s).
Proof.
  intros Hwf Hg Hp Ho. revert alpha beta isMaximizing board Hwf Hg.
  induction depth as [|depth IH];
    intros alpha beta isMaximizing board Hwf Hg; simpl.
  - destruct (checkWinUnsafe board (player bot)); [by eexists|].
    destruct (checkWinUnsafe board (opponent bot)); [by eexists|].
    destruct (isFullUnsafe board); by eexists.
  - destruct (checkWinUnsafe board (player bot)); [by eexists|].
    destruct (checkWinUnsafe board (opponent bot)); [by eexists|].
    destruct (isFullUnsafe board); simpl; [by eexists|].
    destruct (length (getValidColumnsUnsafe board) =? 0)%nat; [by eexists|].
    destruct isMaximizing.
    + apply max_loop_restores; auto.
    + apply min_loop_restores; auto.
Qed.

(** The center-out ordering of [GetBestMove] is a permutation of the valid
    columns that keeps the order of [columnOrder]: the search tries every
    valid column exactly once, the middle ones first. *)
Theorem orderCols_permutes_valid_columns b :
  orderCols (GetValidColumns b) ≡ₚ GetValidColumns b ∧
  sublist (orderCols (GetValidColumns b)) columnOrder.
Proof.
  split; [|apply sublist_filter].
  apply NoDup_Permutation.
  - apply NoDup_filter. unfold columnOrder.
    apply (bool_decide_unpack _). by vm_compute.
  - unfold GetValidColumns, getValidColumnsUnsafe.
    apply (NoDup_fmap_2 Z.of_nat), NoDup_filter, NoDup_seq.
  - intros c. split; [apply orderCols_valid|].
    intros Hc. unfold orderCols. apply list_elem_of_filter. split.
    + apply existsb_exists. exists c. split; [by apply list_elem_of_In|].
      apply Z.eqb_refl.
    + apply valid_column_iff in Hc as [Hr _]. unfold in_range, Columns in Hr.
      unfold columnOrder. apply list_elem_of_In. simpl. lia.
Qed.

End bot_extras.

(** * Further properties of the match *)

Section running.
Implicit Types (g : Game) (side playerNum column : Z) (now : Time).

Lemma other_side_involutive side :
  side = Player1 ∨ side = Player2 → other_side (other_side side) = side.
Proof. by intros [-> | ->]. Qed.

Lemma alternates_snoc first moves mv :
  first = Player1 ∨ first = Player2 →
  alternates first (moves ++ [mv]) ↔
  alternates first moves ∧
  mPlayerNum mv = if Nat.even (length moves) then first else other_side first.
Proof.
  revert first. induction moves as [|m moves IH]; intros first Hf.
  - simpl. tauto.
  - cbn [alternates app length].
    rewrite IH by (destruct Hf as [-> | ->]; auto).
    rewrite other_side_involutive by done.
    rewrite Nat.even_succ, <- Nat.negb_even.
    destruct (Nat.even (length moves)); simpl; tauto.
Qed.

Lemma side_after_snoc moves mv :
  side_after (moves ++ [mv]) = other_side (side_after moves).
Proof.
  unfold side_after. rewrite length_app. simpl.
  replace (length moves + 1)%nat with (S (length moves)) by lia.
  rewrite Nat.even_succ, <- Nat.negb_even.
  by destruct (Nat.even (length moves)).
Qed.

Local Ltac rinv_split :=
  split; [|split; [|split; [|split; [|split; [|split; [|split; [|split]]]]]]].

Lemma running_inv_start id now u1 u2 isBot :
  running_inv (AddPlayer2 (NewGame id now u1) u2 isBot).
Proof.
  assert (Hgen : ∀ g, GBoard g = NewBoard → Moves g = [] →
            CurrentTurn g = Player1 → Status g = StatusPlaying →
            Winner g = None → Result g = None →
            DisconnectedPlayer g = 0 → DisconnectTime g = 0 →
            GPlayer1 g = Some (mkPlayer u1 Player1 false true) →
            GPlayer2 g = Some (mkPlayer u2 Player2 isBot true) →
            running_inv g).
  { intros g Hb Hm Ht Hs Hw Hr Hdp Hdt H1 H2. rinv_split.
    - rewrite Hb. apply wf_NewBoard.
    - split; eexists; split; [exact H1|done|exact H2|done].
    - by left.
    - intros mv Hmv. rewrite Hm in Hmv. by apply not_elem_of_nil in Hmv.
    - by rewrite Hm.
    - intros _. by rewrite Hm, Ht.
    - unfold outcome_ok. rewrite Hb, Hr, Hw. split; [by intros _|]. by repeat split.
    - split; [|by rewrite Hs]. intros _.
      do 2 (split; [done|]). split; eexists; split; [exact H1|done|exact H2|done].
    - by rewrite Hs. }
  destruct isBot; by apply Hgen.
Qed.

(** The log after a successful drop. *)
Lemma log_on_board_drop (b board : Board) moves side column row now :
  wf_board b →
  (∀ mv, mv ∈ moves →
     (mPlayerNum mv = Player1 ∨ mPlayerNum mv = Player2) ∧
     0 ≤ mRow mv < Z.of_nat Rows ∧ in_range (mColumn mv) ∧
     cell b (Z.to_nat (mRow mv)) (Z.to_nat (mColumn mv)) = mPlayerNum mv) →
  DropDisc b column side = (board, (row, None)) →
  ∀ mv, mv ∈ moves ++ [mkMove side column row now] →
     (mPlayerNum mv = Player1 ∨ mPlayerNum mv = Player2) ∧
     0 ≤ mRow mv < Z.of_nat Rows ∧ in_range (mColumn mv) ∧
     cell board (Z.to_nat (mRow mv)) (Z.to_nat (mColumn mv)) = mPlayerNum mv.
Proof.
  intros Hwf Hlog Hd mv Hin. apply elem_of_app in Hin as [Hin|Hin].
  - destruct (Hlog mv Hin) as (Hp & Hr & Hc & Hcell).
    do 3 (split; [done|]).
    pose proof (DropDisc_cells b column side (Z.to_nat (mRow mv))
                  (Z.to_nat (mColumn mv)) Hwf) as Hcells.
    rewrite Hd in Hcells. simpl in Hcells.
    destruct Hcells as [->|[He _]]; [done|].
    rewrite Hcell in He. destruct Hp as [Hp|Hp]; rewrite Hp in He; done.
  - apply list_elem_of_singleton in Hin as ->. simpl.
    destruct (DropDisc_ok_shape _ _ _ _ _ Hd)
      as (Hr & Hp & r & Hlt & -> & He & -> & _).
    split; [done|]. split; [lia|]. split; [done|].
    rewrite Nat2Z.id. apply cell_set_cell_eq; auto. by apply column_to_nat.
Qed.

Lemma running_inv_MakeMove g playerNum column now :
  running_inv g → running_inv (MakeMove g playerNum column now).1.
Proof.
  intros Hinv.
  destruct (decide (Status g = StatusPlaying)) as [Hs|Hs];
    [|by rewrite MakeMove_not_playing].
  destruct (decide (CurrentTurn g = playerNum)) as [Ht|Ht];
    [|by rewrite MakeMove_not_your_turn].
  rewrite MakeMove_cases by done.
  destruct (DropDisc (GBoard g) column playerNum) as [board [row [e|]]] eqn:Hd;
    simpl.
  { apply DropDisc_err_board in Hd as ->. by rewrite set_Board_id. }
  destruct Hinv as (Hwf & Hpl & Hturn & Hlog & Halt & Hafter & Hout & Hconn & Hnw).
  assert (Hn : Status g ≠ StatusFinished) by (rewrite Hs; done).
  destruct Hout as (Hout & _). destruct (Hout Hn) as (Hw1 & Hw2 & Hnf & Hnow & Hnor).
  pose proof (DropDisc_ok_player _ _ _ _ _ Hd) as Hp.
  assert (Hwf' : wf_board board).
  { pose proof (wf_DropDisc (GBoard g) column playerNum Hwf) as H.
    by rewrite Hd in H. }
  pose proof (log_on_board_drop _ _ _ _ _ _ now Hwf Hlog Hd) as Hlog'.
  assert (Halt' : alternates Player1
            (Moves g ++ [mkMove playerNum column row now])).
  { apply alternates_snoc; [by left|]. split; [done|]. simpl.
    rewrite <- Ht. by apply Hafter. }
  assert (Hoth : checkWinUnsafe board (other_side playerNum) = false).
  { pose proof (checkWin_DropDisc_other (GBoard g) column playerNum
                  (other_side playerNum) Hwf) as H.
    rewrite Hd in H. simpl in H.
    destruct Hp as [-> | ->]; rewrite H; done. }
  unfold CheckWin, IsFull.
  destruct (checkWinUnsafe board playerNum) eqn:Hwin;
    [|destruct (isFullUnsafe board) eqn:Hfull]; simpl.
  - rinv_split; simpl.
    + done.
    + done.
    + done.
    + done.
    + done.
    + done.
    + unfold outcome_ok, player_of. simpl.
      destruct Hp as [-> | ->]; simpl in *; repeat split; done.
    + by split.
    + done.
  - rinv_split; simpl.
    + done.
    + done.
    + done.
    + done.
    + done.
    + done.
    + unfold outcome_ok. simpl.
      destruct Hp as [-> | ->]; simpl in *; repeat split; done.
    + by split.
    + done.
  - rinv_split; simpl.
    + done.
    + done.
    + destruct Hp as [-> | ->]; [by right|by left].
    + done.
    + done.
    + intros _. rewrite side_after_snoc, <- (Hafter Hn). by rewrite Ht.
    + unfold outcome_ok. simpl. rewrite Hnor, Hnow.
      destruct Hp as [-> | ->]; simpl in *; repeat split; done.
    + destruct Hconn as [Hc1 Hc2]. split; simpl; auto.
    + done.
Qed.

Lemma connected_set_true (p : Player) :
  connected (Some (set_IsConnected p true)).
Proof. by eexists. Qed.

Local Ltac players_after Hpl :=
  let p1 := fresh "p1" in let p2 := fresh "p2" in
  let Hp1 := fresh "Hp1" in let Hp2 := fresh "Hp2" in
  let Hn1 := fresh "Hn1" in let Hn2 := fresh "Hn2" in
  destruct Hpl as [(p1 & Hp1 & Hn1) (p2 & Hp2 & Hn2)];
  split; simpl; eexists; (split; [done|]); simpl; congruence.

Local Ltac outcome_after Hout Hnor :=
  unfold outcome_ok; simpl; split; [intros _; exact Hout|];
  rewrite Hnor; split_and!; intros [=].

Lemma running_inv_PlayerDisconnected g playerNum now g' :
  running_inv g → PlayerDisconnected g playerNum now = Some g' →
  running_inv g'.
Proof.
  intros Hinv. unfold PlayerDisconnected.
  destruct (decide (Status g = StatusPlaying)) as [Hs|Hs];
    [rewrite (bool_decide_eq_true_2 _ Hs)
    |rewrite (bool_decide_eq_false_2 _ Hs)]; simpl; [|by intros [= <-]].
  destruct Hinv as (Hwf & Hpl & Hturn & Hlog & Halt & Hafter & Hout & Hconn & Hnw).
  assert (Hn : Status g ≠ StatusFinished) by (rewrite Hs; done).
  destruct Hconn as [Hc _]. destruct (Hc Hs) as (_ & _ & Hc1 & Hc2).
  destruct Hout as (Hout & _). specialize (Hout Hn).
  destruct (Hout) as (_ & _ & _ & Hnow & Hnor).
  destruct (Z.eqb_spec playerNum Player1) as [->|Hne]; simpl.
  - destruct (GPlayer1 g) as [p|] eqn:H1; [|done]. simpl. intros [= <-].
    rinv_split; simpl.
    + done.
    + players_after Hpl.
    + done.
    + done.
    + done.
    + intros _. by apply Hafter.
    + outcome_after Hout Hnor.
    + by split.
    + done.
  - destruct (GPlayer2 g) as [p|] eqn:H2; [|done]. simpl. intros [= <-].
    rinv_split; simpl.
    + done.
    + players_after Hpl.
    + done.
    + done.
    + done.
    + intros _. by apply Hafter.
    + outcome_after Hout Hnor.
    + split; [done|]. simpl. intros _.
      by rewrite (proj2 (Z.eqb_neq _ _) Hne).
    + done.
Qed.

Lemma running_inv_PlayerReconnected g playerNum now g' r :
  running_inv g → PlayerReconnected g playerNum now = Some (g', r) →
  running_inv g'.
Proof.
  intros Hinv. unfold PlayerReconnected.
  destruct (decide (Status g = StatusDisconnect)) as [Hs|Hs];
    [rewrite (bool_decide_eq_true_2 _ Hs)
    |rewrite (bool_decide_eq_false_2 _ Hs)]; simpl; [|by intros [= <- <-]].
  destruct (Z.eqb_spec (DisconnectedPlayer g) playerNum) as [Hdp|Hdp]; simpl;
    [|by intros [= <- <-]].
  destruct (now - DisconnectTime g >? 30 * Second); [by intros [= <- <-]|].
  destruct Hinv as (Hwf & Hpl & Hturn & Hlog & Halt & Hafter & Hout & Hconn & Hnw).
  assert (Hn : Status g ≠ StatusFinished) by (rewrite Hs; done).
  destruct Hconn as [_ Hc]. specialize (Hc Hs). rewrite Hdp in Hc.
  destruct Hout as (Hout & _). specialize (Hout Hn).
  destruct (Hout) as (_ & _ & _ & Hnow & Hnor).
  destruct (Z.eqb_spec playerNum Player1) as [->|Hne]; simpl in *.
  - destruct (GPlayer1 g) as [p|] eqn:H1; [|done]. simpl. intros [= <- <-].
    rinv_split; simpl.
    + done.
    + players_after Hpl.
    + done.
    + done.
    + done.
    + intros _. by apply Hafter.
    + outcome_after Hout Hnor.
    + split; [|done]. simpl. intros _.
      do 2 (split; [done|]). split; [apply connected_set_true|done].
    + done.
  - destruct (GPlayer2 g) as [p|] eqn:H2; [|done]. simpl. intros [= <- <-].
    rinv_split; simpl.
    + done.
    + players_after Hpl.
    + done.
    + done.
    + done.
    + intros _. by apply Hafter.
    + outcome_after Hout Hnor.
    + split; [|done]. simpl. intros _.
      do 2 (split; [done|]). split; [done|apply connected_set_true].
    + done.
Qed.

Lemma running_inv_Forfeit g loser now :
  running_inv g → running_inv (Forfeit g loser now).
Proof.
  intros (Hwf & Hpl & Hturn & Hlog & Halt & Hafter & Hout & Hconn & Hnw).
  unfold Forfeit. destruct (loser =? Player1); rinv_split; simpl; try done;
    first [by split | unfold outcome_ok; simpl; by repeat split].
Qed.

(** The invariant holds of every game the server runs. *)
Lemma reachable_running g : reachable g → running_inv g.
Proof.
  induction 1.
  - apply running_inv_start.
  - by apply running_inv_MakeMove.
  - by eapply running_inv_PlayerDisconnected.
  - by eapply running_inv_PlayerReconnected.
  - by apply running_inv_Forfeit.
Qed.

End running.

Section game_extras.
Implicit Types (g : Game) (side playerNum column : Z) (now : Time).

(** In every game the server runs the move log and the board agree: each
    logged move names a valid side, a cell inside the board, and that cell
    holds the disc of that side. *)
Theorem move_log_matches_board g : reachable g → log_on_board g.
Proof.
  intros Hr. by destruct (reachable_running g Hr) as (_ & _ & _ & Hlog & _).
Qed.

(** In every game the server runs the sides alternate in the move log,
    side 1 first; the side to move is always 1 or 2 and, until the game is
    finished, it is the one the parity of the log gives. *)
Theorem sides_alternate g :
  reachable g →
  alternates Player1 (Moves g) ∧
  (CurrentTurn g = Player1 ∨ CurrentTurn g = Player2) ∧
  (Status g ≠ StatusFinished → CurrentTurn g = side_after (Moves g)).
Proof.
  intros Hr.
  by destruct (reachable_running g Hr) as (_ & _ & Ht & _ & Ha & Hs & _).
Qed.

(** In every game the server runs the recorded outcome and the board agree:
    until the game is finished no side has four in a row, the board is not
    full and no winner or result is recorded; a result of a win for a side
    comes with four in a row for that side only and that side's player as
    winner; a draw comes with a full board, no four in a row and no
    winner. *)
Theorem outcome_matches_board g : reachable g → outcome_ok g.
Proof.
  intros Hr.
  by destruct (reachable_running g Hr) as (_ & _ & _ & _ & _ & _ & Ho & _).
Qed.

(** In a game that is playing, a disconnect of a side followed by its
    reconnect within 30 seconds gives back the game exactly as it was
    before the disconnect; after more than 30 seconds the reconnect is
    refused and the game stays disconnected. *)
Theorem disconnect_then_reconnect_restores g playerNum now :
  reachable g → Status g = StatusPlaying →
  ∃ g1, PlayerDisconnected g playerNum now = Some g1 ∧
    Status g1 = StatusDisconnect ∧
    (∀ later, later - now ≤ 30 * Second →
       PlayerReconnected g1 playerNum later = Some (g, true)) ∧
    (∀ later, later - now > 30 * Second →
       PlayerReconnected g1 playerNum later = Some (g1, false)).
Proof.
  intros Hr Hs.
  destruct (reachable_running g Hr) as (_ & _ & _ & _ & _ & _ & _ & [Hc _] & _).
  destruct (Hc Hs) as (Hdp & Hdt & (p1 & Hp1 & Hc1) & (p2 & Hp2 & Hc2)).
  unfold PlayerDisconnected. rewrite (bool_decide_eq_true_2 _ Hs). simpl.
  destruct (Z.eqb_spec playerNum Player1) as [->|Hne].
  - rewrite Hp1. simpl. eexists. split; [done|]. split; [done|].
    unfold PlayerReconnected. simpl.
    split; intros later Hlater;
      destruct (Z.gtb_spec (later - now) (30 * Second)); try lia; [|done].
    do 2 f_equal. destruct g, p1. simpl in *. by subst.
  - rewrite Hp2. simpl. eexists. split; [done|]. split; [done|].
    unfold PlayerReconnected. simpl. rewrite Z.eqb_refl. simpl.
    rewrite (proj2 (Z.eqb_neq _ _) Hne).
    split; intros later Hlater;
      destruct (Z.gtb_spec (later - now) (30 * Second)); try lia; [|done].
    simpl. do 2 f_equal. destruct g, p2. simpl in *. by subst.
Qed.

(** [MakeBotMove] answers not-your-turn, changing nothing, when the game
    has no bot or the turn is not side 2.  In a game the server runs that
    is playing with the bot to move, it never panics and never fails: the
    column chosen is a valid one and the move is made as [MakeMove] makes
    it. *)
Theorem MakeBotMove_plays_a_legal_move g now :
  (GBot g = None ∨ CurrentTurn g ≠ Player2 →
   MakeBotMove g now = Some (g, (-1, -1, Some ErrNotYourTurn))) ∧
  (reachable g → Status g = StatusPlaying → CurrentTurn g = Player2 →
   is_Some (GBot g) →
   ∃ g' column row,
     MakeBotMove g now = Some (g', (column, row, None)) ∧
     column ∈ GetValidColumns (GBoard g) ∧
     MakeMove g Player2 column now = (g', (row, None))).
Proof.
  unfold MakeBotMove. split.
  - intros [Hb|Ht]; [by rewrite Hb|].
    destruct (GBot g); [|done]. by rewrite (proj2 (Z.eqb_neq _ _) Ht).
  - intros Hr Hs Ht [bot Hb]. rewrite Hb, Ht. simpl.
    destruct (reachable_running g Hr)
      as (Hwf & _ & _ & _ & _ & _ & [Hout _] & _).
    destruct Hout as (_ & _ & Hnf & _); [by rewrite Hs|].
    destruct (GetBestMove_valid bot (GBoard g)) as (column & -> & Hv).
    { intros Hnil. apply isFull_no_valid_column in Hnil. congruence. }
    simpl.
    destruct (DropDiscUnsafe_valid (GBoard g) column Player2 Hv)
      as (board & row & Hd).
    rewrite <- DropDisc_unsafe in Hd by (by right).
    pose proof (MakeMove_cases g Player2 column now Hs Ht) as Hm.
    rewrite Hd in Hm. simpl in Hm.
    destruct (CheckWin board Player2); [|destruct (IsFull board)];
      rewrite Hm; by eexists _, _, _.
Qed.

(** [GetPlayerByUsername] returns 0 exactly for a name that neither player
    bears, and otherwise the side of a player who bears it (side 1 when
    both do). *)
Theorem GetPlayerByUsername_finds_the_side g username :
  reachable g →
  let n := GetPlayerByUsername g username in
  (n = 0 ↔ (Username <$> GPlayer1 g) ≠ Some username ∧
           (Username <$> GPlayer2 g) ≠ Some username) ∧
  (n ≠ 0 → ∃ p, player_of g n = Some p ∧ Username p = username ∧
                PlayerNum p = n) ∧
  ((Username <$> GPlayer1 g) = Some username → n = Player1).
Proof.
  intros Hr.
  destruct (reachable_running g Hr)
    as (_ & [(p1 & Hp1 & Hn1) (p2 & Hp2 & Hn2)] & _).
  unfold GetPlayerByUsername, player_of. rewrite Hp1, Hp2. simpl.
  destruct (decide (Username p1 = username)) as [H1|H1];
    [rewrite (bool_decide_eq_true_2 _ H1)
    |rewrite (bool_decide_eq_false_2 _ H1)];
    [|destruct (decide (Username p2 = username)) as [H2|H2];
      [rewrite (bool_decide_eq_true_2 _ H2)
      |rewrite (bool_decide_eq_false_2 _ H2)]]; simpl.
  - split; [split; [done|intros [H _]; by rewrite H1 in H]|].
    split; [intros _; by exists p1|done].
  - split; [split; [done|intros [_ H]; by rewrite H2 in H]|].
    split; [intros _; by exists p2|]. intros [= H]. done.
  - split; [split; [intros _; split; congruence|done]|].
    split; [done|]. intros [= H]. done.
Qed.

(** The snapshot [GetState] takes of a game the server runs is coherent:
    until the game is finished it names no winner and no result; it has a
    last move exactly when the move count is not 0; and the last move is a
    cell inside the snapshot's board that holds a disc. *)
Theorem GetState_snapshot_coherent g :
  reachable g →
  let st := GetState g in
  (sStatus st ≠ StatusFinished → sWinner st = ""%string ∧ sResult st = None) ∧
  (sLastMove st = None ↔ sMoveCount st = 0) ∧
  (∀ col row, sLastMove st = Some (col, row) →
     in_range col ∧ 0 ≤ row < Z.of_nat Rows ∧
     (cell (sBoard st) (Z.to_nat row) (Z.to_nat col) = Player1 ∨
      cell (sBoard st) (Z.to_nat row) (Z.to_nat col) = Player2)).
Proof.
  intros Hr.
  destruct (reachable_running g Hr)
    as (_ & _ & _ & Hlog & _ & _ & [Hout _] & _).
  simpl. split; [|split].
  - intros Hn. destruct (Hout Hn) as (_ & _ & _ & -> & ->). done.
  - rewrite fmap_None, last_None. split; [by intros ->|].
    destruct (Moves g); [done|simpl; lia].
  - intros col row Hlast. apply fmap_Some in Hlast as (mv & Hlast & [= -> ->]).
    apply last_Some_elem_of in Hlast.
    destruct (Hlog mv Hlast) as (Hp & Hrow & Hcol & Hcell).
    rewrite Hcell. done.
Qed.

End game_extras.

(** * Further properties of the matchmaker *)

Section matchmaker_more.
Implicit Types (m : Matchmaker) (username id : string) (ch : chan)
  (now : Time) (g : Game) (w waiting : WaitingPlayer).

Lemma cut_first_Some test queue w queue' :
  cut_first test queue = Some (w, queue') →
  test w = true ∧ w ∈ queue ∧ length queue = S (length queue') ∧
  ∀ x, x ∈ queue' → x ∈ queue.
Proof.
  revert w queue'. induction queue as [|x queue IH]; intros w queue'; simpl;
    [done|].
  destruct (test x) eqn:Hx.
  - intros [= <- <-]. split; [done|]. split; [left|]. split; [done|].
    intros y Hy. by right.
  - destruct (cut_first test queue) as [[w0 q0]|]; [|done]. simpl.
    intros [= <- <-]. destruct (IH w0 q0 eq_refl) as (Ht & Hin & Hlen & Hsub).
    split; [done|]. split; [by right|]. split; [simpl; lia|].
    intros y Hy. apply elem_of_cons in Hy as [->|Hy]; [left|right; auto].
Qed.

Lemma cut_first_None test queue :
  cut_first test queue = None ↔ ∀ w, w ∈ queue → test w = false.
Proof.
  induction queue as [|x queue IH]; simpl.
  - split; [|done]. intros _ w Hw. by apply not_elem_of_nil in Hw.
  - destruct (test x) eqn:Hx.
    + split; [done|]. intros H. specialize (H x ltac:(left)). congruence.
    + destruct (cut_first test queue) as [[w0 q0]|]; simpl.
      * split; [done|]. intros H.
        assert (Some (w0, q0) = None) as Habs; [|done].
        apply IH. intros w Hw. apply H. by right.
      * split; [|done]. intros _ w Hw.
        apply elem_of_cons in Hw as [->|Hw]; [done|]. by apply IH.
Qed.

(** The queue the operations leave. *)
Lemma JoinQueue_queue m username ch id now :
  (length (waitingQueue (JoinQueue m username ch id now).1.1) ≤
   Nat.max 1 (length (waitingQueue m)))%nat ∧
  (length (waitingQueue m) ≤ 1 →
   length (waitingQueue (JoinQueue m username ch id now).1.1) ≤ 1)%nat.
Proof.
  unfold JoinQueue. destruct (GetGameByPlayer m username); simpl; [lia|].
  destruct (waitingQueue m) as [|w rest] eqn:Hq; simpl; lia.
Qed.

Lemma timeout_queue m waiting id now :
  (length (waitingQueue (handleMatchmakingTimeout m waiting id now).1)
   ≤ length (waitingQueue m))%nat.
Proof.
  unfold handleMatchmakingTimeout.
  destruct (cut_first _ (waitingQueue m)) as [[w q]|] eqn:Hc; simpl; [|lia].
  apply cut_first_Some in Hc as (_ & _ & Hlen & _). lia.
Qed.

Lemma LeaveQueue_queue m username :
  (length (waitingQueue (LeaveQueue m username).1)
   ≤ length (waitingQueue m))%nat.
Proof.
  unfold LeaveQueue.
  destruct (cut_first _ (waitingQueue m)) as [[w q]|] eqn:Hc; simpl; [|lia].
  apply cut_first_Some in Hc as (_ & _ & Hlen & _). lia.
Qed.

Lemma RemoveGame_queue m id m' :
  RemoveGame m id = Some m' → waitingQueue m' = waitingQueue m.
Proof.
  unfold RemoveGame. destruct (activeGames m !! id) as [g|]; [|by intros [= <-]].
  destruct (GPlayer1 g); [|done]. simpl. by intros [= <-].
Qed.

Lemma mm_reachable_queue m :
  mm_reachable m → (length (waitingQueue m) ≤ 1)%nat.
Proof.
  induction 1 as [cb|m u ch id now _ IH|m w id now _ IH|m u _ IH
                 |m id m' _ IH Hrm|m id f _ IH]; simpl.
  - lia.
  - by apply JoinQueue_queue.
  - etrans; [apply timeout_queue|done].
  - etrans; [apply LeaveQueue_queue|done].
  - by rewrite (RemoveGame_queue _ _ _ Hrm).
  - done.
Qed.

End matchmaker_more.

Section matchmaker_extras.
Implicit Types (m : Matchmaker) (username id : string) (ch : chan)
  (now : Time) (g : Game) (w waiting : WaitingPlayer).

(** The waiting queue never holds more than one player: a player is queued
    only when the queue is empty, and every other operation only removes.
    So a join that finds somebody waiting always leaves the queue empty. *)
Theorem waiting_queue_holds_at_most_one m :
  mm_reachable m →
  (GetWaitingCount m ≤ 1)%nat ∧
  ∀ username ch id now,
    GetGameByPlayer m username = None → waitingQueue m ≠ [] →
    waitingQueue (JoinQueue m username ch id now).1.1 = [].
Proof.
  intros Hr. pose proof (mm_reachable_queue m Hr) as Hlen.
  split; [done|]. intros username ch id now Hnone Hq.
  unfold JoinQueue. rewrite Hnone.
  destruct (waitingQueue m) as [|w [|w' rest]]; simpl in *; [done|done|lia].
Qed.

(** Two joins in a row, by players with no registered game and with nobody
    waiting before, make exactly one match: the first player is queued, the
    second is paired with him as side 2, the one new game is registered
    under its id and sent once on each player's channel, both names
    resolve to it and the queue is empty again.  (Nothing asks the two
    names to differ.) *)
Theorem two_joins_make_one_match m u v c1 c2 id1 id2 (t1 t2 : Time) :
  waitingQueue m = [] →
  GetGameByPlayer m u = None → GetGameByPlayer m v = None →
  activeGames m !! id2 = None →
  let r1 := JoinQueue m u c1 id1 t1 in
  let r2 := JoinQueue r1.1.1 v c2 id2 t2 in
  let g := AddPlayer2 (NewGame id2 t2 u) v false in
  r1.1.2 = c1 ∧ r1.2 = [GoTimeout (mkWaiting u t1 c1)] ∧
  r2.1.2 = c2 ∧
  (∃ rest, r2.2 = [Send c1 g; Send c2 g] ++ rest ∧
           ∀ ch g', Send ch g' ∉ rest) ∧
  waitingQueue r2.1.1 = [] ∧
  activeGames r2.1.1 = <[id2 := g]> (activeGames m) ∧
  GetActiveGameCount r2.1.1 = S (GetActiveGameCount m) ∧
  GetGameByPlayer r2.1.1 u = Some g ∧ GetGameByPlayer r2.1.1 v = Some g.
Proof.
  intros Hq Hu Hv Hid r1 r2 g.
  destruct (JoinQueue_waits m u c1 id1 t1 Hu Hq) as (m1 & E1 & Hq1 & Ha1 & Hp1).
  assert (Hv1 : GetGameByPlayer m1 v = None)
    by (unfold GetGameByPlayer; by rewrite Hp1, Ha1).
  subst r2 r1. rewrite E1. simpl.
  unfold JoinQueue. rewrite Hv1, Hq1. simpl. fold g. rewrite Ha1, Hp1.
  split; [done|]. split; [done|]. split; [done|]. split.
  { eexists. split; [done|]. intros ch g' Hin.
    destruct (onGameStart m1); [|by apply not_elem_of_nil in Hin].
    apply list_elem_of_singleton in Hin. done. }
  split; [done|]. split; [done|]. split.
  { unfold GetActiveGameCount. simpl. by apply map_size_insert_None. }
  unfold GetGameByPlayer. simpl. split.
  - destruct (decide (v = u)) as [->|Hne].
    + rewrite lookup_insert_eq. simpl. by rewrite lookup_insert_eq.
    + rewrite lookup_insert_ne by done. rewrite lookup_insert_eq. simpl.
      by rewrite lookup_insert_eq.
  - rewrite lookup_insert_eq. simpl. by rewrite lookup_insert_eq.
Qed.

(** A player who joins with nobody waiting and is still queued when the
    timer fires gets a game against the bot: the entry leaves the queue,
    one game with "BOT" as an automated side 2 is registered and sent once
    on the player's channel, and the player's name resolves to it. *)
Theorem lone_player_gets_bot_game m u c id0 id (t0 t : Time) :
  waitingQueue m = [] → GetGameByPlayer m u = None →
  let r1 := JoinQueue m u c id0 t0 in
  let r2 := handleMatchmakingTimeout r1.1.1 (mkWaiting u t0 c) id t in
  let g := AddPlayer2 (NewGame id t u) "BOT" true in
  GetWaitingCount r1.1.1 = 1%nat ∧
  GetWaitingCount r2.1 = 0%nat ∧
  (∃ rest, r2.2 = Send c g :: rest ∧ ∀ ch g', Send ch g' ∉ rest) ∧
  GetGame r2.1 id = Some g ∧ GetGameByPlayer r2.1 u = Some g ∧
  Status g = StatusPlaying ∧ (IsBot <$> GPlayer2 g) = Some true ∧
  GBot g = Some (NewBot Player2).
Proof.
  intros Hq Hu r1 r2 g.
  destruct (JoinQueue_waits m u c id0 t0 Hu Hq) as (m1 & E1 & Hq1 & Ha1 & Hp1).
  subst r2 r1. rewrite E1. simpl.
  unfold handleMatchmakingTimeout, GetWaitingCount. rewrite Hq1. simpl.
  rewrite bool_decide_eq_true_2 by done. simpl. fold g.
  split; [done|]. split; [done|]. split.
  { eexists. split; [done|]. intros ch g' Hin.
    destruct (onGameStart m1); [|by apply not_elem_of_nil in Hin].
    apply list_elem_of_singleton in Hin. done. }
  unfold GetGame, GetGameByPlayer. simpl.
  rewrite !lookup_insert_eq. simpl. by rewrite lookup_insert_eq.
Qed.

(** The matchmaking timer checks again when it fires: for an entry that is
    no longer queued it changes nothing and creates no game.  So it is
    after the player has been paired, and after the player has left the
    queue (which closes the player's channel). *)
Theorem matchmaking_timer_revalidates m u v c1 c2 id0 id1 id (t0 t1 t : Time) :
  let waiting := mkWaiting u t0 c1 in
  (∀ m', waiting ∉ waitingQueue m' →
     handleMatchmakingTimeout m' waiting id t = (m', [])) ∧
  (waitingQueue m = [] → GetGameByPlayer m u = None →
   GetGameByPlayer m v = None →
   let m1 := (JoinQueue m u c1 id0 t0).1.1 in
   let m2 := (JoinQueue m1 v c2 id1 t1).1.1 in
   handleMatchmakingTimeout m2 waiting id t = (m2, [])) ∧
  (waitingQueue m = [] → GetGameByPlayer m u = None →
   let m1 := (JoinQueue m u c1 id0 t0).1.1 in
   let r := LeaveQueue m1 u in
   r.2 = Some c1 ∧ waitingQueue r.1 = [] ∧
   handleMatchmakingTimeout r.1 waiting id t = (r.1, [])).
Proof.
  intros waiting.
  assert (Hgone : ∀ m', waiting ∉ waitingQueue m' →
            handleMatchmakingTimeout m' waiting id t = (m', [])).
  { intros m' Hnot. unfold handleMatchmakingTimeout.
    rewrite (proj2 (cut_first_None _ (waitingQueue m'))); [done|].
    intros w Hw. apply bool_decide_eq_false_2. by intros ->. }
  split; [done|]. split.
  - intros Hq Hu Hv m1 m2. apply Hgone.
    destruct (JoinQueue_waits m u c1 id0 t0 Hu Hq) as (m1' & E1 & Hq1 & Ha1 & Hp1).
    assert (Hv1 : GetGameByPlayer m1' v = None)
      by (unfold GetGameByPlayer; by rewrite Hp1, Ha1).
    subst m2 m1. rewrite E1. simpl.
    unfold JoinQueue. rewrite Hv1, Hq1. simpl. apply not_elem_of_nil.
  - intros Hq Hu m1 r.
    destruct (JoinQueue_waits m u c1 id0 t0 Hu Hq) as (m1' & E1 & Hq1 & Ha1 & Hp1).
    subst r m1. rewrite E1. simpl.
    unfold LeaveQueue. rewrite Hq1. simpl.
    rewrite bool_decide_eq_true_2 by done. simpl.
    split; [done|]. split; [done|]. apply Hgone. simpl. apply not_elem_of_nil.
Qed.

(** [RemoveGame] of an id that is not registered changes nothing.  For a
    registered game it unregisters the id and the names of its human
    players, so that neither [GetGame] nor [GetGameByPlayer] finds it any
    more, and it leaves the queue and every other registered game alone. *)
Theorem RemoveGame_unregisters m gameID :
  (GetGame m gameID = None → RemoveGame m gameID = Some m) ∧
  (∀ g p1, GetGame m gameID = Some g → GPlayer1 g = Some p1 →
   ∃ m', RemoveGame m gameID = Some m' ∧
     GetGame m' gameID = None ∧
     GetGameByPlayer m' (Username p1) = None ∧
     (∀ p2, GPlayer2 g = Some p2 → IsBot p2 = false →
        GetGameByPlayer m' (Username p2) = None) ∧
     (∀ id', id' ≠ gameID → GetGame m' id' = GetGame m id') ∧
     waitingQueue m' = waitingQueue m ∧
     GetActiveGameCount m' = Nat.pred (GetActiveGameCount m)).
Proof.
  unfold RemoveGame, GetGame. split; [by intros ->|].
  intros g p1 Hg H1. rewrite Hg, H1. simpl. eexists. split; [done|].
  unfold GetGameByPlayer, GetActiveGameCount. simpl.
  split; [apply lookup_delete_eq|]. split; [|split; [|split; [|split]]].
  - destruct (GPlayer2 g) as [p2|]; [destruct (IsBot p2); simpl|].
    + by rewrite lookup_delete_eq.
    + destruct (decide (Username p2 = Username p1)) as [->|Hne].
      * by rewrite lookup_delete_eq.
      * rewrite lookup_delete_ne by done. by rewrite lookup_delete_eq.
    + by rewrite lookup_delete_eq.
  - intros p2 -> ->. simpl. by rewrite lookup_delete_eq.
  - intros id' Hne. by rewrite lookup_delete_ne.
  - done.
  - rewrite map_size_delete, Hg. done.
Qed.

End matchmaker_extras.

(** * Properties of the disconnect protocol of the hub *)

Section hub_extras.
Implicit Types (m : Matchmaker) (g : Game) (username gameID : string)
  (now : Time) (playerNum : Z).

Lemma GetGame_with_game m gameID g g' :
  GetGame m gameID = Some g →
  GetGame (with_game m gameID (λ _, g')) gameID = Some g'.
Proof.
  unfold GetGame, with_game. simpl. intros Hg.
  rewrite lookup_alter_eq, Hg. done.
Qed.

(** The winner [Forfeit] records in a game with both players. *)
Lemma Forfeit_winner g loser now :
  players_ok g →
  ∃ w, Winner (Forfeit g loser now) = Some w ∧
       player_of g (other_side loser) = Some w.
Proof.
  intros [(p1 & Hp1 & _) (p2 & Hp2 & _)].
  unfold Forfeit, player_of, other_side.
  destruct (loser =? Player1); simpl; eauto.
Qed.

Lemma Forfeit_ID g loser now : ID (Forfeit g loser now) = ID g.
Proof. unfold Forfeit. by destruct (loser =? Player1). Qed.

Lemma Forfeit_outcome g loser now :
  Status (Forfeit g loser now) = StatusFinished ∧
  Result (Forfeit g loser now) = Some ResultForfeit.
Proof. unfold Forfeit. by destruct (loser =? Player1). Qed.

(** A broadcast to a game that lists a client whose channel is closed
    panics. *)
Lemma broadcastToGame_closed (h : Hub) gameID msg cs name client :
  hGameClients h !! gameID = Some cs → cs !! name = Some client →
  cSend client ∈ hClosed h → broadcastToGame h gameID msg = None.
Proof.
  intros Hcs Hc Hclosed. unfold broadcastToGame. rewrite Hcs. simpl.
  rewrite bool_decide_eq_true_2; [done|].
  apply Exists_exists. exists client. split; [|done].
  apply list_elem_of_fmap. exists (name, client). split; [done|].
  by apply elem_of_map_to_list.
Qed.

(** With no closed channel among them, every client listed for the game is
    offered the message. *)
Lemma broadcastToGame_open (h : Hub) gameID msg :
  (∀ cs name client, hGameClients h !! gameID = Some cs →
     cs !! name = Some client → cSend client ∉ hClosed h) →
  ∃ offers, broadcastToGame h gameID msg = Some offers ∧
    ∀ cs name client, hGameClients h !! gameID = Some cs →
      cs !! name = Some client → Offer (cSend client) msg ∈ offers.
Proof.
  intros Hopen. unfold broadcastToGame.
  destruct (hGameClients h !! gameID) as [cs|] eqn:Hcs; simpl.
  - rewrite bool_decide_eq_false_2.
    + eexists. split; [done|]. intros cs' name client Heq Hc.
      apply (inj Some) in Heq. subst cs'.
      apply list_elem_of_fmap. exists client. split; [done|].
      apply list_elem_of_fmap. exists (name, client). split; [done|].
      by apply elem_of_map_to_list.
    + intros Hex. apply Exists_exists in Hex as (client & Hin & Hcl).
      apply list_elem_of_fmap in Hin as ([name c] & Heq & Hin).
      simpl in Heq. subst c. apply elem_of_map_to_list in Hin.
      by eapply Hopen.
  - rewrite map_to_list_empty. simpl.
    eexists. split; [done|]. intros cs' name client Heq. discriminate Heq.
Qed.

(** The timer on a game that is not disconnected. *)
Lemma handleReconnectTimeout_idle (h : Hub) g playerNum now :
  Status g ≠ StatusDisconnect →
  handleReconnectTimeout h g playerNum now = (g, [], Returned).
Proof.
  intros Hs. unfold handleReconnectTimeout. simpl.
  by rewrite bool_decide_eq_false_2.
Qed.

(** The timer on a disconnected game that lists a client whose channel is
    closed: the forfeit is recorded, the end of the game is handled, and
    the broadcast panics. *)
Lemma handleReconnectTimeout_panics (h : Hub) g playerNum now cs name client :
  Status g = StatusDisconnect →
  hGameClients h !! ID g = Some cs → cs !! name = Some client →
  cSend client ∈ hClosed h →
  handleReconnectTimeout h g playerNum now
  = (Forfeit g playerNum now, [GameEnd (Forfeit g playerNum now)], Panicked).
Proof.
  intros Hs Hcs Hc Hclosed. unfold handleReconnectTimeout. simpl.
  rewrite bool_decide_eq_true_2 by done.
  destruct (Winner (Forfeit g playerNum now)) as [w|]; [|done].
  rewrite Forfeit_ID.
  by rewrite (broadcastToGame_closed h (ID g) _ cs name client).
Qed.

(** A disconnect in a game that is playing, and what can follow it. *)
Lemma PlayerDisconnected_playing g playerNum now :
  reachable g → Status g = StatusPlaying →
  ∃ g1, PlayerDisconnected g playerNum now = Some g1 ∧
    Status g1 = StatusDisconnect ∧ DisconnectedPlayer g1 = playerNum ∧
    DisconnectTime g1 = now ∧ ID g1 = ID g ∧
    (∀ back, back - now ≤ 30 * Second →
       PlayerReconnected g1 playerNum back = Some (g, true)) ∧
    (∀ fire, Winner (Forfeit g1 playerNum fire)
             = player_of g (other_side playerNum) ∧
             is_Some (Winner (Forfeit g1 playerNum fire))).
Proof.
  intros Hr Hs.
  destruct (reachable_running g Hr)
    as (_ & Hpl & _ & _ & _ & _ & _ & [Hc _] & _).
  destruct (Hc Hs) as (Hdp & Hdt & (p1 & Hp1 & Hc1) & (p2 & Hp2 & Hc2)).
  unfold PlayerDisconnected. rewrite (bool_decide_eq_true_2 _ Hs). simpl.
  destruct (Z.eqb_spec playerNum Player1) as [->|Hne].
  - rewrite Hp1. simpl. eexists. split; [done|]. simpl.
    do 4 (split; [done|]). split.
    + intros back Hback. unfold PlayerReconnected. simpl.
      destruct (Z.gtb_spec (back - now) (30 * Second)); [lia|].
      do 2 f_equal. destruct g, p1. simpl in *. by subst.
    + intros fire. unfold Forfeit, player_of, other_side. simpl.
      rewrite Hp2. eauto.
  - rewrite Hp2. simpl. eexists. split; [done|]. simpl.
    do 4 (split; [done|]). split.
    + intros back Hback. unfold PlayerReconnected. simpl.
      rewrite Z.eqb_refl. simpl.
      rewrite (proj2 (Z.eqb_neq _ _) Hne).
      destruct (Z.gtb_spec (back - now) (30 * Second)); [lia|]. simpl.
      do 2 f_equal. destruct g, p2. simpl in *. by subst.
    + intros fire. unfold Forfeit, player_of, other_side. simpl.
      rewrite (proj2 (Z.eqb_neq _ _) Hne). simpl. rewrite Hp1. eauto.
Qed.

(** [Run] on the departure of a registered client who is a player of a
    registered game between humans: the channel is closed, the entry under
    the name is deleted, the list of the game's clients stays as it is, and
    [handleDisconnect] marks the game and starts the timer. *)
Lemma unregister_in_game (h : Hub) client gameID now g g1 n :
  gameID ≠ ""%string → gameID_of h client = gameID →
  is_Some (hClients h !! cUsername client) → cSend client ∉ hClosed h →
  GetGame (hMatchmaker h) gameID = Some g →
  (IsBot <$> GPlayer2 g) = Some false →
  GetPlayerByUsername g (cUsername client) = n → n ≠ 0 →
  PlayerDisconnected g n now = Some g1 →
  unregister h client now =
    Some ({| hClients := delete (cUsername client) (hClients h);
             hGameClients := hGameClients h; hGameID := hGameID h;
             hClosed := {[cSend client]} ∪ hClosed h;
             hMatchmaker := with_game (hMatchmaker h) gameID (λ _, g1) |},
          [NotifyOpponentDisconnected g1 n (now + 30 * Second);
           GoReconnectTimeout gameID n]).
Proof.
  intros Hid Hgid Hreg Hopen Hg Hbot Hn Hn0 Hd.
  unfold unregister.
  rewrite (bool_decide_eq_true_2 _ Hreg), (bool_decide_eq_false_2 _ Hopen).
  cbn [mbind option_bind]. unfold gameID_of in *. cbn [hGameID hMatchmaker].
  rewrite Hgid. unfold handleDisconnect.
  rewrite (bool_decide_eq_false_2 _ Hid), Hg, Hn.
  rewrite (proj2 (Z.eqb_neq _ _) Hn0).
  destruct (GPlayer2 g) as [p2|]; [|done]. apply (inj Some) in Hbot.
  simpl in Hbot. simpl. rewrite Hbot. simpl. rewrite Hd. done.
Qed.

(** When the reconnection timer fires on a game that is not disconnected
    (the player is back, or the game is over) it does nothing.  When it
    fires on a disconnected game it ends the game by forfeit against the
    side the timer was started for, whoever is marked disconnected at that
    moment and however recently: it compares neither the side nor the time
    of the disconnect.  The end of the game is handled, and then the
    game-over message is broadcast: this panics when a client listed for
    the game has a closed channel, and otherwise reaches every client
    listed. *)
Theorem reconnect_timer_forfeits_if_still_disconnected (h : Hub) g playerNum
    now :
  reachable g →
  (Status g ≠ StatusDisconnect →
   handleReconnectTimeout h g playerNum now = (g, [], Returned)) ∧
  (Status g = StatusDisconnect →
   ∃ w, Winner (Forfeit g playerNum now) = Some w ∧
        player_of g (other_side playerNum) = Some w ∧
        Status (Forfeit g playerNum now) = StatusFinished ∧
        Result (Forfeit g playerNum now) = Some ResultForfeit ∧
        (∀ cs name client, hGameClients h !! ID g = Some cs →
           cs !! name = Some client → cSend client ∈ hClosed h →
           handleReconnectTimeout h g playerNum now
           = (Forfeit g playerNum now, [GameEnd (Forfeit g playerNum now)],
              Panicked)) ∧
        ((∀ cs name client, hGameClients h !! ID g = Some cs →
            cs !! name = Some client → cSend client ∉ hClosed h) →
         ∃ offers,
           handleReconnectTimeout h g playerNum now
           = (Forfeit g playerNum now,
              GameEnd (Forfeit g playerNum now) :: offers, Returned) ∧
           ∀ cs name client, hGameClients h !! ID g = Some cs →
             cs !! name = Some client →
             Offer (cSend client)
                   (mkMessage TypeGameOver (Username w) "forfeit") ∈ offers)).
Proof.
  intros Hr. destruct (reachable_running g Hr) as (_ & Hpl & _).
  split; [apply handleReconnectTimeout_idle|].
  intros Hs. destruct (Forfeit_winner g playerNum now Hpl) as (w & Hw & Hp).
  destruct (Forfeit_outcome g playerNum now) as [Hst Hres].
  exists w. do 4 (split; [done|]). split.
  - intros cs name client Hcs Hc Hcl.
    by apply (handleReconnectTimeout_panics h g playerNum now cs name client).
  - intros Hopen.
    destruct (broadcastToGame_open h (ID g)
                (mkMessage TypeGameOver (Username w) "forfeit") Hopen)
      as (offers & Hb & Hall).
    exists offers. split; [|done].
    unfold handleReconnectTimeout. simpl.
    rewrite bool_decide_eq_true_2 by done.
    rewrite Hw, Forfeit_ID, Hb. done.
Qed.


(** The timer is not tied to the disconnect that started it.  In a game
    between humans that is playing: side 1 disconnects and comes back in
    time, so the game is as before; then the client of side 2, registered
    and listed for the game, ends its connection.  When the timer of the
    first disconnect fires, at whatever time, it records a forfeit against
    side 1, the side that is connected, with the player of side 2, who is
    not, as winner; it handles the end of the game with that record, and
    panics in the broadcast on the closed channel of side 2's client. *)
Theorem stale_timer_forfeits_the_connected_side (h : Hub) client gameID g cs
    (t0 t1 t2 fire : Time) :
  gameID ≠ ""%string → gameID_of h client = gameID →
  is_Some (hClients h !! cUsername client) → cSend client ∉ hClosed h →
  hGameClients h !! gameID = Some cs →
  cs !! cUsername client = Some client →
  GetGame (hMatchmaker h) gameID = Some g → ID g = gameID →
  reachable g → Status g = StatusPlaying →
  (IsBot <$> GPlayer2 g) = Some false →
  GetPlayerByUsername g (cUsername client) = Player2 →
  t1 - t0 ≤ 30 * Second →
  ∃ g1 h3 g3 effects w,
    PlayerDisconnected g Player1 t0 = Some g1 ∧
    PlayerReconnected g1 Player1 t1 = Some (g, true) ∧
    unregister h client t2 = Some (h3, effects) ∧
    GetGame (hMatchmaker h3) gameID = Some g3 ∧
    PlayerDisconnected g Player2 t2 = Some g3 ∧
    let g4 := Forfeit g3 Player1 fire in
    handleReconnectTimeout h3 g3 Player1 fire = (g4, [GameEnd g4], Panicked) ∧
    Status g4 = StatusFinished ∧ Result g4 = Some ResultForfeit ∧
    Winner g4 = Some w ∧ GPlayer2 g4 = Some w ∧ IsConnected w = false ∧
    connected (GPlayer1 g4).
Proof.
  intros Hid Hgid Hreg Hopen Hcs Hc Hg HID Hr Hs Hbot Hn Ht.
  destruct (PlayerDisconnected_playing g Player1 t0 Hr Hs)
    as (g1 & Hd1 & _ & _ & _ & _ & Hback & _).
  destruct (reachable_running g Hr)
    as (_ & Hpl & _ & _ & _ & _ & _ & [Hco _] & _).
  destruct (Hco Hs) as (Hdp & Hdt & (p1 & Hp1 & Hc1) & (p2 & Hp2 & Hc2)).
  set (g3 := set_Player2
               (set_Status
                  (set_DisconnectTime (set_DisconnectedPlayer g Player2) t2)
                  StatusDisconnect)
               (Some (set_IsConnected p2 false))).
  assert (Hd3 : PlayerDisconnected g Player2 t2 = Some g3).
  { unfold PlayerDisconnected. rewrite (bool_decide_eq_true_2 _ Hs). simpl.
    by rewrite Hp2. }
  eexists g1, _, g3, _, (set_IsConnected p2 false).
  split; [done|]. split; [by apply Hback|]. split.
  { apply (unregister_in_game h client gameID t2 g g3 Player2); done. }
  cbn [hMatchmaker]. split; [by eapply GetGame_with_game|].
  split; [done|]. cbn zeta. split.
  - apply (handleReconnectTimeout_panics _ _ Player1 fire cs (cUsername client)
             client); [done| |done|].
    + cbn [hGameClients]. simpl. by rewrite HID.
    + cbn [hClosed]. apply elem_of_union_l. by apply elem_of_singleton.
  - unfold Forfeit. simpl. do 5 (split; [done|]). by exists p1.
Qed.

(** A human who leaves a game against the bot loses it at once: whatever
    the status of the game, finished included, [handleDisconnect] records
    a forfeit with the bot as winner in the registered game and goes on to
    the end of the game, with no reconnection window. *)
Theorem leaving_a_bot_game_forfeits_at_once m username gameID now g :
  gameID ≠ ""%string → GetGame m gameID = Some g → reachable g →
  (IsBot <$> GPlayer2 g) = Some true →
  (Username <$> GPlayer1 g) = Some username →
  let g' := Forfeit g Player1 now in
  ∃ m', handleDisconnect m username gameID now = Some (m', [GameEnd g']) ∧
        GetGame m' gameID = Some g' ∧
        Status g' = StatusFinished ∧ Result g' = Some ResultForfeit ∧
        Winner g' = GPlayer2 g ∧ waitingQueue m' = waitingQueue m.
Proof.
  intros Hid Hg Hr Hbot Hname g'.
  unfold handleDisconnect. rewrite bool_decide_eq_false_2 by done.
  rewrite Hg.
  assert (Hn : GetPlayerByUsername g username = Player1).
  { unfold GetPlayerByUsername. destruct (GPlayer1 g) as [p1|]; [|done].
    injection Hname as Hname. by rewrite bool_decide_eq_true_2. }
  rewrite Hn. simpl.
  destruct (GPlayer2 g) as [p2|] eqn:H2; [|done]. injection Hbot as Hbot.
  simpl. rewrite Hbot. simpl.
  eexists. split; [done|]. split; [by eapply GetGame_with_game|].
  subst g'. unfold Forfeit. simpl. rewrite ?H2. done.
Qed.

(** A player who leaves a game between humans that is playing opens the
    reconnection window: the registered game becomes disconnected for that
    player's side at the time of the disconnect, the opponent is notified
    with a deadline 30 seconds later and the timer is started.  For a
    client with no game the handler only leaves the queue; for a game that
    is not registered, or a name that is no player of it, it does
    nothing. *)
Theorem leaving_a_human_game_opens_the_window m username gameID now :
  (gameID = ""%string →
   ∃ effects, handleDisconnect m username gameID now
              = Some ((LeaveQueue m username).1, effects)) ∧
  (gameID ≠ ""%string → GetGame m gameID = None →
   handleDisconnect m username gameID now = Some (m, [])) ∧
  (∀ g, gameID ≠ ""%string → GetGame m gameID = Some g →
   GetPlayerByUsername g username = 0 →
   handleDisconnect m username gameID now = Some (m, [])) ∧
  (∀ g, gameID ≠ ""%string → GetGame m gameID = Some g → reachable g →
   Status g = StatusPlaying → (IsBot <$> GPlayer2 g) = Some false →
   GetPlayerByUsername g username ≠ 0 →
   let n := GetPlayerByUsername g username in
   ∃ m' g1,
     handleDisconnect m username gameID now =
       Some (m', [NotifyOpponentDisconnected g1 n (now + 30 * Second);
                  GoReconnectTimeout gameID n]) ∧
     GetGame m' gameID = Some g1 ∧
     Status g1 = StatusDisconnect ∧ DisconnectedPlayer g1 = n ∧
     DisconnectTime g1 = now).
Proof.
  unfold handleDisconnect. split; [|split; [|split]].
  - intros ->. rewrite bool_decide_eq_true_2 by done.
    destruct (LeaveQueue m username) as [m' closed]. by eexists.
  - intros Hid Hg. rewrite bool_decide_eq_false_2 by done. by rewrite Hg.
  - intros g Hid Hg Hn. rewrite bool_decide_eq_false_2 by done.
    by rewrite Hg, Hn.
  - intros g Hid Hg Hr Hs Hbot Hn.
    rewrite bool_decide_eq_false_2 by done. rewrite Hg.
    set (n := GetPlayerByUsername g username) in *.
    rewrite (proj2 (Z.eqb_neq _ _) Hn).
    destruct (reachable_running g Hr)
      as (_ & [(p1 & Hp1 & _) (p2 & Hp2 & _)] & _).
    rewrite Hp2 in *. injection Hbot as Hbot. simpl. rewrite Hbot. simpl.
    unfold PlayerDisconnected. rewrite (bool_decide_eq_true_2 _ Hs). simpl.
    destruct (n =? Player1); [rewrite Hp1|rewrite Hp2]; simpl;
      eexists _, _; (split; [done|]);
      (split; [by eapply GetGame_with_game|done]).
Qed.

End hub_extras.

(** * The further properties at concrete inputs *)

Lemma reachable_play g moves now : reachable g → reachable (play g moves now).
Proof.
  revert g. induction moves as [|[playerNum column] moves IH]; intros g Hg;
    simpl; [done|]. by apply IH, reach_MakeMove.
Qed.

Lemma DropDisc_lands_on_lowest_empty_witness :
  cell NewBoard 5 3 = Empty ∧ cell (DropDisc NewBoard 3 1).1 5 3 = 1.
Proof.
  destruct (DropDisc_lands_on_lowest_empty NewBoard 3 1
              (DropDisc NewBoard 3 1).1 5)
    as (_ & _ & He & Hp & _).
  - apply wf_boardb_spec. reflexivity.
  - reflexivity.
  - split; [exact He|exact Hp].
Defined.

Lemma IsColumnValid_iff_DropDisc_succeeds_witness :
  ∃ b' row, DropDisc board_two_wins 3 2 = (b', (row, None)).
Proof.
  apply (proj1 (IsColumnValid_iff_DropDisc_succeeds board_two_wins 3 2
                  ltac:(apply wf_boardb_spec; reflexivity)
                  ltac:(apply gravityb_spec; reflexivity)
                  (or_intror eq_refl))).
  reflexivity.
Defined.

Lemma DropDisc_column_capacity_witness :
  (∃ b' row, DropDisc (GBoard alice_has_won) 6 1 = (b', (row, None)) ∧
             column_discs b' 6 = 4%nat) ∧
  DropDisc board_full 6 1 = (board_full, (-1, Some ErrColumnFull)).
Proof.
  split.
  - destruct (DropDisc_column_capacity (GBoard alice_has_won) 6 1)
      as (_ & _ & Hroom).
    + apply wf_boardb_spec. reflexivity.
    + unfold in_range, Columns. lia.
    + by left.
    + destruct Hroom as (b' & row & Hd & Hn & _); [vm_compute; lia|].
      exists b', row. split; [exact Hd|].
      change (column_discs b' (Z.to_nat 6) = 4%nat). rewrite Hn. reflexivity.
  - apply (DropDisc_column_capacity board_full 6 1).
    + apply wf_boardb_spec. reflexivity.
    + unfold in_range, Columns. lia.
    + by left.
    + reflexivity.
Defined.

Lemma UndoMove_removes_one_disc_witness :
  UndoMove NewBoard 7 = None ∧
  ∃ b', UndoMove (GBoard alice_has_won) 6 = Some b' ∧
        column_discs b' 6 = 2%nat.
Proof.
  split.
  - apply (UndoMove_removes_one_disc NewBoard 7).
    + apply wf_boardb_spec. reflexivity.
    + unfold in_range, Columns. lia.
  - destruct (UndoMove_removes_one_disc (GBoard alice_has_won) 6) as [_ H].
    + apply wf_boardb_spec. reflexivity.
    + destruct H as (b' & Hu & Hn & _); [unfold in_range, Columns; lia|].
      exists b'. split; [exact Hu|].
      change (column_discs b' (Z.to_nat 6) = 2%nat). rewrite Hn. reflexivity.
Defined.

Lemma DropDisc_after_UndoMove_restores_witness :
  ∃ b', UndoMove (GBoard alice_has_won) 6 = Some b' ∧
        DropDisc b' 6 2 = (GBoard alice_has_won, (3, None)).
Proof.
  eexists. split; [reflexivity|].
  apply (DropDisc_after_UndoMove_restores (GBoard alice_has_won) 6 2 3).
  - apply wf_boardb_spec. reflexivity.
  - apply gravityb_spec. reflexivity.
  - by right.
  - unfold Rows. lia.
  - reflexivity.
  - intros r' Hr'.
    destruct r' as [|[|[|r']]]; [reflexivity..|lia].
  - reflexivity.
Defined.

Lemma GetValidColumns_exact_and_IsFull_witness :
  IsFull board_full = true ∧ IsFull NewBoard = false ∧
  3 ∈ GetValidColumns NewBoard.
Proof.
  destruct (GetValidColumns_exact_and_IsFull board_full) as (_ & _ & _ & Hf).
  destruct (GetValidColumns_exact_and_IsFull NewBoard) as (_ & Hv & _ & _).
  split; [|split; [reflexivity|]].
  - apply Hf.
    + apply wf_boardb_spec. reflexivity.
    + apply gravityb_spec. reflexivity.
    + intros r c Hr Hc.
      do 6 (destruct r as [|r];
            [do 7 (destruct c as [|c]; [vm_compute; discriminate|]);
             unfold Columns in Hc; lia|]).
      unfold Rows in Hr. lia.
  - apply Hv. reflexivity.
Defined.

Lemma win_survives_every_drop_witness :
  checkWinUnsafe (DropDisc (GBoard alice_has_won) 6 2).1 1 = true.
Proof.
  apply (win_survives_every_drop (GBoard alice_has_won) 6 2 1).
  - apply wf_boardb_spec. reflexivity.
  - vm_compute. discriminate.
  - reflexivity.
Defined.

Lemma drop_wins_only_for_the_side_dropped_witness :
  checkWinUnsafe (DropDisc board_one_threatens 3 2).1 1 = false.
Proof.
  rewrite (proj1 (drop_wins_only_for_the_side_dropped
                    board_one_threatens 3 2 1
                    ltac:(apply wf_boardb_spec; reflexivity)
                    ltac:(vm_compute; discriminate)
                    ltac:(vm_compute; discriminate))).
  reflexivity.
Defined.

Lemma checkWin_iff_has_line_witness : has_line (GBoard alice_has_won) 1.
Proof. apply checkWin_iff_has_line. reflexivity. Defined.

Lemma GetRandomValidMove_valid_witness :
  ∃ column, GetRandomValidMove NewBoard (λ n, n - 1) = Some column ∧
            column ∈ GetValidColumns NewBoard.
Proof.
  apply (GetRandomValidMove_valid NewBoard (λ n, n - 1)).
  - intros n Hn. lia.
  - reflexivity.
Defined.

Lemma minimax_score_bounded_witness :
  ∃ bd s, minimax (NewBot 2) 4 MinInt32 MaxInt32 false NewBoard = Some (bd, s)
          ∧ -10004 ≤ s ≤ 10004 ∧ MinInt32 < s < MaxInt32.
Proof.
  apply (minimax_score_bounded (NewBot 2) 4 MinInt32 MaxInt32 false NewBoard).
  vm_compute. reflexivity.
Defined.

Lemma minimax_leaves_board_unchanged_witness :
  ∃ s, minimax (NewBot 2) 4 MinInt32 MaxInt32 false board_one_threatens
       = Some (board_one_threatens, s).
Proof.
  apply (minimax_leaves_board_unchanged (NewBot 2) 4).
  - apply wf_boardb_spec. reflexivity.
  - apply gravityb_spec. reflexivity.
  - vm_compute. discriminate.
  - vm_compute. discriminate.
Defined.

Lemma MakeMove_error_unchanged_witness :
  (MakeMove alice_vs_bob 1 9 5).1 = alice_vs_bob.
Proof.
  apply (MakeMove_error_unchanged alice_vs_bob 1 9 5
           (MakeMove alice_vs_bob 1 9 5).1 (-1) ErrInvalidColumn).
  reflexivity.
Defined.

Lemma reachable_alice_has_won : reachable alice_has_won.
Proof. apply reachable_play, reach_start. Qed.

Lemma move_log_matches_board_witness : log_on_board alice_has_won.
Proof. apply move_log_matches_board, reachable_alice_has_won. Defined.

Lemma sides_alternate_witness :
  alternates Player1 (Moves alice_has_won) ∧
  (CurrentTurn alice_has_won = Player1 ∨ CurrentTurn alice_has_won = Player2).
Proof.
  destruct (sides_alternate alice_has_won reachable_alice_has_won)
    as (Ha & Ht & _).
  split; [exact Ha|exact Ht].
Defined.

Lemma outcome_matches_board_witness : outcome_ok alice_has_won.
Proof. apply outcome_matches_board, reachable_alice_has_won. Defined.

Lemma disconnect_then_reconnect_restores_witness :
  ∃ g1, PlayerDisconnected alice_vs_bob 1 (10 * Second) = Some g1 ∧
        PlayerReconnected g1 1 (39 * Second) = Some (alice_vs_bob, true) ∧
        PlayerReconnected g1 1 (41 * Second) = Some (g1, false).
Proof.
  destruct (disconnect_then_reconnect_restores alice_vs_bob 1 (10 * Second))
    as (g1 & Hd & _ & Hin & Hout).
  - apply reach_start.
  - reflexivity.
  - exists g1. split; [exact Hd|]. split.
    + apply Hin. vm_compute. discriminate.
    + apply Hout. reflexivity.
Defined.

Lemma MakeBotMove_plays_a_legal_move_witness :
  ∃ g' column row,
    MakeBotMove bot_to_move 12 = Some (g', (column, row, None)) ∧
    column ∈ GetValidColumns (GBoard bot_to_move) ∧
    MakeMove bot_to_move Player2 column 12 = (g', (row, None)).
Proof.
  apply (proj2 (MakeBotMove_plays_a_legal_move bot_to_move 12)).
  - apply reachable_play, reach_start.
  - reflexivity.
  - reflexivity.
  - eexists. reflexivity.
Defined.

Lemma GetPlayerByUsername_finds_the_side_witness :
  GetPlayerByUsername alice_vs_bob "alice" = Player1.
Proof.
  apply (GetPlayerByUsername_finds_the_side alice_vs_bob "alice").
  - apply reach_start.
  - reflexivity.
Defined.

Lemma waiting_queue_holds_at_most_one_witness :
  (GetWaitingCount mm_paired ≤ 1)%nat.
Proof.
  apply (waiting_queue_holds_at_most_one mm_paired).
  apply mm_JoinQueue, mm_JoinQueue, (mm_new false).
Defined.

Lemma two_joins_make_one_match_witness :
  waitingQueue mm_paired = [] ∧
  GetGameByPlayer mm_paired "bob"
    = Some (AddPlayer2 (NewGame "game-1" 5 "bob") "alice" false) ∧
  GetGameByPlayer mm_paired "alice"
    = Some (AddPlayer2 (NewGame "game-1" 5 "bob") "alice" false).
Proof.
  destruct (two_joins_make_one_match NewMatchmaker "bob" "alice" 1%nat 2%nat
              "unused" "game-1" 0 5 eq_refl eq_refl eq_refl eq_refl)
    as (_ & _ & _ & _ & Hq & _ & _ & Hb & Ha).
  split; [exact Hq|]. split; [exact Hb|exact Ha].
Defined.

Lemma lone_player_gets_bot_game_witness :
  GetWaitingCount mm_bot = 0%nat ∧
  GetGameByPlayer mm_bot "alice" = Some alice_vs_bot.
Proof.
  destruct (lone_player_gets_bot_game NewMatchmaker "alice" 1%nat
              "unused" "game-b" 0 10 eq_refl eq_refl)
    as (_ & Hq & _ & _ & Ha & _).
  split; [exact Hq|exact Ha].
Defined.

Lemma matchmaking_timer_revalidates_witness :
  handleMatchmakingTimeout mm_paired (mkWaiting "bob" 0 1%nat) "game-b" 10
    = (mm_paired, []).
Proof.
  destruct (matchmaking_timer_revalidates NewMatchmaker "bob" "alice"
              1%nat 2%nat "unused" "game-1" "game-b" 0 5 10)
    as (_ & Hpaired & _).
  apply Hpaired; reflexivity.
Defined.

Lemma RemoveGame_unregisters_witness :
  ∃ m', RemoveGame mm_finished "game-1" = Some m' ∧
        GetGame m' "game-1" = None ∧ GetGameByPlayer m' "bob" = None ∧
        GetGameByPlayer m' "alice" = None.
Proof.
  destruct (proj2 (RemoveGame_unregisters mm_finished "game-1")
              bob_vs_alice_forfeited (mkPlayer "bob" 1 false true))
    as (m' & Hr & Hg & H1 & H2 & _).
  - vm_compute. reflexivity.
  - reflexivity.
  - exists m'. split; [exact Hr|]. split; [exact Hg|]. split; [exact H1|].
    apply (H2 (mkPlayer "alice" 2 false true)); reflexivity.
Defined.


Lemma stale_timer_forfeits_the_connected_side_witness :
  ∃ h3 g3 effects w,
    unregister hub_paired alice_client (25 * Second) = Some (h3, effects) ∧
    GetGame (hMatchmaker h3) "game-1" = Some g3 ∧
    handleReconnectTimeout h3 g3 Player1 (30 * Second)
    = (Forfeit g3 Player1 (30 * Second),
       [GameEnd (Forfeit g3 Player1 (30 * Second))], Panicked) ∧
    Winner (Forfeit g3 Player1 (30 * Second)) = Some w ∧
    IsConnected w = false.
Proof.
  destruct (stale_timer_forfeits_the_connected_side hub_paired alice_client
              "game-1"
              (AddPlayer2 (NewGame "game-1" 5 "bob") "alice" false)
              (<["alice"%string := alice_client]>
                 (<["bob"%string := bob_client]> ∅))
              0 (5 * Second) (25 * Second) (30 * Second))
    as (g1 & h3 & g3 & effects & w & _ & _ & Hu & Hg & _ & Ht & _ & _ & Hw
        & _ & Hc & _).
  - discriminate.
  - reflexivity.
  - vm_compute. eexists. reflexivity.
  - vm_compute. discriminate.
  - vm_compute. reflexivity.
  - vm_compute. reflexivity.
  - vm_compute. reflexivity.
  - reflexivity.
  - apply reach_start.
  - reflexivity.
  - reflexivity.
  - reflexivity.
  - vm_compute. discriminate.
  - exists h3, g3, effects, w. split; [exact Hu|]. split; [exact Hg|].
    split; [exact Ht|]. split; [exact Hw|exact Hc].
Defined.

Lemma leaving_a_bot_game_forfeits_at_once_witness :
  ∃ m', handleDisconnect mm_bot "alice" "game-b" 20
          = Some (m', [GameEnd (Forfeit alice_vs_bot Player1 20)]) ∧
        GetGame m' "game-b" = Some (Forfeit alice_vs_bot Player1 20).
Proof.
  destruct (leaving_a_bot_game_forfeits_at_once mm_bot "alice" "game-b" 20
              alice_vs_bot)
    as (m' & Hh & Hg & _).
  - discriminate.
  - vm_compute. reflexivity.
  - apply reach_start.
  - reflexivity.
  - reflexivity.
  - exists m'. split; [exact Hh|exact Hg].
Defined.

Lemma leaving_a_human_game_opens_the_window_witness :
  ∃ m' g1,
    handleDisconnect mm_paired "alice" "game-1" 20 =
      Some (m', [NotifyOpponentDisconnected g1 2 (20 + 30 * Second);
                 GoReconnectTimeout "game-1" 2]) ∧
    GetGame m' "game-1" = Some g1 ∧ Status g1 = StatusDisconnect.
Proof.
  destruct (proj2 (proj2 (proj2
              (leaving_a_human_game_opens_the_window mm_paired "alice"
                 "game-1" 20)))
              (AddPlayer2 (NewGame "game-1" 5 "bob") "alice" false))
    as (m' & g1 & Hh & Hg & Hs & _).
  - discriminate.
  - vm_compute. reflexivity.
  - apply reach_start.
  - reflexivity.
  - reflexivity.
  - vm_compute. discriminate.
  - exists m', g1. split; [exact Hh|]. split; [exact Hg|exact Hs].
Defined.
